(** * Uniform grid broad phase (uniform_grid.cpp): a shallow embedding

    The spatial index of the asteroid game: cell coordinates, cell
    linearisation, the build pass and the two queries ([Query], [QueryRay]).

    - [float] is IEEE-754 binary32, with the operations of the standard
      library's [SpecFloat] at precision 24 and maximal exponent 128
      (round to nearest, ties to even).
    - [int] is a 32-bit two's complement integer carried by [Z]; every
      arithmetic operation on it is wrapped by [wrap32].
    - [std::vector<std::vector<int>>] is a list of lists, [std::set<int>] a
      strictly increasing list. *)

From Stdlib Require Import ZArith List Bool Lia Sorted.
From Stdlib Require Import Floats.SpecFloat.
Import ListNotations.
Local Open Scope Z_scope.

(* ------------------------------------------------------------------ *)
(** ** 32-bit signed integers *)

Definition INT_MIN : Z := - 2 ^ 31.
Definition INT_MAX : Z := 2 ^ 31 - 1.

(** Reduction of a mathematical integer to the [int] that stores it. *)
Definition wrap32 (z : Z) : Z := (z + 2 ^ 31) mod 2 ^ 32 - 2 ^ 31.

Definition iadd (a b : Z) : Z := wrap32 (a + b).
Definition isub (a b : Z) : Z := wrap32 (a - b).
Definition imul (a b : Z) : Z := wrap32 (a * b).

(** [for (int i = lo; i <= hi; ++i)]: the values taken by [i].  The loops of
    this file run between clamped cell coordinates, below [INT_MAX]. *)
Definition int_range (lo hi : Z) : list Z :=
  map (fun k => lo + Z.of_nat k) (seq 0 (Z.to_nat (hi - lo + 1))).

(* ------------------------------------------------------------------ *)
(** ** binary32 floats *)

Definition float : Type := spec_float.

Definition prec : Z := 24.
Definition emax : Z := 128.

Definition fadd : float -> float -> float := SFadd prec emax.
Definition fsub : float -> float -> float := SFsub prec emax.
Definition fmul : float -> float -> float := SFmul prec emax.
Definition fdiv : float -> float -> float := SFdiv prec emax.
Definition fabsf : float -> float := SFabs.

(** [a < b], [a <= b], [a >= b], [a > b]; all false on NaN. *)
Definition flt (a b : float) : bool := SFltb a b.
Definition fle (a b : float) : bool := SFleb a b.
Definition fge (a b : float) : bool := SFleb b a.
Definition fgt (a b : float) : bool := SFltb b a.

(** [(float)n] for an integer [n]. *)
Definition float_of_int (n : Z) : float := binary_normalize prec emax n 0 false.

Definition infinity : float := S754_infinity false.

(** The literals of the source. *)
Definition f0 : float := S754_zero false.                           (* 0.0f *)
Definition f1 : float := float_of_int 1.                            (* 1.0f *)
Definition f0_5 : float := fdiv (float_of_int 1) (float_of_int 2).  (* 0.5f *)
Definition f0_0001 : float :=
  fdiv (float_of_int 1) (float_of_int 10000).                       (* 0.0001f *)

(** The signed integer [m * 2^e] is the value of a finite float. *)
Definition signed_mantissa (s : bool) (m : positive) : Z :=
  if s then Z.neg m else Z.pos m.

(** [floorf]: the largest integral float below the argument. *)
Definition floorf (x : float) : float :=
  match x with
  | S754_finite s m e =>
      if 0 <=? e then x
      else binary_normalize prec emax
             (Z.shiftr (signed_mantissa s m) (- e)) 0 false
  | _ => x
  end.

(** [ceilf]: the smallest integral float above the argument. *)
Definition ceilf (x : float) : float :=
  match x with
  | S754_finite s m e =>
      if 0 <=? e then x
      else binary_normalize prec emax
             (- Z.shiftr (- signed_mantissa s m) (- e)) 0 s
  | _ => x
  end.

(** [(int)x]: truncation toward zero.  C++ leaves the conversion of a NaN,
    an infinity or a value outside [int] undefined; the x86-64 conversion
    instruction (cvttss2si) returns [INT_MIN] there, which is what is
    modelled. *)
Definition float_to_int (x : float) : Z :=
  match x with
  | S754_zero _ => 0
  | S754_finite s m e =>
      let t := if 0 <=? e then Z.shiftl (signed_mantissa s m) e
               else Z.quot (signed_mantissa s m) (2 ^ (- e)) in
      if (INT_MIN <=? t) && (t <=? INT_MAX) then t else INT_MIN
  | _ => INT_MIN
  end.

(* ------------------------------------------------------------------ *)
(** ** raylib / raymath data *)

Module Vector3.
Record t : Type := mk { x : float; y : float; z : float }.
End Vector3.

Module Vector3Int.
Record t : Type := mk { x : Z; y : Z; z : Z }.
End Vector3Int.

Module BoundingBox.
Record t : Type := mk { min : Vector3.t; max : Vector3.t }.
End BoundingBox.

Module Ray.
Record t : Type := mk { position : Vector3.t; direction : Vector3.t }.
End Ray.

(** The fields of [Asteroid] (asteroid_field.h) that the grid reads. *)
Module Asteroid.
Record t : Type :=
  mk { position : Vector3.t; collisionRadius : float; isActive : bool }.
End Asteroid.

(** raymath: component-wise difference. *)
Definition Vector3Subtract (v1 v2 : Vector3.t) : Vector3.t :=
  Vector3.mk (fsub (Vector3.x v1) (Vector3.x v2))
             (fsub (Vector3.y v1) (Vector3.y v2))
             (fsub (Vector3.z v1) (Vector3.z v2)).

(** raymath: [v.x*v.x + v.y*v.y + v.z*v.z]. *)
Definition Vector3LengthSqr (v : Vector3.t) : float :=
  fadd (fadd (fmul (Vector3.x v) (Vector3.x v))
             (fmul (Vector3.y v) (Vector3.y v)))
       (fmul (Vector3.z v) (Vector3.z v)).

(* ------------------------------------------------------------------ *)
(** ** The grid *)

Record UniformGrid : Type := mkGrid {
  gridMinBounds : Vector3.t;
  gridMaxBounds : Vector3.t;
  gridCellSize : Vector3.t;
  gridDimX : Z;
  gridDimY : Z;
  gridDimZ : Z;
  totalCells : Z;
  gridCells : list (list Z)
}.

Definition with_cells (g : UniformGrid) (cells : list (list Z)) : UniformGrid :=
  mkGrid (gridMinBounds g) (gridMaxBounds g) (gridCellSize g)
         (gridDimX g) (gridDimY g) (gridDimZ g) (totalCells g) cells.

(** [if (c <= 0.0f) c = 1.0f;] *)
Definition positive_cell_size (c : float) : float :=
  if fle c f0 then f1 else c.

(** The three components after lines 17-22. *)
Definition positive_cell_sizes (cellSize : Vector3.t) : Vector3.t :=
  Vector3.mk (positive_cell_size (Vector3.x cellSize))
             (positive_cell_size (Vector3.y cellSize))
             (positive_cell_size (Vector3.z cellSize)).

(** [(int)ceilf(extent / cell)], then [if (dim <= 0) dim = 1;] *)
Definition grid_dim (extent cell : float) : Z :=
  let d := float_to_int (ceilf (fdiv extent cell)) in
  if d <=? 0 then 1 else d.

(** The constructor.  [gridCells.resize(totalCells)] converts [totalCells]
    to [size_t]; a negative value becomes a size above [max_size()] and
    [resize] throws [std::length_error]: the result is [None].  Memory is
    otherwise taken to be sufficient. *)
Definition UniformGrid_new (worldMin worldMax cellSize : Vector3.t)
  : option UniformGrid :=
  let cs := positive_cell_sizes cellSize in
  let gridTotalSize := Vector3Subtract worldMax worldMin in
  let dx := grid_dim (Vector3.x gridTotalSize) (Vector3.x cs) in
  let dy := grid_dim (Vector3.y gridTotalSize) (Vector3.y cs) in
  let dz := grid_dim (Vector3.z gridTotalSize) (Vector3.z cs) in
  let total := imul (imul dx dy) dz in
  if total <? 0 then None
  else Some (mkGrid worldMin worldMax cs dx dy dz total
                    (repeat [] (Z.to_nat total))).

(** [Clear]: [gridCells[i].clear()] for [i] below [totalCells]. *)
Fixpoint clear_cells (n : nat) (cells : list (list Z)) : list (list Z) :=
  match n, cells with
  | S n', _ :: rest => [] :: clear_cells n' rest
  | _, _ => cells
  end.

Definition Clear (g : UniformGrid) : UniformGrid :=
  with_cells g (clear_cells (Z.to_nat (totalCells g)) (gridCells g)).

(** [std::max(0, std::min(i, dim - 1))] *)
Definition clamp_index (i dim : Z) : Z := Z.max 0 (Z.min i (isub dim 1)).

Definition GetCellIndices (g : UniformGrid) (worldPos : Vector3.t)
  : Vector3Int.t :=
  let relativePos := Vector3Subtract worldPos (gridMinBounds g) in
  Vector3Int.mk
    (clamp_index (float_to_int (floorf (fdiv (Vector3.x relativePos)
                                             (Vector3.x (gridCellSize g)))))
                 (gridDimX g))
    (clamp_index (float_to_int (floorf (fdiv (Vector3.y relativePos)
                                             (Vector3.y (gridCellSize g)))))
                 (gridDimY g))
    (clamp_index (float_to_int (floorf (fdiv (Vector3.z relativePos)
                                             (Vector3.z (gridCellSize g)))))
                 (gridDimZ g)).

Definition IsValidIndex (g : UniformGrid) (ix iy iz : Z) : bool :=
  (0 <=? ix) && (ix <? gridDimX g) &&
  (0 <=? iy) && (iy <? gridDimY g) &&
  (0 <=? iz) && (iz <? gridDimZ g).

(** [ix + iy * gridDimX + iz * gridDimX * gridDimY], in [int] arithmetic. *)
Definition Get1DIndex (g : UniformGrid) (ix iy iz : Z) : Z :=
  iadd (iadd ix (imul iy (gridDimX g)))
       (imul (imul iz (gridDimX g)) (gridDimY g)).

(** The safety check [cellIndex >= 0 && cellIndex < (int)gridCells.size()]. *)
Definition cell_in_range (cells : list (list Z)) (cellIndex : Z) : bool :=
  (0 <=? cellIndex) && (cellIndex <? wrap32 (Z.of_nat (length cells))).

(** [gridCells[k].push_back(v)] *)
Fixpoint push_back_at (k : nat) (v : Z) (cells : list (list Z)) {struct cells}
  : list (list Z) :=
  match cells with
  | [] => []
  | c :: rest =>
      match k with
      | O => (c ++ [v]) :: rest
      | S k' => c :: push_back_at k' v rest
      end
  end.

(** The body of the innermost loop of [Add]. *)
Definition add_to_cell (g : UniformGrid) (instanceIndex : Z)
    (iz iy ix : Z) (cells : list (list Z)) : list (list Z) :=
  if IsValidIndex g ix iy iz then
    let cellIndex := Get1DIndex g ix iy iz in
    if cell_in_range cells cellIndex
    then push_back_at (Z.to_nat cellIndex) instanceIndex cells
    else cells (* warning logged *)
  else cells.

(** The three nested loops of [Add] over the cell vector. *)
Definition add_cells (g : UniformGrid) (instanceIndex : Z)
    (minIndices maxIndices : Vector3Int.t) (cells : list (list Z))
  : list (list Z) :=
  fold_left (fun cells iz =>
    fold_left (fun cells iy =>
      fold_left (fun cells ix =>
        add_to_cell g instanceIndex iz iy ix cells)
        (int_range (Vector3Int.x minIndices) (Vector3Int.x maxIndices))
        cells)
      (int_range (Vector3Int.y minIndices) (Vector3Int.y maxIndices))
      cells)
    (int_range (Vector3Int.z minIndices) (Vector3Int.z maxIndices))
    cells.

Definition Add (g : UniformGrid) (instanceIndex : Z)
    (worldBounds : BoundingBox.t) : UniformGrid :=
  let minIndices := GetCellIndices g (BoundingBox.min worldBounds) in
  let maxIndices := GetCellIndices g (BoundingBox.max worldBounds) in
  with_cells g (add_cells g instanceIndex minIndices maxIndices (gridCells g)).

(** The radius [BuildInstanced] uses: [if (r <= 0.0f) r = 0.5f;] *)
Definition build_radius (a : Asteroid.t) : float :=
  if fle (Asteroid.collisionRadius a) f0 then f0_5
  else Asteroid.collisionRadius a.

(** The approximate world bounds [BuildInstanced] hands to [Add]. *)
Definition worldBounds (a : Asteroid.t) : BoundingBox.t :=
  let r := build_radius a in
  let p := Asteroid.position a in
  BoundingBox.mk
    (Vector3.mk (fsub (Vector3.x p) r) (fsub (Vector3.y p) r)
                (fsub (Vector3.z p) r))
    (Vector3.mk (fadd (Vector3.x p) r) (fadd (Vector3.y p) r)
                (fadd (Vector3.z p) r)).

(** The loop of [BuildInstanced] from position [i] on; [(int)i] is the
    stored index. *)
Fixpoint build_from (g : UniformGrid) (i : nat) (instances : list Asteroid.t)
  : UniformGrid :=
  match instances with
  | [] => g
  | a :: rest =>
      build_from
        (if Asteroid.isActive a
         then Add g (wrap32 (Z.of_nat i)) (worldBounds a)
         else g)
        (S i) rest
  end.

Definition BuildInstanced (g : UniformGrid) (instances : list Asteroid.t)
  : UniformGrid :=
  build_from (Clear g) 0 instances.

(** [std::set<int>::insert]: the set is kept as a strictly increasing list. *)
Fixpoint set_insert (v : Z) (s : list Z) : list Z :=
  match s with
  | [] => [v]
  | w :: rest =>
      if v <? w then v :: s
      else if v =? w then s
      else w :: set_insert v rest
  end.

(** [uniqueIndices.insert(cell.begin(), cell.end())] *)
Definition set_insert_all (cell : list Z) (s : list Z) : list Z :=
  fold_left (fun acc v => set_insert v acc) cell s.

(** [gridCells[cellIndex]] *)
Definition cell_at (cells : list (list Z)) (cellIndex : Z) : list Z :=
  nth (Z.to_nat cellIndex) cells [].

(** The body of the innermost loop of [Query]. *)
Definition query_cell (g : UniformGrid) (centerIndices : Vector3Int.t)
    (dz dy dx : Z) (uniqueIndices : list Z) : list Z :=
  let checkX := iadd (Vector3Int.x centerIndices) dx in
  let checkY := iadd (Vector3Int.y centerIndices) dy in
  let checkZ := iadd (Vector3Int.z centerIndices) dz in
  if IsValidIndex g checkX checkY checkZ then
    let cellIndex := Get1DIndex g checkX checkY checkZ in
    if cell_in_range (gridCells g) cellIndex
    then set_insert_all (cell_at (gridCells g) cellIndex) uniqueIndices
    else uniqueIndices (* warning logged *)
  else uniqueIndices.

Definition Query (g : UniformGrid) (worldPos : Vector3.t) : list Z :=
  let centerIndices := GetCellIndices g worldPos in
  fold_left (fun acc dz =>
    fold_left (fun acc dy =>
      fold_left (fun acc dx => query_cell g centerIndices dz dy dx acc)
                (int_range (-1) 1) acc)
      (int_range (-1) 1) acc)
    (int_range (-1) 1) [].

(* ------------------------------------------------------------------ *)
(** ** QueryRay: incremental voxel traversal *)

(** The variables the [while] loop of [QueryRay] updates. *)
Record RayState : Type := mkRay {
  ray_ix : Z;
  ray_iy : Z;
  ray_iz : Z;
  tMaxX : float;
  tMaxY : float;
  tMaxZ : float;
  currentT : float;
  uniqueIndices : list Z
}.

(** What the loop reads and never writes. *)
Record RaySetup : Type := mkSetup {
  stepX : Z;
  stepY : Z;
  stepZ : Z;
  tDeltaX : float;
  tDeltaY : float;
  tDeltaZ : float
}.

Inductive Axis : Type := AxisX | AxisY | AxisZ.

(** The nested comparisons at the head of the loop body: which of the four
    branches is taken (two of them advance z). *)
Definition next_axis (tx ty tz : float) : Axis :=
  if flt tx ty then
    if flt tx tz then AxisX else AxisZ
  else
    if flt ty tz then AxisY else AxisZ.

(** The three assignments of a branch. *)
Definition advance_along (su : RaySetup) (a : Axis) (st : RayState) : RayState :=
  match a with
  | AxisX => mkRay (iadd (ray_ix st) (stepX su)) (ray_iy st) (ray_iz st)
                   (fadd (tMaxX st) (tDeltaX su)) (tMaxY st) (tMaxZ st)
                   (tMaxX st) (uniqueIndices st)
  | AxisY => mkRay (ray_ix st) (iadd (ray_iy st) (stepY su)) (ray_iz st)
                   (tMaxX st) (fadd (tMaxY st) (tDeltaY su)) (tMaxZ st)
                   (tMaxY st) (uniqueIndices st)
  | AxisZ => mkRay (ray_ix st) (ray_iy st) (iadd (ray_iz st) (stepZ su))
                   (tMaxX st) (tMaxY st) (fadd (tMaxZ st) (tDeltaZ su))
                   (tMaxZ st) (uniqueIndices st)
  end.

Definition advance (su : RaySetup) (st : RayState) : RayState :=
  advance_along su (next_axis (tMaxX st) (tMaxY st) (tMaxZ st)) st.

(** The end of the loop body: the indices of the cell just entered join the
    set (the else branch only logs a warning). *)
Definition collect (g : UniformGrid) (st : RayState) : RayState :=
  let cellIndex := Get1DIndex g (ray_ix st) (ray_iy st) (ray_iz st) in
  if cell_in_range (gridCells g) cellIndex
  then mkRay (ray_ix st) (ray_iy st) (ray_iz st)
             (tMaxX st) (tMaxY st) (tMaxZ st) (currentT st)
             (set_insert_all (cell_at (gridCells g) cellIndex)
                             (uniqueIndices st))
  else st.

(** The [while (currentT < maxDistance)] loop, for any way [adv] of choosing
    the axis to advance; [fuel] bounds the number of iterations and [None] is
    the loop still running when it is spent. *)
Fixpoint ray_walk (adv : RayState -> RayState) (g : UniformGrid)
    (maxDistance : float) (fuel : nat) (st : RayState) : option (list Z) :=
  if flt (currentT st) maxDistance then
    match fuel with
    | O => None
    | S fuel' =>
        let st' := adv st in
        if fge (currentT st') maxDistance then Some (uniqueIndices st')
        else if negb (IsValidIndex g (ray_ix st') (ray_iy st') (ray_iz st'))
        then Some (uniqueIndices st')
        else ray_walk adv g maxDistance fuel' (collect g st')
    end
  else Some (uniqueIndices st).

(** [tMax] and [tDelta] of one axis (lines 204-221); infinite when the
    direction component is negligible. *)
Definition axis_setup (dir pos cell lo : float) (i step : Z) : float * float :=
  if fgt (fabsf dir) f0_0001 then
    let nextBound :=
      if 0 <? step
      then fadd (fmul (float_of_int (iadd i 1)) cell) lo
      else fadd (fmul (float_of_int i) cell) lo in
    (fdiv (fsub nextBound pos) dir, fabsf (fdiv cell dir))
  else (infinity, infinity).

Definition axis_step (dir : float) : Z := if fge dir f0 then 1 else -1.

Definition ray_setup (g : UniformGrid) (ray : Ray.t) : RaySetup * RayState :=
  let currentIndices := GetCellIndices g (Ray.position ray) in
  let ix := Vector3Int.x currentIndices in
  let iy := Vector3Int.y currentIndices in
  let iz := Vector3Int.z currentIndices in
  let d := Ray.direction ray in
  let p := Ray.position ray in
  let sx := axis_step (Vector3.x d) in
  let sy := axis_step (Vector3.y d) in
  let sz := axis_step (Vector3.z d) in
  let tx := axis_setup (Vector3.x d) (Vector3.x p)
              (Vector3.x (gridCellSize g)) (Vector3.x (gridMinBounds g)) ix sx in
  let ty := axis_setup (Vector3.y d) (Vector3.y p)
              (Vector3.y (gridCellSize g)) (Vector3.y (gridMinBounds g)) iy sy in
  let tz := axis_setup (Vector3.z d) (Vector3.z p)
              (Vector3.z (gridCellSize g)) (Vector3.z (gridMinBounds g)) iz sz in
  let first :=
    if IsValidIndex g ix iy iz then
      let cellIndex := Get1DIndex g ix iy iz in
      if cell_in_range (gridCells g) cellIndex
      then set_insert_all (cell_at (gridCells g) cellIndex) []
      else []
    else [] in
  (mkSetup sx sy sz (snd tx) (snd ty) (snd tz),
   mkRay ix iy iz (fst tx) (fst ty) (fst tz) f0 first).

(** [QueryRay] with the axis choice and the iteration budget as parameters. *)
Definition QueryRay_with (adv : RaySetup -> RayState -> RayState)
    (fuel : nat) (g : UniformGrid) (ray : Ray.t) (maxDistance : float)
  : option (list Z) :=
  if flt (Vector3LengthSqr (Ray.direction ray)) f0_0001
  then Some (Query g (Ray.position ray))
  else
    let '(su, st) := ray_setup g ray in
    ray_walk (adv su) g maxDistance fuel st.

(** The iteration budget that always suffices (see [ray_walk_terminates]). *)
Definition ray_fuel (g : UniformGrid) : nat :=
  Z.to_nat (gridDimX g + gridDimY g + gridDimZ g).

(** [QueryRay] as implemented. *)
Definition QueryRay (g : UniformGrid) (ray : Ray.t) (maxDistance : float)
  : option (list Z) :=
  QueryRay_with advance (ray_fuel g) g ray maxDistance.

(** The traversal the specification words: advance along the axis whose
    [tMax] is smallest, on ties x before y before z. *)
Definition next_axis_xyz (tx ty tz : float) : Axis :=
  if fle tx ty && fle tx tz then AxisX
  else if fle ty tz then AxisY
  else AxisZ.

Definition advance_xyz (su : RaySetup) (st : RayState) : RayState :=
  advance_along su (next_axis_xyz (tMaxX st) (tMaxY st) (tMaxZ st)) st.

Definition QueryRay_xyz (g : UniformGrid) (ray : Ray.t) (maxDistance : float)
  : option (list Z) :=
  QueryRay_with advance_xyz (ray_fuel g) g ray maxDistance.

(* ------------------------------------------------------------------ *)
(** ** Concrete data *)

Definition fz (n : Z) : float := float_of_int n.
Definition vec (a b c : Z) : Vector3.t := Vector3.mk (fz a) (fz b) (fz c).

Definition empty_cells (n : nat) : list (list Z) := repeat [] n.

(** The scenario grid: bounds (-50,-50,-50)..(50,50,50), cells of 10. *)
Definition scenario_grid : UniformGrid :=
  mkGrid (vec (-50) (-50) (-50)) (vec 50 50 50) (vec 10 10 10)
         10 10 10 1000 (empty_cells 1000).

Definition scenario_objects : list Asteroid.t :=
  [Asteroid.mk (vec 5 5 5) (fz 1) true].

Definition scenario_ray : Ray.t := Ray.mk (vec (-60) 5 5) (vec 1 0 0).

(** A 4 x 4 x 4 grid: bounds (0,0,0)..(40,40,40), cells of 10; one active
    asteroid in cell (1,0,0) and an inactive one in cell (2,2,2). *)
Definition small_grid : UniformGrid :=
  mkGrid (vec 0 0 0) (vec 40 40 40) (vec 10 10 10) 4 4 4 64 (empty_cells 64).

Definition rock : Asteroid.t := Asteroid.mk (vec 15 5 5) (fz 1) true.
Definition wreck : Asteroid.t := Asteroid.mk (vec 25 25 25) (fz 1) false.
Definition small_objects : list Asteroid.t := [rock; wreck].

(** A ray through the edge shared by four cells: from (5,5,5) along (1,1,0),
    it reaches x = 10 and y = 10 together. *)
Definition diagonal_ray : Ray.t := Ray.mk (vec 5 5 5) (vec 1 1 0).

(** Three active asteroids in the cells (1,0,0), (2,0,0) and (0,0,0) of the
    small grid, and a ray along x that meets the last one first. *)
Definition rock_row : list Asteroid.t :=
  [Asteroid.mk (vec 15 5 5) (fz 1) true;
   Asteroid.mk (vec 25 5 5) (fz 1) true;
   Asteroid.mk (vec 5 5 5) (fz 1) true].

Definition row_ray : Ray.t := Ray.mk (vec 1 5 5) (vec 1 0 0).

(** A snapshot of 2^32 + 1 asteroids: 2^32 inactive ones, then [rock] at
    position 2^32. *)
Definition crowded_snapshot : list Asteroid.t :=
  wreck :: repeat wreck (Z.to_nat 4294967295) ++ [rock].

(** A 65536 x 65536 x 1 grid: bounds (0,0,0)..(262144,262144,4), cells of 4.
    Its cell count, 2^32, is reduced to 0 by [int] arithmetic. *)
Definition wide_grid : UniformGrid :=
  mkGrid (vec 0 0 0) (vec 262144 262144 4) (vec 4 4 4) 65536 65536 1 0 [].

Definition pebble : Asteroid.t := Asteroid.mk (vec 2 2 2) (fz 1) true.

(** A 4 x 4 x 4 grid of unit cells and an asteroid far outside it, whose
    far corner is beyond the [int] range. *)
Definition unit_grid : UniformGrid :=
  mkGrid (vec 0 0 0) (vec 4 4 4) (vec 1 1 1) 4 4 4 64 (empty_cells 64).

Definition far_rock : Asteroid.t :=
  Asteroid.mk (vec 2147483520 2 2) (fz 200) true.

(** An asteroid whose radius is not a number, and one outside the small
    grid, below it in x and above it in z. *)
Definition hazy_rock : Asteroid.t :=
  Asteroid.mk (vec 25 25 25) S754_nan true.

Definition stray_rock : Asteroid.t :=
  Asteroid.mk (vec (-100) 5 55) (fz 1) true.

Definition is_finite (x : float) : bool :=
  match x with
  | S754_zero _ | S754_finite _ _ _ => true
  | _ => false
  end.

(** The reachable grid states: a grid is constructed, then rebuilt any number
    of times (queries do not change it). *)
Inductive grid_state : UniformGrid -> Prop :=
  | grid_constructed : forall worldMin worldMax cellSize g,
      UniformGrid_new worldMin worldMax cellSize = Some g -> grid_state g
  | grid_rebuilt : forall g instances,
      grid_state g -> grid_state (BuildInstanced g instances).

(** The number of cells is representable: [nx * ny * nz] does not overflow
    [int]. *)
Definition cells_fit (g : UniformGrid) : Prop :=
  gridDimX g * gridDimY g * gridDimZ g <= INT_MAX.

(** What every reachable grid satisfies. *)
Record grid_wf (g : UniformGrid) : Prop := mkWf {
  wf_dimX : 1 <= gridDimX g <= INT_MAX;
  wf_dimY : 1 <= gridDimY g <= INT_MAX;
  wf_dimZ : 1 <= gridDimZ g <= INT_MAX;
  wf_total : totalCells g = imul (imul (gridDimX g) (gridDimY g)) (gridDimZ g);
  wf_total_nonneg : 0 <= totalCells g;
  wf_size : length (gridCells g) = Z.to_nat (totalCells g)
}.

(* ------------------------------------------------------------------ *)
(** ** Vocabulary of the statements *)

(** [objs] are the instances handed to [BuildInstanced]; [from_active w] says
    that [w] is the stored index of one of its active members. *)
Definition from_active (objs : list Asteroid.t) (w : Z) : Prop :=
  exists n a, nth_error objs n = Some a /\ Asteroid.isActive a = true /\
              w = wrap32 (Z.of_nat n).

(** Component-wise order on cell coordinates. *)
Definition cell_between (lo c hi : Vector3Int.t) : Prop :=
  Vector3Int.x lo <= Vector3Int.x c <= Vector3Int.x hi /\
  Vector3Int.y lo <= Vector3Int.y c <= Vector3Int.y hi /\
  Vector3Int.z lo <= Vector3Int.z c <= Vector3Int.z hi.

(** [in_some_cell g w]: the index [w] is stored in a cell of [g]. *)
Definition in_some_cell (g : UniformGrid) (w : Z) : Prop :=
  exists j, In w (nth j (gridCells g) []).

(** The dimensions alone, without the cell vector. *)
Definition dims_ok (g : UniformGrid) : Prop :=
  1 <= gridDimX g <= INT_MAX /\ 1 <= gridDimY g <= INT_MAX /\
  1 <= gridDimZ g <= INT_MAX.

(** How many more steps an axis can take before it leaves the grid. *)
Definition axis_slack (step dim i : Z) : Z :=
  if 0 <? step then dim - 1 - i else i.

Definition ray_slack (g : UniformGrid) (su : RaySetup) (st : RayState) : Z :=
  axis_slack (stepX su) (gridDimX g) (ray_ix st) +
  axis_slack (stepY su) (gridDimY g) (ray_iy st) +
  axis_slack (stepZ su) (gridDimZ g) (ray_iz st).

Definition unit_steps (su : RaySetup) : Prop :=
  (stepX su = 1 \/ stepX su = -1) /\ (stepY su = 1 \/ stepY su = -1) /\
  (stepZ su = 1 \/ stepZ su = -1).

(** [a == b] on floats. *)
Definition feq (a b : float) : bool := SFeqb a b.

(** One of the three values is strictly below the other two. *)
Definition strict_min (tx ty tz : float) : bool :=
  (flt tx ty && flt tx tz) || (flt ty tx && flt ty tz) ||
  (flt tz tx && flt tz ty).

(** No iteration of the implemented walk meets a tie for the smallest
    [tMax]. *)
Fixpoint walk_untied (su : RaySetup) (g : UniformGrid) (d : float)
    (fuel : nat) (st : RayState) : bool :=
  if flt (currentT st) d then
    match fuel with
    | O => true
    | S fuel' =>
        strict_min (tMaxX st) (tMaxY st) (tMaxZ st) &&
        (let st' := advance su st in
         if fge (currentT st') d then true
         else if negb (IsValidIndex g (ray_ix st') (ray_iy st') (ray_iz st'))
         then true
         else walk_untied su g d fuel' (collect g st'))
    end
  else true.

Definition QueryRay_untied (g : UniformGrid) (ray : Ray.t) (maxDistance : float)
  : bool :=
  if flt (Vector3LengthSqr (Ray.direction ray)) f0_0001 then true
  else
    let '(su, st) := ray_setup g ray in
    walk_untied su g maxDistance (ray_fuel g) st.

(** Valid coordinates, as a proposition. *)
Definition valid_cell (g : UniformGrid) (c : Vector3Int.t) : Prop :=
  0 <= Vector3Int.x c < gridDimX g /\ 0 <= Vector3Int.y c < gridDimY g /\
  0 <= Vector3Int.z c < gridDimZ g.

(** The linear id of a coordinate triple. *)
Definition cell_id (g : UniformGrid) (c : Vector3Int.t) : Z :=
  Get1DIndex g (Vector3Int.x c) (Vector3Int.y c) (Vector3Int.z c).

(** [c] is in the 3 x 3 x 3 block centred on [c0]. *)
Definition cell_near (c0 c : Vector3Int.t) : Prop :=
  -1 <= Vector3Int.x c - Vector3Int.x c0 <= 1 /\
  -1 <= Vector3Int.y c - Vector3Int.y c0 <= 1 /\
  -1 <= Vector3Int.z c - Vector3Int.z c0 <= 1.

(** The coordinates that [Get1DIndex] sends to [k]. *)
Definition cell_of_id (g : UniformGrid) (k : Z) : Vector3Int.t :=
  Vector3Int.mk (k mod gridDimX g)
                ((k / gridDimX g) mod gridDimY g)
                (k / (gridDimX g * gridDimY g)).

(** The clamped cell range [Add] walks for an instance. *)
Definition box_lo (g : UniformGrid) (a : Asteroid.t) : Vector3Int.t :=
  GetCellIndices g (BoundingBox.min (worldBounds a)).
Definition box_hi (g : UniformGrid) (a : Asteroid.t) : Vector3Int.t :=
  GetCellIndices g (BoundingBox.max (worldBounds a)).

(** [w] is the stored index of an active member of [objs] whose cell range
    contains a cell satisfying [P]. *)
Definition stored_for (g : UniformGrid) (objs : list Asteroid.t)
    (P : Vector3Int.t -> Prop) (w : Z) : Prop :=
  exists n a c, nth_error objs n = Some a /\ Asteroid.isActive a = true /\
                w = wrap32 (Z.of_nat n) /\
                cell_between (box_lo g a) c (box_hi g a) /\ P c.

(** The offset (dx,dy,dz) from [c] leads to a valid, allocated cell that
    stores [w]: what one iteration of [Query] adds. *)
Definition query_hit (g : UniformGrid) (c : Vector3Int.t) (dz dy dx : Z)
    (w : Z) : Prop :=
  IsValidIndex g (iadd (Vector3Int.x c) dx) (iadd (Vector3Int.y c) dy)
                 (iadd (Vector3Int.z c) dz) = true /\
  cell_in_range (gridCells g)
    (Get1DIndex g (iadd (Vector3Int.x c) dx) (iadd (Vector3Int.y c) dy)
                  (iadd (Vector3Int.z c) dz)) = true /\
  In w (cell_at (gridCells g)
          (Get1DIndex g (iadd (Vector3Int.x c) dx) (iadd (Vector3Int.y c) dy)
                        (iadd (Vector3Int.z c) dz))).

(** The cells an [Add] can reach, as a property of the cell position [j]. *)
Definition reached_by (g : UniformGrid) (lo hi : Vector3Int.t) (j : nat)
  : Prop :=
  exists c, cell_between lo c hi /\ valid_cell g c /\
            0 <= cell_id g c /\ j = Z.to_nat (cell_id g c).

(** An order-preserving key for the floats that are not NaN: sign class,
    then exponent, then mantissa, the last two negated for negative
    values.  [SFcompare] is the lexicographic comparison of the keys. *)
Definition fkey (x : float) : Z * Z * Z :=
  match x with
  | S754_zero _ => (0, 0, 0)
  | S754_infinity false => (2, 0, 0)
  | S754_infinity true => (-2, 0, 0)
  | S754_nan => (0, 0, 0)
  | S754_finite false m e => (1, e, Z.pos m)
  | S754_finite true m e => (-1, - e, Z.neg m)
  end.

Definition is_nan (x : float) : bool :=
  match x with S754_nan => true | _ => false end.

Definition key_lt (a b : Z * Z * Z) : Prop :=
  let '(a1, a2, a3) := a in
  let '(b1, b2, b3) := b in
  a1 < b1 \/ (a1 = b1 /\ (a2 < b2 \/ (a2 = b2 /\ a3 < b3))).

(* ------------------------------------------------------------------ *)
(** ** The score (score_system.cpp) *)

(** The state is the static [currentScore]. *)
Definition InitializeScore (currentScore : Z) : Z := 0.

Definition AddScore (points : Z) (currentScore : Z) : Z :=
  if 0 <? points then iadd currentScore points else currentScore.

Definition GetScore (currentScore : Z) : Z := currentScore.

(** The sum of the positive members of a list. *)
Fixpoint sum_positive (ps : list Z) : Z :=
  match ps with
  | [] => 0
  | p :: rest => (if 0 <? p then p else 0) + sum_positive rest
  end.

(* ------------------------------------------------------------------ *)
(** ** The C library's [rand] *)

(** [rand()] hands out the values of a sequence in order; [RAND_MAX] is the
    library's bound. *)
Record Rng : Type := mkRng {
  RAND_MAX : Z;
  rand_seq : nat -> Z;
  rand_used : nat
}.

Definition rand (r : Rng) : Z * Rng :=
  (rand_seq r (rand_used r),
   mkRng (RAND_MAX r) (rand_seq r) (S (rand_used r))).

(** What the C standard promises of [rand]. *)
Definition rng_ok (r : Rng) : Prop :=
  forall n, 0 <= rand_seq r n <= RAND_MAX r.

(** asteroid_field.cpp: [GetRandomFloat]. *)
Definition GetRandomFloat (min max : float) (r : Rng) : float * Rng :=
  if fle max min then (min, r)
  else
    let '(v, r') := rand r in
    (fadd min (fdiv (float_of_int v)
                    (fdiv (float_of_int (RAND_MAX r)) (fsub max min))),
     r').

(** [0.5f + (float)(rand() % 100) / 100.0f], as a function of the value
    [rand()] returned. *)
Definition half_to_one_and_half (v : Z) : float :=
  fadd f0_5 (fdiv (float_of_int (Z.rem v 100)) (float_of_int 100)).

(* ------------------------------------------------------------------ *)
(** ** raymath, continued *)

Definition fsqrt : float -> float := SFsqrt prec emax.

Definition Vector3Add (v1 v2 : Vector3.t) : Vector3.t :=
  Vector3.mk (fadd (Vector3.x v1) (Vector3.x v2))
             (fadd (Vector3.y v1) (Vector3.y v2))
             (fadd (Vector3.z v1) (Vector3.z v2)).

Definition Vector3Scale (v : Vector3.t) (scalar : float) : Vector3.t :=
  Vector3.mk (fmul (Vector3.x v) scalar) (fmul (Vector3.y v) scalar)
             (fmul (Vector3.z v) scalar).

(** [length = sqrtf(x*x + y*y + z*z); if (length != 0.0f) v *= 1.0f/length] *)
Definition Vector3Normalize (v : Vector3.t) : Vector3.t :=
  let length := fsqrt (Vector3LengthSqr v) in
  if negb (SFeqb length f0) then
    let ilength := fdiv f1 length in
    Vector3.mk (fmul (Vector3.x v) ilength) (fmul (Vector3.y v) ilength)
               (fmul (Vector3.z v) ilength)
  else v.

(* ------------------------------------------------------------------ *)
(** ** The particle pool (particle_system.cpp) *)

Module Color.
Record t : Type := mk { r : Z; g : Z; b : Z; a : Z }.
End Color.

Module Particle.
Record t : Type := mk {
  position : Vector3.t;
  velocity : Vector3.t;
  color : Color.t;
  lifeTime : float;
  isActive : bool
}.
End Particle.

Definition MAX_PARTICLES : Z := 500.

(** The two statics of the module. *)
Record ParticleSystem : Type := mkParticles {
  particles : list Particle.t;
  nextParticleIndex : Z
}.

(** A value-initialised [Particle]. *)
Definition zero_particle : Particle.t :=
  Particle.mk (Vector3.mk f0 f0 f0) (Vector3.mk f0 f0 f0)
              (Color.mk 0 0 0 0) f0 false.

(** [static std::vector<Particle> particles(MAX_PARTICLES)],
    [nextParticleIndex = 0]. *)
Definition particles_at_start : ParticleSystem :=
  mkParticles (repeat zero_particle (Z.to_nat MAX_PARTICLES)) 0.

(** [for (int i = 0; i < n; ++i) body(pool[i])]. *)
Fixpoint for_each_below (n : nat) (body : Particle.t -> Particle.t)
    (pool : list Particle.t) : list Particle.t :=
  match n, pool with
  | S n', p :: rest => body p :: for_each_below n' body rest
  | _, _ => pool
  end.

(** [pool[k] = p]; the index is inside the pool wherever the code writes
    (see [pool_invariant]). *)
Fixpoint store_at (k : nat) (p : Particle.t) (pool : list Particle.t)
    {struct pool} : list Particle.t :=
  match pool with
  | [] => []
  | q :: rest =>
      match k with
      | O => p :: rest
      | S k' => q :: store_at k' p rest
      end
  end.

Definition InitializeParticles (s : ParticleSystem) : ParticleSystem :=
  mkParticles
    (for_each_below (Z.to_nat MAX_PARTICLES)
       (fun p => Particle.mk (Particle.position p) (Particle.velocity p)
                             (Particle.color p) (Particle.lifeTime p) false)
       (particles s))
    0.

(** The body of the loop of [UpdateParticles]. *)
Definition update_particle (deltaTime : float) (p : Particle.t) : Particle.t :=
  if Particle.isActive p then
    let lifeTime := fsub (Particle.lifeTime p) deltaTime in
    if fle lifeTime f0
    then Particle.mk (Particle.position p) (Particle.velocity p)
                     (Particle.color p) lifeTime false
    else Particle.mk (Vector3Add (Particle.position p)
                                 (Vector3Scale (Particle.velocity p) deltaTime))
                     (Particle.velocity p) (Particle.color p) lifeTime true
  else p.

Definition UpdateParticles (deltaTime : float) (s : ParticleSystem)
  : ParticleSystem :=
  mkParticles
    (for_each_below (Z.to_nat MAX_PARTICLES) (update_particle deltaTime)
       (particles s))
    (nextParticleIndex s).

(** [DrawParticles]: the [DrawSphere] calls it makes, in order, as
    (centre, radius, colour). *)
Definition f0_05 : float := fdiv (float_of_int 1) (float_of_int 20). (* 0.05f *)
Definition f0_001 : float := fdiv (float_of_int 1) (float_of_int 1000). (* 0.001f *)

Definition DrawParticles (s : ParticleSystem)
  : list (Vector3.t * float * Color.t) :=
  map (fun p => (Particle.position p, f0_05, Particle.color p))
      (filter Particle.isActive
              (firstn (Z.to_nat MAX_PARTICLES) (particles s))).

(** One iteration of the loop of [EmitParticles]. *)
Definition emit_one (position : Vector3.t) (speed duration : float)
    (color : Color.t) (s : ParticleSystem) (r : Rng) : ParticleSystem * Rng :=
  let pIndex := nextParticleIndex s in
  let '(v1, r1) := rand r in
  let lifeTime := fmul duration (half_to_one_and_half v1) in
  let '(vx, r2) := GetRandomFloat (float_of_int (-1)) f1 r1 in
  let '(vy, r3) := GetRandomFloat (float_of_int (-1)) f1 r2 in
  let '(vz, r4) := GetRandomFloat (float_of_int (-1)) f1 r3 in
  let velocity0 := Vector3.mk vx vy vz in
  let velocity :=
    if flt (Vector3LengthSqr velocity0) f0_001
    then Vector3.mk f1 f0 f0 else velocity0 in
  let '(v2, r5) := rand r4 in
  let speedVariation := half_to_one_and_half v2 in
  let p := Particle.mk position
             (Vector3Scale (Vector3Normalize velocity)
                           (fmul speed speedVariation))
             color lifeTime true in
  let next := iadd (nextParticleIndex s) 1 in
  (mkParticles (store_at (Z.to_nat pIndex) p (particles s))
               (if MAX_PARTICLES <=? next then 0 else next),
   r5).

Fixpoint emit_loop (n : nat) (position : Vector3.t) (speed duration : float)
    (color : Color.t) (s : ParticleSystem) (r : Rng) : ParticleSystem * Rng :=
  match n with
  | O => (s, r)
  | S n' =>
      let '(s', r') := emit_one position speed duration color s r in
      emit_loop n' position speed duration color s' r'
  end.

(** [for (int i = 0; i < count; ++i)]: [count] iterations, none when
    [count <= 0]. *)
Definition EmitParticles (position : Vector3.t) (count : Z)
    (speed duration : float) (color : Color.t)
    (s : ParticleSystem) (r : Rng) : ParticleSystem * Rng :=
  emit_loop (Z.to_nat count) position speed duration color s r.

(** The pool keeps its size and the ring index stays inside it. *)
Definition pool_invariant (s : ParticleSystem) : Prop :=
  length (particles s) = Z.to_nat MAX_PARTICLES /\
  0 <= nextParticleIndex s < MAX_PARTICLES.

(** How many emissions after the one at [next] reach slot [k]. *)
Definition ring_distance (next k : Z) : Z :=
  if next <=? k then k - next else k - next + MAX_PARTICLES.

(** The particle in slot [k]. *)
Definition particle_at (s : ParticleSystem) (k : Z) : Particle.t :=
  nth (Z.to_nat k) (particles s) zero_particle.

(** A concrete random sequence (a linear congruence below 2^15). *)
Definition sample_rng : Rng :=
  mkRng 32767 (fun n => (Z.of_nat n * 7919 + 13) mod 32768) 0.

Definition sample_color : Color.t := Color.mk 200 120 40 255.

(* ------------------------------------------------------------------ *)
(** ** The star field (background.h, background.cpp) *)

Definition f1_5 : float := fdiv (float_of_int 3) (float_of_int 2).  (* 1.5f *)

Module Vector2.
Record t : Type := mk { x : float; y : float }.
End Vector2.

Module Star.
Record t : Type :=
  mk { position : Vector2.t; color : Color.t; radius : float }.
End Star.






(** [DrawStars]: the [DrawCircleV] calls it makes, in order. *)
Definition DrawStars (stars : list Star.t)
  : list (Vector2.t * float * Color.t) :=
  map (fun s => (Star.position s, Star.radius s, Star.color s)) stars.



(* ------------------------------------------------------------------ *)
(** ** Click-to-hit: the nearest asteroid along the ray (main.cpp) *)

Module RayCollision.
Record t : Type :=
  mk { hit : bool; distance : float; point : Vector3.t; normal : Vector3.t }.
End RayCollision.

Definition FLT_MAX : float := S754_finite false 16777215 104.
Definition HIT_MAX_DISTANCE : float := float_of_int 50.

(** [RayCollision closestHit = {0}; closestHit.hit = false;
    closestHit.distance = FLT_MAX;]. *)
Definition no_hit : RayCollision.t :=
  RayCollision.mk false FLT_MAX (Vector3.mk f0 f0 f0) (Vector3.mk f0 f0 f0).

Section ClickToHit.

(** raylib's ray-sphere test. *)
Variable GetRayCollisionSphere : Ray.t -> Vector3.t -> float -> RayCollision.t.

(** The body of the loop over [potentialHitIndices]; the state is
    [(closestHit, closestAsteroidIndex)]. *)
Definition hit_step (actionRay : Ray.t) (asteroids : list Asteroid.t)
    (acc : RayCollision.t * Z) (index : Z) : RayCollision.t * Z :=
  if (index <? 0) || (Z.of_nat (length asteroids) <=? index) then acc
  else
    match nth_error asteroids (Z.to_nat index) with
    | None => acc
    | Some ast =>
        if negb (Asteroid.isActive ast) then acc
        else
          let hitInfo :=
            GetRayCollisionSphere actionRay (Asteroid.position ast)
                                  (Asteroid.collisionRadius ast) in
          if RayCollision.hit hitInfo
             && flt (RayCollision.distance hitInfo)
                    (RayCollision.distance (fst acc))
             && fle (RayCollision.distance hitInfo) HIT_MAX_DISTANCE
          then (hitInfo, index)
          else acc
    end.

Definition closest_hit (actionRay : Ray.t) (asteroids : list Asteroid.t)
    (potentialHitIndices : list Z) : RayCollision.t * Z :=
  fold_left (hit_step actionRay asteroids) potentialHitIndices (no_hit, -1).

(** Candidate [index] names an active asteroid that the ray hits, with
    collision record [h], no farther than [HIT_MAX_DISTANCE]. *)
Definition click_hits (actionRay : Ray.t) (asteroids : list Asteroid.t)
    (index : Z) (h : RayCollision.t) : Prop :=
  0 <= index /\
  exists ast,
    nth_error asteroids (Z.to_nat index) = Some ast /\
    Asteroid.isActive ast = true /\
    h = GetRayCollisionSphere actionRay (Asteroid.position ast)
                              (Asteroid.collisionRadius ast) /\
    RayCollision.hit h = true /\
    fle (RayCollision.distance h) HIT_MAX_DISTANCE = true.

(** What the loop has established after the candidates [seen]. *)
Definition hit_invariant (actionRay : Ray.t) (asteroids : list Asteroid.t)
    (seen : list Z) (acc : RayCollision.t * Z) : Prop :=
  (snd acc = -1 /\ fst acc = no_hit /\
   forall c h, In c seen -> ~ click_hits actionRay asteroids c h) \/
  (In (snd acc) seen /\
   click_hits actionRay asteroids (snd acc) (fst acc) /\
   forall c h, In c seen -> click_hits actionRay asteroids c h ->
               flt (RayCollision.distance h)
                   (RayCollision.distance (fst acc)) = false).

End ClickToHit.

(* ------------------------------------------------------------------ *)
(** ** Rounding, as the proofs read it *)

(** [fexp] at binary32: the exponent of the last kept bit of a number of
    magnitude [z]. *)
Definition fexp32 (z : Z) : Z := Z.max (z - 24) (-149).

(** The mantissa [n / d] cut to an integer, with the round bit (the
    remainder is at least half of [d]) and the sticky bit (something lies
    beyond the round bit). *)
Definition rec_of (n d : Z) : shr_record :=
  {| shr_m := n / d;
     shr_r := d <=? 2 * (n mod d);
     shr_s := negb (n mod d =? 0) && negb (2 * (n mod d) =? d) |}.

(** Round to nearest, ties to even, on such a record. *)
Definition rne (R : shr_record) : Z :=
  round_nearest_even (shr_m R) (loc_of_shr_record R).

(** The second half of [binary_round_aux]: renormalise the rounded
    mantissa and build the float. *)
Definition finish (s : bool) (m e : Z) : float :=
  let '(mrs, e') := shr_fexp prec emax m e loc_Exact in
  match shr_m mrs with
  | Z0 => S754_zero s
  | Zpos p => if e' <=? emax - prec then S754_finite s p e'
              else S754_infinity s
  | Zneg _ => S754_nan
  end.

(** The exponent at which the number [n / d * 2^e] is rounded. *)
Definition target (n d e : Z) : Z := fexp32 (Zdigits2 (n / d) + e).

(** The binary32 float nearest to [(-1)^s * n / d * 2^e]. *)
Definition rnd (s : bool) (n d e : Z) : float :=
  finish s (rne (rec_of n (2 ^ (target n d e - e) * d))) (target n d e).

(** The float with mantissa [m] (at most 2^24) and exponent [e]. *)
Definition pack (s : bool) (m e : Z) : float :=
  if m =? 0 then S754_zero s
  else if m <? 2 ^ 24
       then (if e <=? 104 then S754_finite s (Z.to_pos m) e
             else S754_infinity s)
       else (if e + 1 <=? 104 then S754_finite s (Z.to_pos (2 ^ 23)) (e + 1)
             else S754_infinity s).

(** The representation [n / d * 2^e] is fine enough to be rounded: its
    exponent is not above the one the result will have. *)
Definition pre (n d e : Z) : Prop := e <= target n d e.

(** [x] is a binary32 value: a zero, an infinity, a NaN, or a finite number
    in normalised form.  Every C++ [float] is one; the type [float] of this
    file also holds unnormalised mantissa-exponent pairs. *)
Definition binary32 (x : float) : Prop := valid_binary prec emax x = true.

Definition binary32_vec (v : Vector3.t) : Prop :=
  binary32 (Vector3.x v) /\ binary32 (Vector3.y v) /\ binary32 (Vector3.z v).

(** The value of a finite float, in units of 2^-149. *)
Definition ival (x : float) : Z :=
  match x with
  | S754_finite s m e => signed_mantissa s m * 2 ^ (e + 149)
  | _ => 0
  end.

(** The binary32 float nearest to [V * 2^-149]. *)
Definition rint (V : Z) : float :=
  match V with
  | Z0 => S754_zero false
  | Zpos p => rnd false (Zpos p) 1 (-149)
  | Zneg p => rnd true (Zpos p) 1 (-149)
  end.

(** Equal as numbers (the two zeros are). *)
Definition fequiv (a b : float) : Prop := fle a b = true /\ fle b a = true.

(** The integer [(int)x] truncates a finite [x] to, and when the
    conversion is defined: the truncation is within [int]. *)
Definition ftrunc (s : bool) (m : positive) (e : Z) : Z :=
  if 0 <=? e then Z.shiftl (signed_mantissa s m) e
  else Z.quot (signed_mantissa s m) (2 ^ (- e)).

Definition int_defined (x : float) : bool :=
  match x with
  | S754_zero _ => true
  | S754_finite s m e =>
      (INT_MIN <=? ftrunc s m e) && (ftrunc s m e <=? INT_MAX)
  | _ => false
  end.

Definition in_int (t : Z) : bool := (INT_MIN <=? t) && (t <=? INT_MAX).

(** The floor of the value of a finite float. *)
Definition ifloor (x : float) : Z := ival x / 2 ^ 149.

(** One coordinate of [GetCellIndices]. *)
Definition axis_cell (lo size : float) (dim : Z) (x : float) : Z :=
  clamp_index (float_to_int (floorf (fdiv (fsub x lo) size))) dim.

(** The three conversions to [int] that [GetCellIndices g p] makes are
    defined in C++: each scaled, floored coordinate is a number within
    [int]. *)
Definition cell_defined (g : UniformGrid) (p : Vector3.t) : Prop :=
  let relativePos := Vector3Subtract p (gridMinBounds g) in
  int_defined (floorf (fdiv (Vector3.x relativePos)
                            (Vector3.x (gridCellSize g)))) = true /\
  int_defined (floorf (fdiv (Vector3.y relativePos)
                            (Vector3.y (gridCellSize g)))) = true /\
  int_defined (floorf (fdiv (Vector3.z relativePos)
                            (Vector3.z (gridCellSize g)))) = true.

(* ================================================================== *)
(** * Proofs *)

(** ** Integers *)

Ltac int_consts :=
  unfold INT_MIN, INT_MAX in *;
  change (2 ^ 31) with 2147483648 in *;
  change (2 ^ 32) with 4294967296 in *.

Lemma wrap32_small (z : Z) : INT_MIN <= z <= INT_MAX -> wrap32 z = z.
Proof.
  unfold wrap32; int_consts; intros H.
  rewrite Z.mod_small by lia. lia.
Qed.

Lemma wrap32_range (z : Z) : INT_MIN <= wrap32 z <= INT_MAX.
Proof.
  unfold wrap32; int_consts.
  pose proof (Z.mod_pos_bound (z + 2147483648) 4294967296 ltac:(lia)). lia.
Qed.

Lemma float_to_int_range (x : float) : INT_MIN <= float_to_int x <= INT_MAX.
Proof.
  destruct x as [s | s | | s m e]; simpl; try (int_consts; lia).
  match goal with |- context [if ?c then _ else _] => destruct c eqn:E end.
  - apply andb_true_iff in E. destruct E as [E1 E2].
    apply Z.leb_le in E1, E2. lia.
  - int_consts; lia.
Qed.

Lemma grid_dim_range (extent cell : float) :
  1 <= grid_dim extent cell <= INT_MAX.
Proof.
  unfold grid_dim.
  pose proof (float_to_int_range (ceilf (fdiv extent cell))) as H.
  destruct (Z.leb_spec (float_to_int (ceilf (fdiv extent cell))) 0);
    int_consts; lia.
Qed.

Lemma clamp_index_range (i dim : Z) :
  1 <= dim <= INT_MAX -> 0 <= clamp_index i dim < dim.
Proof.
  intros H. unfold clamp_index, isub.
  rewrite wrap32_small by (int_consts; lia). lia.
Qed.

Lemma in_int_range (lo hi k : Z) : In k (int_range lo hi) <-> lo <= k <= hi.
Proof.
  unfold int_range. rewrite in_map_iff. split.
  - intros [n [<- Hn]]. apply in_seq in Hn. lia.
  - intros H. exists (Z.to_nat (k - lo)). split; [lia|].
    apply in_seq. lia.
Qed.

Lemma IsValidIndex_spec (g : UniformGrid) (ix iy iz : Z) :
  IsValidIndex g ix iy iz = true <->
  0 <= ix < gridDimX g /\ 0 <= iy < gridDimY g /\ 0 <= iz < gridDimZ g.
Proof.
  unfold IsValidIndex.
  rewrite !andb_true_iff, !Z.leb_le, !Z.ltb_lt. tauto.
Qed.

(** Without overflow the linear id is the textbook formula and addresses an
    allocated cell. *)
Lemma Get1DIndex_exact (g : UniformGrid) (ix iy iz : Z) :
  grid_wf g -> cells_fit g -> IsValidIndex g ix iy iz = true ->
  Get1DIndex g ix iy iz = ix + iy * gridDimX g + iz * gridDimX g * gridDimY g
  /\ 0 <= Get1DIndex g ix iy iz < gridDimX g * gridDimY g * gridDimZ g.
Proof.
  intros W F V. apply IsValidIndex_spec in V.
  destruct V as [Hx [Hy Hz]].
  destruct W as [Wx Wy Wz _ _ _]. unfold cells_fit in F.
  assert (Hxy : 0 <= iy * gridDimX g <= gridDimX g * gridDimY g - gridDimX g) by nia.
  assert (Hzz : 0 <= iz * gridDimX g * gridDimY g
                <= gridDimX g * gridDimY g * gridDimZ g - gridDimX g * gridDimY g)
    by nia.
  assert (Hp : 0 < gridDimX g * gridDimY g) by nia.
  assert (Hzx : 0 <= iz * gridDimX g <= gridDimX g * gridDimZ g) by nia.
  assert (Hxz : gridDimX g * gridDimZ g <= gridDimX g * gridDimY g * gridDimZ g) by nia.
  unfold Get1DIndex, iadd, imul.
  rewrite (wrap32_small (iy * gridDimX g)) by (int_consts; lia).
  rewrite (wrap32_small (iz * gridDimX g)) by (int_consts; lia).
  rewrite (wrap32_small (iz * gridDimX g * gridDimY g)) by (int_consts; lia).
  rewrite (wrap32_small (ix + iy * gridDimX g)) by (int_consts; lia).
  rewrite wrap32_small by (int_consts; lia).
  split; [reflexivity | lia].
Qed.

Lemma totalCells_exact (g : UniformGrid) :
  grid_wf g -> cells_fit g ->
  totalCells g = gridDimX g * gridDimY g * gridDimZ g.
Proof.
  intros [Wx Wy Wz Wt _ _] F. unfold cells_fit in F.
  rewrite Wt. unfold imul.
  assert (0 < gridDimX g * gridDimY g <= gridDimX g * gridDimY g * gridDimZ g)
    by nia.
  rewrite (wrap32_small (gridDimX g * gridDimY g)) by (int_consts; lia).
  apply wrap32_small. int_consts; lia.
Qed.

Lemma size_as_int (g : UniformGrid) :
  grid_wf g -> wrap32 (Z.of_nat (length (gridCells g))) = totalCells g.
Proof.
  intros W. rewrite (wf_size g W), Z2Nat.id by apply (wf_total_nonneg g W).
  rewrite (wf_total g W). unfold imul.
  apply wrap32_small, wrap32_range.
Qed.

(** ** The cell vector *)

Lemma clear_cells_length (n : nat) (cells : list (list Z)) :
  length (clear_cells n cells) = length cells.
Proof.
  revert cells; induction n as [|n IH]; intros [|c rest]; simpl; auto.
Qed.

Lemma clear_cells_empty (n : nat) (cells : list (list Z)) (k : nat) :
  (length cells <= n)%nat -> nth k (clear_cells n cells) [] = [].
Proof.
  revert cells k; induction n as [|n IH]; intros [|c rest] k H; simpl in *;
    try (destruct k; reflexivity); try lia.
  destruct k; [reflexivity|]. apply IH. lia.
Qed.

Lemma push_back_at_length (k : nat) (v : Z) (cells : list (list Z)) :
  length (push_back_at k v cells) = length cells.
Proof.
  revert k; induction cells as [|c rest IH]; intros [|k]; simpl; auto.
Qed.

Lemma push_back_at_nth (k : nat) (v : Z) (cells : list (list Z)) (j : nat) (w : Z) :
  In w (nth j (push_back_at k v cells) []) <->
  In w (nth j cells []) \/ (j = k /\ (k < length cells)%nat /\ w = v).
Proof.
  revert k j; induction cells as [|c rest IH]; intros k j.
  - simpl. destruct j; simpl; intuition lia.
  - destruct k as [|k], j as [|j]; simpl.
    + rewrite in_app_iff; simpl. intuition (subst; auto; lia).
    + intuition discriminate.
    + intuition discriminate.
    + rewrite IH. intuition (try congruence; lia).
Qed.

Lemma add_to_cell_length g idx iz iy ix cells :
  length (add_to_cell g idx iz iy ix cells) = length cells.
Proof.
  unfold add_to_cell.
  destruct (IsValidIndex g ix iy iz); [|reflexivity].
  destruct (cell_in_range cells _); [|reflexivity].
  apply push_back_at_length.
Qed.

(** A cell only ever gains the index being added. *)
Lemma add_to_cell_nth g idx iz iy ix cells j w :
  In w (nth j (add_to_cell g idx iz iy ix cells) []) ->
  In w (nth j cells []) \/ w = idx.
Proof.
  unfold add_to_cell.
  destruct (IsValidIndex g ix iy iz); [|tauto].
  destruct (cell_in_range cells _); [|tauto].
  rewrite push_back_at_nth. tauto.
Qed.

Lemma add_to_cell_keeps g idx iz iy ix cells j w :
  In w (nth j cells []) -> In w (nth j (add_to_cell g idx iz iy ix cells) []).
Proof.
  unfold add_to_cell. intros H.
  destruct (IsValidIndex g ix iy iz); [|assumption].
  destruct (cell_in_range cells _); [|assumption].
  rewrite push_back_at_nth. tauto.
Qed.

(** Loops as [fold_left]: invariants of the loop body. *)
Section Loops.
  Context {A B : Type} (f : A -> B -> A).

(** A property every step keeps is kept by the loop. *)
Lemma fold_left_keeps (P : A -> Prop) :
  (forall a b, P a -> P (f a b)) ->
  forall l a, P a -> P (fold_left f l a).
Proof.
  intros Hf l; induction l as [|b l IH]; simpl; intros a Ha; auto.
Qed.

(** A property that one iteration establishes and the others keep holds after
    the loop; [I] is what the establishing iteration needs. *)
Lemma fold_left_reaches (I Q : A -> Prop) (b0 : B) :
  (forall a b, I a -> I (f a b)) ->
  (forall a b, Q a -> Q (f a b)) ->
  (forall a, I a -> Q (f a b0)) ->
  forall l a, In b0 l -> I a -> Q (fold_left f l a).
Proof.
  intros HI HQ H0 l; induction l as [|b l IH]; simpl; intros a Hin Ha.
  - contradiction.
  - destruct Hin as [->|Hin].
    + apply fold_left_keeps; auto.
    + apply IH; auto.
Qed.

End Loops.

Lemma add_cells_length g idx lo hi cells :
  length (add_cells g idx lo hi cells) = length cells.
Proof.
  unfold add_cells.
  apply (fold_left_keeps _ (fun c => length c = length cells)); [|reflexivity].
  intros a iz Ha.
  apply (fold_left_keeps _ (fun c => length c = length cells)); [|assumption].
  intros a' iy Ha'.
  apply (fold_left_keeps _ (fun c => length c = length cells)); [|assumption].
  intros a'' ix Ha''. now rewrite add_to_cell_length.
Qed.

Lemma add_cells_keeps g idx lo hi cells j w :
  In w (nth j cells []) -> In w (nth j (add_cells g idx lo hi cells) []).
Proof.
  unfold add_cells.
  apply (fold_left_keeps _ (fun c => In w (nth j c []))).
  intros a iz.
  apply (fold_left_keeps _ (fun c => In w (nth j c []))).
  intros a' iy.
  apply (fold_left_keeps _ (fun c => In w (nth j c []))).
  intros a'' ix. apply add_to_cell_keeps.
Qed.

Lemma add_cells_nth g idx lo hi cells (R : Z -> Prop) :
  R idx ->
  (forall j w, In w (nth j cells []) -> R w) ->
  forall j w, In w (nth j (add_cells g idx lo hi cells) []) -> R w.
Proof.
  intros Hidx. unfold add_cells.
  apply (fold_left_keeps _ (fun c => forall j w, In w (nth j c []) -> R w)).
  intros a iz.
  apply (fold_left_keeps _ (fun c => forall j w, In w (nth j c []) -> R w)).
  intros a' iy.
  apply (fold_left_keeps _ (fun c => forall j w, In w (nth j c []) -> R w)).
  intros a'' ix Ha j w Hw.
  apply add_to_cell_nth in Hw. destruct Hw as [Hw| ->]; eauto.
Qed.

(** ** The invariant of reachable grids *)

Lemma UniformGrid_new_wf worldMin worldMax cellSize g :
  UniformGrid_new worldMin worldMax cellSize = Some g -> grid_wf g.
Proof.
  unfold UniformGrid_new; cbv zeta.
  match goal with |- context [if ?c then _ else _] => destruct c eqn:E end;
    [discriminate|].
  apply Z.ltb_ge in E.
  intros H; injection H as <-.
  constructor; simpl; auto using grid_dim_range.
  now rewrite repeat_length.
Qed.

Lemma with_cells_wf g cells :
  grid_wf g -> length cells = length (gridCells g) -> grid_wf (with_cells g cells).
Proof.
  intros [Wx Wy Wz Wt Wn Ws] Hl. constructor; simpl; auto. congruence.
Qed.

Lemma Clear_wf g : grid_wf g -> grid_wf (Clear g).
Proof.
  intros W. apply with_cells_wf; [assumption | apply clear_cells_length].
Qed.

Lemma Add_wf g idx box : grid_wf g -> grid_wf (Add g idx box).
Proof.
  intros W. apply with_cells_wf; [assumption | apply add_cells_length].
Qed.

Lemma build_from_wf instances : forall g i,
  grid_wf g -> grid_wf (build_from g i instances).
Proof.
  induction instances as [|a rest IH]; simpl; intros g i W; [assumption|].
  apply IH. destruct (Asteroid.isActive a); auto using Add_wf.
Qed.

Lemma grid_state_wf g : grid_state g -> grid_wf g.
Proof.
  induction 1 as [? ? ? g H | g instances _ IH].
  - eapply UniformGrid_new_wf; eassumption.
  - apply build_from_wf, Clear_wf, IH.
Qed.

(** A rebuild replaces the cell vector and nothing else. *)
Lemma build_from_cells instances : forall g i,
  exists cells, build_from g i instances = with_cells g cells.
Proof.
  induction instances as [|a rest IH]; simpl; intros g i.
  - exists (gridCells g). now destruct g.
  - destruct (Asteroid.isActive a); [|apply IH].
    destruct (IH (Add g (wrap32 (Z.of_nat i)) (worldBounds a)) (S i)) as [c Hc].
    exists c. rewrite Hc. reflexivity.
Qed.

Lemma BuildInstanced_cells g instances :
  exists cells, BuildInstanced g instances = with_cells g cells.
Proof.
  unfold BuildInstanced.
  destruct (build_from_cells instances (Clear g) 0) as [c Hc].
  exists c. rewrite Hc. reflexivity.
Qed.

(** ** What a build stores *)

Lemma build_from_only (objs : list Asteroid.t) : forall rest g i,
  (forall n a, nth_error rest n = Some a -> nth_error objs (i + n) = Some a) ->
  (forall j w, In w (nth j (gridCells g) []) -> from_active objs w) ->
  forall j w, In w (nth j (gridCells (build_from g i rest)) []) ->
              from_active objs w.
Proof.
  induction rest as [|a rest IH]; simpl; intros g i Hsub Hg; [assumption|].
  apply IH.
  - intros n b Hn. replace (S i + n)%nat with (i + S n)%nat by lia.
    apply Hsub. assumption.
  - destruct (Asteroid.isActive a) eqn:Ea; [|assumption].
    simpl. apply add_cells_nth; [|assumption].
    exists i, a. repeat split; auto.
    replace i with (i + 0)%nat at 1 by lia. apply Hsub. reflexivity.
Qed.

Lemma BuildInstanced_only g objs j w :
  grid_wf g ->
  In w (nth j (gridCells (BuildInstanced g objs)) []) -> from_active objs w.
Proof.
  intros W. unfold BuildInstanced. apply build_from_only.
  - intros n a H. exact H.
  - intros j' w' H. simpl in H.
    rewrite clear_cells_empty in H by (rewrite (wf_size g W); lia).
    contradiction.
Qed.

Lemma build_from_keeps rest : forall g i j w,
  In w (nth j (gridCells g) []) ->
  In w (nth j (gridCells (build_from g i rest)) []).
Proof.
  induction rest as [|a rest IH]; simpl; intros g i j w H; [assumption|].
  apply IH. destruct (Asteroid.isActive a); [|assumption].
  simpl. now apply add_cells_keeps.
Qed.

Lemma GetCellIndices_valid g p :
  grid_wf g ->
  0 <= Vector3Int.x (GetCellIndices g p) < gridDimX g /\
  0 <= Vector3Int.y (GetCellIndices g p) < gridDimY g /\
  0 <= Vector3Int.z (GetCellIndices g p) < gridDimZ g.
Proof.
  intros [Wx Wy Wz _ _ _]. unfold GetCellIndices; simpl.
  auto using clamp_index_range.
Qed.

Lemma add_to_cell_reaches g idx iz iy ix cells :
  grid_wf g -> cells_fit g -> IsValidIndex g ix iy iz = true ->
  length cells = length (gridCells g) ->
  In idx (nth (Z.to_nat (Get1DIndex g ix iy iz))
              (add_to_cell g idx iz iy ix cells) []).
Proof.
  intros W F V Hl. unfold add_to_cell. rewrite V.
  destruct (Get1DIndex_exact g ix iy iz W F V) as [_ Hr].
  rewrite <- (totalCells_exact g W F) in Hr.
  unfold cell_in_range. rewrite Hl, (size_as_int g W).
  destruct (Z.leb_spec 0 (Get1DIndex g ix iy iz)); [|lia].
  destruct (Z.ltb_spec (Get1DIndex g ix iy iz) (totalCells g)); [|lia].
  simpl. rewrite push_back_at_nth. right. repeat split.
  rewrite Hl, (wf_size g W). lia.
Qed.

Lemma add_cells_reaches g idx lo hi c cells :
  grid_wf g -> cells_fit g -> cell_between lo c hi ->
  IsValidIndex g (Vector3Int.x c) (Vector3Int.y c) (Vector3Int.z c) = true ->
  length cells = length (gridCells g) ->
  In idx (nth (Z.to_nat (Get1DIndex g (Vector3Int.x c) (Vector3Int.y c)
                                    (Vector3Int.z c)))
              (add_cells g idx lo hi cells) []).
Proof.
  intros W F [Bx [By Bz]] V Hl. unfold add_cells.
  set (K := Z.to_nat _).
  set (I := fun cs : list (list Z) => length cs = length (gridCells g)).
  set (Q := fun cs : list (list Z) => In idx (nth K cs [])).
  assert (Hx : forall iz iy a ix, I a -> I (add_to_cell g idx iz iy ix a)).
  { intros; unfold I in *. now rewrite add_to_cell_length. }
  assert (Hy : forall iz a iy, I a ->
             I (fold_left (fun cs ix => add_to_cell g idx iz iy ix cs)
                          (int_range (Vector3Int.x lo) (Vector3Int.x hi)) a)).
  { intros iz a iy. apply fold_left_keeps. apply Hx. }
  apply (fold_left_reaches _ I Q (Vector3Int.z c)).
  - intros a iz. apply fold_left_keeps. intros; now apply Hy.
  - intros a iz. apply fold_left_keeps. intros a' iy.
    apply fold_left_keeps. intros a'' ix. apply add_to_cell_keeps.
  - intros a Ha.
    apply (fold_left_reaches _ I Q (Vector3Int.y c)).
    + intros; now apply Hy.
    + intros a' iy. apply fold_left_keeps. intros a'' ix.
      apply add_to_cell_keeps.
    + intros a' Ha'.
      apply (fold_left_reaches _ I Q (Vector3Int.x c)).
      * intros; now apply Hx.
      * intros a'' ix. apply add_to_cell_keeps.
      * intros a'' Ha''. now apply add_to_cell_reaches.
      * now apply in_int_range.
      * exact Ha'.
    + now apply in_int_range.
    + exact Ha.
  - now apply in_int_range.
  - exact Hl.
Qed.

Lemma cell_between_valid g p q c :
  grid_wf g -> cell_between (GetCellIndices g p) c (GetCellIndices g q) ->
  IsValidIndex g (Vector3Int.x c) (Vector3Int.y c) (Vector3Int.z c) = true.
Proof.
  intros W [Bx [By Bz]].
  pose proof (GetCellIndices_valid g p W) as [? [? ?]].
  pose proof (GetCellIndices_valid g q W) as [? [? ?]].
  apply IsValidIndex_spec. lia.
Qed.

Lemma build_from_reaches : forall rest g i n a c,
  grid_wf g -> cells_fit g ->
  nth_error rest n = Some a -> Asteroid.isActive a = true ->
  cell_between (GetCellIndices g (BoundingBox.min (worldBounds a))) c
               (GetCellIndices g (BoundingBox.max (worldBounds a))) ->
  In (wrap32 (Z.of_nat (i + n)))
     (nth (Z.to_nat (Get1DIndex g (Vector3Int.x c) (Vector3Int.y c)
                                (Vector3Int.z c)))
          (gridCells (build_from g i rest)) []).
Proof.
  induction rest as [|a0 rest IH]; intros g i n a c W F Hn Ha Hb.
  - destruct n; discriminate.
  - destruct n as [|n]; simpl in Hn.
    + injection Hn as ->. cbn [build_from]. rewrite Ha.
      apply build_from_keeps. cbn [Add gridCells with_cells].
      replace (i + 0)%nat with i by lia.
      apply add_cells_reaches; auto.
      eapply cell_between_valid; eassumption.
    + replace (i + S n)%nat with (S i + n)%nat by lia. cbn [build_from].
      destruct (Asteroid.isActive a0).
      * apply (IH (Add g (wrap32 (Z.of_nat i)) (worldBounds a0)) (S i) n a c);
          auto using Add_wf.
      * apply (IH g (S i) n a c); auto.
Qed.

(** ** Sets of indices *)

Lemma set_insert_In v s w : In w (set_insert v s) <-> w = v \/ In w s.
Proof.
  induction s as [|u s IH]; simpl.
  - intuition.
  - destruct (Z.ltb_spec v u); simpl; [intuition|].
    destruct (Z.eqb_spec v u); simpl; [subst; intuition|].
    rewrite IH. intuition.
Qed.

Lemma set_insert_all_In cell : forall s w,
  In w (set_insert_all cell s) <-> In w cell \/ In w s.
Proof.
  unfold set_insert_all.
  induction cell as [|v cell IH]; simpl; intros s w.
  - intuition.
  - rewrite IH, set_insert_In. intuition.
Qed.

Lemma query_cell_keeps g c dz dy dx acc w :
  In w acc -> In w (query_cell g c dz dy dx acc).
Proof.
  unfold query_cell. intros H.
  destruct (IsValidIndex g _ _ _); [|assumption].
  destruct (cell_in_range _ _); [|assumption].
  apply set_insert_all_In. now right.
Qed.

Lemma query_cell_only g c dz dy dx acc w :
  In w (query_cell g c dz dy dx acc) -> In w acc \/ in_some_cell g w.
Proof.
  unfold query_cell.
  destruct (IsValidIndex g _ _ _); [|tauto].
  destruct (cell_in_range _ _); [|tauto].
  rewrite set_insert_all_In. intros [H|H]; [|tauto].
  right. eexists. exact H.
Qed.

Lemma Query_only g p w : In w (Query g p) -> in_some_cell g w.
Proof.
  unfold Query.
  set (P := fun acc : list Z => In w acc -> in_some_cell g w).
  apply (fold_left_keeps _ P); [|intros []].
  intros a dz. apply (fold_left_keeps _ P).
  intros a' dy. apply (fold_left_keeps _ P).
  intros a'' dx Ha H. unfold P in *.
  apply query_cell_only in H. tauto.
Qed.

Lemma Query_center g p w :
  grid_wf g -> cells_fit g ->
  In w (cell_at (gridCells g)
          (Get1DIndex g (Vector3Int.x (GetCellIndices g p))
                        (Vector3Int.y (GetCellIndices g p))
                        (Vector3Int.z (GetCellIndices g p)))) ->
  In w (Query g p).
Proof.
  intros W F H. unfold Query.
  set (c := GetCellIndices g p) in *.
  set (Q := fun acc : list Z => In w acc).
  assert (Hk : forall dz dy dx a, Q a -> Q (query_cell g c dz dy dx a)).
  { intros. now apply query_cell_keeps. }
  assert (H0 : In 0 (int_range (-1) 1)) by (apply in_int_range; lia).
  apply (fold_left_reaches _ (fun _ => True) Q 0); auto.
  - intros a dz. apply fold_left_keeps. intros a' dy.
    apply fold_left_keeps. intros a'' dx. apply Hk.
  - intros a _.
    apply (fold_left_reaches _ (fun _ => True) Q 0); auto.
    + intros a' dy. apply fold_left_keeps. intros a'' dx. apply Hk.
    + intros a' _.
      apply (fold_left_reaches _ (fun _ => True) Q 0); auto.
      intros a'' _. unfold Q, query_cell.
      pose proof (GetCellIndices_valid g p W) as [Vx [Vy Vz]]. fold c in Vx, Vy, Vz.
      destruct W as [Wx Wy Wz Wt Wn Ws].
      assert (W : grid_wf g) by (constructor; assumption).
      unfold iadd. rewrite !Z.add_0_r, !wrap32_small by (int_consts; lia).
      assert (V : IsValidIndex g (Vector3Int.x c) (Vector3Int.y c)
                               (Vector3Int.z c) = true)
        by (apply IsValidIndex_spec; lia).
      rewrite V.
      destruct (Get1DIndex_exact g _ _ _ W F V) as [_ Hr].
      rewrite <- (totalCells_exact g W F) in Hr.
      unfold cell_in_range. rewrite (size_as_int g W).
      destruct (Z.leb_spec 0 (Get1DIndex g (Vector3Int.x c) (Vector3Int.y c)
                                         (Vector3Int.z c))); [|lia].
      destruct (Z.ltb_spec (Get1DIndex g (Vector3Int.x c) (Vector3Int.y c)
                                       (Vector3Int.z c)) (totalCells g)); [|lia].
      simpl. apply set_insert_all_In. now left.
Qed.

(** ** The ray walk *)

Lemma collect_indices g st :
  ray_ix (collect g st) = ray_ix st /\ ray_iy (collect g st) = ray_iy st /\
  ray_iz (collect g st) = ray_iz st.
Proof.
  unfold collect. destruct (cell_in_range _ _); simpl; auto.
Qed.

Lemma collect_only g st w :
  In w (uniqueIndices (collect g st)) ->
  In w (uniqueIndices st) \/ in_some_cell g w.
Proof.
  unfold collect. destruct (cell_in_range _ _); simpl; [|tauto].
  rewrite set_insert_all_In. intros [H|H]; [|tauto].
  right. eexists. exact H.
Qed.

Lemma advance_along_indices su a st :
  uniqueIndices (advance_along su a st) = uniqueIndices st.
Proof. destruct a; reflexivity. Qed.

(** Whatever the walk returns was in the set at the start or is stored in a
    cell. *)
Lemma ray_walk_only adv g d :
  (forall st, uniqueIndices (adv st) = uniqueIndices st) ->
  forall fuel st r w,
  ray_walk adv g d fuel st = Some r -> In w r ->
  In w (uniqueIndices st) \/ in_some_cell g w.
Proof.
  intros Hadv. induction fuel as [|fuel IH]; intros st r w; simpl.
  - destruct (flt (currentT st) d); [discriminate|].
    intros H; injection H as <-. tauto.
  - destruct (flt (currentT st) d).
    + destruct (fge (currentT (adv st)) d).
      { intros H; injection H as <-. rewrite Hadv. tauto. }
      destruct (negb (IsValidIndex g _ _ _)).
      { intros H; injection H as <-. rewrite Hadv. tauto. }
      intros H Hw. destruct (IH _ _ _ H Hw) as [Hc|Hc]; [|tauto].
      apply collect_only in Hc. rewrite Hadv in Hc. exact Hc.
    + intros H; injection H as <-. tauto.
Qed.

Lemma QueryRay_with_only adv fuel g ray d r w :
  (forall su st, uniqueIndices (adv su st) = uniqueIndices st) ->
  QueryRay_with adv fuel g ray d = Some r -> In w r -> in_some_cell g w.
Proof.
  intros Hadv. unfold QueryRay_with.
  destruct (flt (Vector3LengthSqr (Ray.direction ray)) f0_0001).
  - intros H; injection H as <-. apply Query_only.
  - destruct (ray_setup g ray) as [su st] eqn:E.
    intros H Hw.
    destruct (ray_walk_only (adv su) g d (Hadv su) fuel st r w H Hw) as [Hc|Hc];
      [|assumption].
    unfold ray_setup in E. injection E as _ <-. simpl in Hc.
    destruct (IsValidIndex g _ _ _); [|contradiction].
    destruct (cell_in_range _ _); [|contradiction].
    apply set_insert_all_In in Hc. destruct Hc as [Hc|[]].
    eexists. exact Hc.
Qed.

(** More fuel does not change a result. *)
Lemma ray_walk_more_fuel adv g d : forall fuel fuel' st r,
  (fuel <= fuel')%nat ->
  ray_walk adv g d fuel st = Some r -> ray_walk adv g d fuel' st = Some r.
Proof.
  induction fuel as [|fuel IH]; intros fuel' st r Hle; simpl.
  - destruct (flt (currentT st) d) eqn:E; [discriminate|].
    intros H. destruct fuel'; simpl; rewrite E; exact H.
  - destruct fuel' as [|fuel']; [lia|]. simpl.
    destruct (flt (currentT st) d); [|auto].
    destruct (fge (currentT (adv st)) d); [auto|].
    destruct (negb (IsValidIndex g _ _ _)); [auto|].
    apply IH. lia.
Qed.

Lemma grid_wf_dims g : grid_wf g -> dims_ok g.
Proof. intros [Wx Wy Wz _ _ _]. repeat split; lia. Qed.

Lemma axis_slack_step step dim i :
  1 <= dim <= INT_MAX -> 0 <= i < dim -> step = 1 \/ step = -1 ->
  axis_slack step dim (iadd i step) = axis_slack step dim i - 1 /\
  0 <= axis_slack step dim i.
Proof.
  intros Hd Hi Hs. unfold axis_slack, iadd.
  rewrite wrap32_small by (int_consts; lia).
  destruct Hs as [-> | ->]; simpl; lia.
Qed.

Lemma advance_along_slack g su a st :
  dims_ok g -> unit_steps su ->
  IsValidIndex g (ray_ix st) (ray_iy st) (ray_iz st) = true ->
  ray_slack g su (advance_along su a st) = ray_slack g su st - 1 /\
  0 <= ray_slack g su st.
Proof.
  intros [Dx [Dy Dz]] [Sx [Sy Sz]] V. apply IsValidIndex_spec in V.
  destruct V as [Vx [Vy Vz]].
  pose proof (axis_slack_step _ _ _ Dx Vx Sx) as [Ex Px].
  pose proof (axis_slack_step _ _ _ Dy Vy Sy) as [Ey Py].
  pose proof (axis_slack_step _ _ _ Dz Vz Sz) as [Ez Pz].
  unfold ray_slack. destruct a; simpl; lia.
Qed.

(** Every iteration moves one coordinate one step in its fixed direction, so
    a walk that starts inside the grid leaves it, or stops, within
    [ray_slack + 1] iterations. *)
Lemma ray_walk_terminates adv g su d :
  dims_ok g -> unit_steps su ->
  (forall st, exists a, adv st = advance_along su a st) ->
  forall fuel st,
  IsValidIndex g (ray_ix st) (ray_iy st) (ray_iz st) = true ->
  ray_slack g su st < Z.of_nat fuel ->
  exists r, ray_walk adv g d fuel st = Some r.
Proof.
  intros D S Hadv. induction fuel as [|fuel IH]; intros st V Hf; simpl.
  - destruct (flt (currentT st) d); [|eauto].
    destruct (Hadv st) as [a _].
    pose proof (advance_along_slack g su a st D S V). lia.
  - destruct (flt (currentT st) d); [|eauto].
    destruct (fge (currentT (adv st)) d); [eauto|].
    destruct (IsValidIndex g (ray_ix (adv st)) (ray_iy (adv st))
                           (ray_iz (adv st))) eqn:V'; simpl; [|eauto].
    destruct (Hadv st) as [a Ea].
    pose proof (advance_along_slack g su a st D S V) as [Hs Hp].
    destruct (collect_indices g (adv st)) as [Cx [Cy Cz]].
    apply IH.
    + rewrite Cx, Cy, Cz. exact V'.
    + unfold ray_slack in *. rewrite Cx, Cy, Cz. rewrite Ea. lia.
Qed.

Lemma axis_step_unit dir : axis_step dir = 1 \/ axis_step dir = -1.
Proof. unfold axis_step. destruct (fge dir f0); auto. Qed.

Lemma GetCellIndices_range g p :
  dims_ok g ->
  0 <= Vector3Int.x (GetCellIndices g p) < gridDimX g /\
  0 <= Vector3Int.y (GetCellIndices g p) < gridDimY g /\
  0 <= Vector3Int.z (GetCellIndices g p) < gridDimZ g.
Proof.
  intros [Dx [Dy Dz]]. unfold GetCellIndices; simpl.
  auto using clamp_index_range.
Qed.

Lemma QueryRay_with_terminates adv g ray d fuel :
  dims_ok g ->
  (forall su st, exists a, adv su st = advance_along su a st) ->
  (ray_fuel g <= fuel)%nat ->
  exists r, QueryRay_with adv fuel g ray d = Some r.
Proof.
  intros D Hadv Hfuel. unfold QueryRay_with.
  destruct (flt (Vector3LengthSqr (Ray.direction ray)) f0_0001); [eauto|].
  destruct (ray_setup g ray) as [su st] eqn:E.
  unfold ray_setup in E. injection E as Esu Est.
  pose proof (GetCellIndices_range g (Ray.position ray) D) as [Vx [Vy Vz]].
  unfold GetCellIndices in Vx, Vy, Vz; simpl in Vx, Vy, Vz.
  assert (S : unit_steps su).
  { subst su. repeat split; simpl; apply axis_step_unit. }
  assert (V : IsValidIndex g (ray_ix st) (ray_iy st) (ray_iz st) = true).
  { subst st. simpl. apply IsValidIndex_spec. auto. }
  apply (ray_walk_terminates (adv su) g su d D S (Hadv su)); [exact V|].
  assert (Hsl : ray_slack g su st
                <= (gridDimX g - 1) + (gridDimY g - 1) + (gridDimZ g - 1)).
  { subst st. unfold ray_slack, axis_slack. simpl.
    destruct (0 <? stepX su), (0 <? stepY su), (0 <? stepZ su); lia. }
  unfold ray_fuel in Hfuel. destruct D as [Dx [Dy Dz]]. lia.
Qed.

(** ** Float comparisons and the tie-break *)

Lemma SFcompare_antisym (a b : float) :
  SFcompare b a = option_map CompOpp (SFcompare a b).
Proof.
  destruct a as [sa|sa| |sa ma ea], b as [sb|sb| |sb mb eb]; simpl;
    try reflexivity;
    try (destruct sa; reflexivity); try (destruct sb; reflexivity);
    try (destruct sa, sb; reflexivity).
  destruct sa, sb; simpl; try reflexivity;
    rewrite (Z.compare_antisym ea eb);
    destruct (ea ?= eb); simpl; try reflexivity;
    pose proof (Pos.compare_cont_antisym ma mb Eq) as H; simpl in H;
    rewrite <- H; destruct (Pos.compare_cont Eq ma mb); reflexivity.
Qed.

Lemma flt_fle a b : flt a b = true -> fle a b = true.
Proof.
  unfold flt, fle, SFltb, SFleb.
  destruct (SFcompare a b) as [[| |]|]; congruence.
Qed.

Lemma flt_not_fle a b : flt a b = true -> fle b a = false.
Proof.
  unfold flt, fle, SFltb, SFleb. rewrite (SFcompare_antisym a b).
  destruct (SFcompare a b) as [[| |]|]; simpl; congruence.
Qed.

Lemma flt_not_flt a b : flt a b = true -> flt b a = false.
Proof.
  unfold flt, SFltb. rewrite (SFcompare_antisym a b).
  destruct (SFcompare a b) as [[| |]|]; simpl; congruence.
Qed.

Lemma next_axis_untied tx ty tz :
  strict_min tx ty tz = true -> next_axis_xyz tx ty tz = next_axis tx ty tz.
Proof.
  unfold strict_min, next_axis, next_axis_xyz.
  rewrite !orb_true_iff, !andb_true_iff.
  intros [[[H1 H2]|[H1 H2]]|[H1 H2]].
  - rewrite H1, H2, (flt_fle _ _ H1), (flt_fle _ _ H2). reflexivity.
  - rewrite (flt_not_flt _ _ H1), (flt_not_fle _ _ H1), H2, (flt_fle _ _ H2).
    reflexivity.
  - rewrite (flt_not_flt _ _ H1), (flt_not_flt _ _ H2),
            (flt_not_fle _ _ H1), (flt_not_fle _ _ H2).
    rewrite andb_false_r. destruct (flt tx ty); reflexivity.
Qed.

Lemma SFcompare_eq_l (a b c : float) :
  SFcompare a b = Some Eq -> SFcompare a c = SFcompare b c.
Proof.
  destruct a as [sa|sa| |sa ma ea], b as [sb|sb| |sb mb eb]; simpl;
    try discriminate;
    try (destruct sa; discriminate); try (destruct sb; discriminate).
  - reflexivity.
  - destruct sa, sb; try discriminate; reflexivity.
  - destruct sa, sb; try discriminate;
      destruct (Z.compare_spec ea eb) as [He|He|He]; try discriminate;
      intros H; injection H as H; subst eb.
    + destruct (Pos.compare_cont Eq ma mb) eqn:E; try discriminate.
      apply Pos.compare_eq in E. now subst mb.
    + apply Pos.compare_eq in H. now subst mb.
Qed.

Lemma feq_not_flt a b : feq a b = true -> flt a b = false.
Proof.
  unfold feq, flt, SFeqb, SFltb.
  destruct (SFcompare a b) as [[| |]|]; congruence.
Qed.

Lemma feq_flt_l a b c : feq a b = true -> flt a c = flt b c.
Proof.
  unfold feq, flt, SFeqb, SFltb. intros H.
  rewrite (SFcompare_eq_l a b c); [reflexivity|].
  destruct (SFcompare a b) as [[| |]|]; congruence.
Qed.

(** The tie-break of the implemented comparisons: among equal smallest
    [tMax] values, z is advanced before y, and y before x. *)
Lemma next_axis_on_ties tx ty tz :
  (feq tx ty = true -> flt tx tz = true -> next_axis tx ty tz = AxisY) /\
  (feq tx tz = true -> flt tx ty = true -> next_axis tx ty tz = AxisZ) /\
  (feq ty tz = true -> flt ty tx = true -> next_axis tx ty tz = AxisZ) /\
  (feq tx ty = true -> feq ty tz = true -> next_axis tx ty tz = AxisZ).
Proof.
  unfold next_axis. repeat split.
  - intros E L. rewrite (feq_not_flt _ _ E), <- (feq_flt_l _ _ _ E), L.
    reflexivity.
  - intros E L. rewrite L, (feq_not_flt _ _ E). reflexivity.
  - intros E L. rewrite (flt_not_flt _ _ L), (feq_not_flt _ _ E). reflexivity.
  - intros E1 E2. rewrite (feq_not_flt _ _ E1), (feq_not_flt _ _ E2).
    reflexivity.
Qed.

Lemma ray_walk_untied su g d : forall fuel st,
  walk_untied su g d fuel st = true ->
  ray_walk (advance_xyz su) g d fuel st = ray_walk (advance su) g d fuel st.
Proof.
  induction fuel as [|fuel IH]; intros st; simpl; [reflexivity|].
  destruct (flt (currentT st) d); [|reflexivity].
  rewrite andb_true_iff. intros [Hm Hw].
  assert (E : advance_xyz su st = advance su st).
  { unfold advance_xyz, advance. now rewrite next_axis_untied. }
  rewrite E.
  destruct (fge (currentT (advance su st)) d); [reflexivity|].
  destruct (negb (IsValidIndex g _ _ _)); [reflexivity|].
  apply IH, Hw.
Qed.

(** ** The concrete grids are constructed grids *)

Lemma scenario_grid_constructed :
  UniformGrid_new (vec (-50) (-50) (-50)) (vec 50 50 50) (vec 10 10 10)
  = Some scenario_grid.
Proof. vm_compute. reflexivity. Qed.

Lemma small_grid_constructed :
  UniformGrid_new (vec 0 0 0) (vec 40 40 40) (vec 10 10 10) = Some small_grid.
Proof. vm_compute. reflexivity. Qed.

Lemma wide_grid_constructed :
  UniformGrid_new (vec 0 0 0) (vec 262144 262144 4) (vec 4 4 4) = Some wide_grid.
Proof. vm_compute. reflexivity. Qed.

Lemma unit_grid_constructed :
  UniformGrid_new (vec 0 0 0) (vec 4 4 4) (vec 1 1 1) = Some unit_grid.
Proof. vm_compute. reflexivity. Qed.

Lemma BuildInstanced_wf g objs : grid_state g -> grid_wf (BuildInstanced g objs).
Proof. intros H. apply grid_state_wf. now constructor. Qed.

Lemma BuildInstanced_fit g objs : cells_fit g -> cells_fit (BuildInstanced g objs).
Proof.
  intros F. destruct (BuildInstanced_cells g objs) as [c ->]. exact F.
Qed.

(** A build stores an active object in every cell between the clamped corners
    of its box, when the cell count is representable. *)
Lemma BuildInstanced_reaches g objs i a c :
  grid_state g -> cells_fit g ->
  nth_error objs i = Some a -> Asteroid.isActive a = true ->
  cell_between (GetCellIndices g (BoundingBox.min (worldBounds a))) c
               (GetCellIndices g (BoundingBox.max (worldBounds a))) ->
  In (wrap32 (Z.of_nat i))
     (cell_at (gridCells (BuildInstanced g objs))
              (Get1DIndex g (Vector3Int.x c) (Vector3Int.y c) (Vector3Int.z c))).
Proof.
  intros G F Hi Ha Hb. unfold BuildInstanced, cell_at.
  apply (build_from_reaches objs (Clear g) 0 i a c); auto.
  apply Clear_wf, grid_state_wf, G.
Qed.

(** ** The order of floats *)

Lemma SFcompare_Lt_key a b :
  SFcompare a b = Some Lt <->
  is_nan a = false /\ is_nan b = false /\ key_lt (fkey a) (fkey b).
Proof.
  destruct a as [sa|sa| |sa ma ea], b as [sb|sb| |sb mb eb]; simpl;
    try (intuition (try discriminate; try lia); fail);
    try (destruct sa; simpl; intuition (try discriminate; try lia); fail);
    try (destruct sb; simpl; intuition (try discriminate; try lia); fail);
    try (destruct sa, sb; simpl; intuition (try discriminate; try lia); fail).
  destruct sa, sb; simpl;
    try (intuition (try discriminate; try lia); fail).
  - destruct (Z.compare_spec ea eb) as [He|He|He].
    + subst eb. change (Pos.compare_cont Eq ma mb) with (Pos.compare ma mb).
      destruct (Pos.compare_spec ma mb) as [Hm|Hm|Hm]; simpl;
        intuition (try discriminate; try lia).
    + intuition (try discriminate; try lia).
    + intuition (try discriminate; try lia).
  - destruct (Z.compare_spec ea eb) as [He|He|He].
    + subst eb. change (Pos.compare_cont Eq ma mb) with (Pos.compare ma mb).
      destruct (Pos.compare_spec ma mb) as [Hm|Hm|Hm]; simpl;
        intuition (try discriminate; try lia).
    + intuition (try discriminate; try lia).
    + intuition (try discriminate; try lia).
Qed.

Lemma SFcompare_Eq_key a b :
  SFcompare a b = Some Eq <->
  is_nan a = false /\ is_nan b = false /\ fkey a = fkey b.
Proof.
  destruct a as [sa|sa| |sa ma ea], b as [sb|sb| |sb mb eb]; simpl;
    try (intuition (try discriminate; try congruence); fail);
    try (destruct sa; simpl; intuition (try discriminate; try congruence); fail);
    try (destruct sb; simpl; intuition (try discriminate; try congruence); fail);
    try (destruct sa, sb; simpl;
         intuition (try discriminate; try congruence); fail).
  destruct sa, sb; simpl;
    try (intuition (try discriminate; try congruence); fail).
  - destruct (Z.compare_spec ea eb) as [He|He|He].
    + subst eb. change (Pos.compare_cont Eq ma mb) with (Pos.compare ma mb).
      destruct (Pos.compare_spec ma mb) as [Hm|Hm|Hm]; simpl;
        intuition (try discriminate; try congruence);
        match goal with H : (_, _, _) = (_, _, _) |- _ =>
          injection H; intros; lia end.
    + intuition (try discriminate);
        match goal with H : (_, _, _) = (_, _, _) |- _ =>
          injection H; intros; lia end.
    + intuition (try discriminate);
        match goal with H : (_, _, _) = (_, _, _) |- _ =>
          injection H; intros; lia end.
  - destruct (Z.compare_spec ea eb) as [He|He|He].
    + subst eb. change (Pos.compare_cont Eq ma mb) with (Pos.compare ma mb).
      destruct (Pos.compare_spec ma mb) as [Hm|Hm|Hm]; simpl;
        intuition (try discriminate; try congruence);
        match goal with H : (_, _, _) = (_, _, _) |- _ =>
          injection H; intros; lia end.
    + intuition (try discriminate);
        match goal with H : (_, _, _) = (_, _, _) |- _ =>
          injection H; intros; lia end.
    + intuition (try discriminate);
        match goal with H : (_, _, _) = (_, _, _) |- _ =>
          injection H; intros; lia end.
Qed.

Lemma flt_key a b :
  flt a b = true <->
  is_nan a = false /\ is_nan b = false /\ key_lt (fkey a) (fkey b).
Proof.
  rewrite <- SFcompare_Lt_key. unfold flt, SFltb.
  destruct (SFcompare a b) as [[| |]|]; intuition (try discriminate).
Qed.

Lemma fle_key a b :
  fle a b = true <->
  is_nan a = false /\ is_nan b = false /\
  (key_lt (fkey a) (fkey b) \/ fkey a = fkey b).
Proof.
  pose proof (SFcompare_Lt_key a b) as HL.
  pose proof (SFcompare_Eq_key a b) as HE.
  unfold fle, SFleb.
  destruct (SFcompare a b) as [[| |]|].
  - intuition.
  - intuition.
  - split; [discriminate|]. intros [Ha [Hb [H|H]]].
    + assert (Some Gt = Some Lt) by (apply HL; auto). discriminate.
    + assert (Some Gt = Some Eq) by (apply HE; auto). discriminate.
  - split; [discriminate|]. intros [Ha [Hb [H|H]]].
    + assert (@None comparison = Some Lt) by (apply HL; auto). discriminate.
    + assert (@None comparison = Some Eq) by (apply HE; auto). discriminate.
Qed.

Lemma key_lt_trans a b c : key_lt a b -> key_lt b c -> key_lt a c.
Proof.
  destruct a as [[a1 a2] a3], b as [[b1 b2] b3], c as [[c1 c2] c3].
  unfold key_lt. lia.
Qed.

Lemma flt_fle_trans a b c : flt a b = true -> fle b c = true -> flt a c = true.
Proof.
  rewrite !flt_key, fle_key. intros [Ha [Hb H1]] [_ [Hc [H2|H2]]].
  - repeat split; auto. eapply key_lt_trans; eassumption.
  - repeat split; auto. now rewrite <- H2.
Qed.

Lemma fle_flt_trans a b c : fle a b = true -> flt b c = true -> flt a c = true.
Proof.
  rewrite !flt_key, fle_key. intros [Ha [Hb [H1|H1]]] [_ [Hc H2]].
  - repeat split; auto. eapply key_lt_trans; eassumption.
  - repeat split; auto. now rewrite H1.
Qed.

Lemma fle_trans a b c : fle a b = true -> fle b c = true -> fle a c = true.
Proof.
  rewrite !fle_key. intros [Ha [Hb [H1|H1]]] [_ [Hc [H2|H2]]];
    repeat split; auto.
  - left. eapply key_lt_trans; eassumption.
  - left. now rewrite <- H2.
  - left. now rewrite H1.
  - right. congruence.
Qed.

Lemma flt_trans a b c : flt a b = true -> flt b c = true -> flt a c = true.
Proof.
  intros H1 H2. eapply flt_fle_trans; [exact H1|]. now apply flt_fle.
Qed.

(* ------------------------------------------------------------------ *)
(** ** Rounding is monotone: the cell of a point between two others *)

(** *** Powers of two and binary digits *)

Lemma pow2_pos k : 0 <= k -> 0 < 2 ^ k.
Proof. intros. apply Z.pow_pos_nonneg; lia. Qed.

Lemma pow2_le a b : 0 <= a <= b -> 2 ^ a <= 2 ^ b.
Proof. intros. apply Z.pow_le_mono_r; lia. Qed.

Lemma pow2_lt a b : 0 <= a < b -> 2 ^ a < 2 ^ b.
Proof. intros. apply Z.pow_lt_mono_r; lia. Qed.

Lemma pow2_succ k : 0 <= k -> 2 ^ (k + 1) = 2 * 2 ^ k.
Proof. intros. rewrite Z.pow_add_r by lia. lia. Qed.

Lemma digits2_pos_size p : digits2_pos p = Pos.size p.
Proof. induction p; simpl; congruence. Qed.

Lemma Zdigits2_bounds m :
  0 < m -> 1 <= Zdigits2 m /\ 2 ^ (Zdigits2 m - 1) <= m < 2 ^ Zdigits2 m.
Proof.
  destruct m as [|p|p]; try lia. intros _.
  change (Zdigits2 (Z.pos p)) with (Z.pos (digits2_pos p)).
  rewrite digits2_pos_size.
  pose proof (Pos.size_gt p) as G. pose proof (Pos.size_le p) as L.
  apply Pos2Z.pos_lt_pos in G. apply Pos2Z.pos_le_pos in L.
  rewrite Pos2Z.inj_pow in G, L.
  change (Z.pos p~0) with (2 * Z.pos p) in L.
  assert (1 <= Z.pos (Pos.size p)) by lia.
  replace (Z.pos (Pos.size p)) with ((Z.pos (Pos.size p) - 1) + 1) in L at 1
    by lia.
  rewrite pow2_succ in L by lia. lia.
Qed.

Lemma Zdigits2_nonneg m : 0 <= Zdigits2 m.
Proof. destruct m; simpl; lia. Qed.

Lemma Zdigits2_le m d : 0 <= m -> 0 <= d -> m < 2 ^ d -> Zdigits2 m <= d.
Proof.
  intros Hm Hd H. destruct (Z.eq_dec m 0) as [->|N]; [simpl; lia|].
  destruct (Zdigits2_bounds m ltac:(lia)) as [H1 [H2 _]].
  destruct (Z_le_gt_dec (Zdigits2 m) d); [assumption|].
  pose proof (pow2_le d (Zdigits2 m - 1) ltac:(lia)). lia.
Qed.

Lemma Zdigits2_ge m d : 1 <= d -> 2 ^ (d - 1) <= m -> d <= Zdigits2 m.
Proof.
  intros Hd H.
  pose proof (pow2_pos (d - 1) ltac:(lia)).
  destruct (Zdigits2_bounds m ltac:(lia)) as [H1 [_ H3]].
  destruct (Z_le_gt_dec d (Zdigits2 m)); [assumption|].
  pose proof (pow2_le (Zdigits2 m) (d - 1) ltac:(lia)). lia.
Qed.

Lemma Zdigits2_unique m d :
  1 <= d -> 2 ^ (d - 1) <= m < 2 ^ d -> Zdigits2 m = d.
Proof.
  intros Hd [H1 H2].
  pose proof (pow2_pos (d - 1) ltac:(lia)).
  pose proof (Zdigits2_le m d ltac:(lia) ltac:(lia) H2).
  pose proof (Zdigits2_ge m d Hd H1). lia.
Qed.

Lemma Zdigits2_mono a b : 0 <= a <= b -> Zdigits2 a <= Zdigits2 b.
Proof.
  intros [Ha Hab]. destruct (Z.eq_dec a 0) as [->|N].
  - apply Zdigits2_nonneg.
  - destruct (Zdigits2_bounds a ltac:(lia)) as [H1 [H2 _]].
    apply Zdigits2_ge; lia.
Qed.

Lemma fexp_eq z : fexp prec emax z = fexp32 z.
Proof. reflexivity. Qed.

(** *** Shifting a mantissa with its round and sticky bits *)

Lemma shr_1_nonneg m r s :
  0 <= m ->
  shr_1 (Build_shr_record m r s)
  = Build_shr_record (m / 2) (Z.odd m) (r || s).
Proof.
  intros Hm. destruct m as [|p|p]; [reflexivity| |lia].
  destruct p as [p|p|]; simpl shr_1; f_equal; try reflexivity.
  - rewrite Pos2Z.inj_xI. apply Z.div_unique with (r := 1); lia.
  - rewrite Pos2Z.inj_xO. apply Z.div_unique with (r := 0); lia.
Qed.

Lemma rec_of_double n d :
  0 <= n -> 0 < d -> shr_1 (rec_of n d) = rec_of n (2 * d).
Proof.
  intros Hn Hd. unfold rec_of.
  pose proof (Z.div_mod n d ltac:(lia)) as E.
  pose proof (Z.mod_pos_bound n d Hd) as B.
  assert (Hq : 0 <= n / d) by (apply Z.div_pos; lia).
  rewrite shr_1_nonneg by exact Hq.
  set (q := n / d) in *. set (r := n mod d) in *.
  pose proof (Z.div_mod q 2 ltac:(lia)) as E2.
  pose proof (Z.mod_pos_bound q 2 ltac:(lia)) as B2.
  assert (Eq' : n / (2 * d) = q / 2).
  { symmetry. apply Z.div_unique with (r := (q mod 2) * d + r); nia. }
  assert (Er' : n mod (2 * d) = (q mod 2) * d + r).
  { symmetry. apply Z.mod_unique with (q := q / 2); nia. }
  rewrite Eq', Er'.
  assert (Eo : Z.odd q = (q mod 2 =? 1)).
  { rewrite Zmod_odd. destruct (Z.odd q); reflexivity. }
  rewrite Eo. clear Eq' Er' Eo E2 E.
  assert (Hb : q mod 2 = 0 \/ q mod 2 = 1) by lia.
  destruct Hb as [-> | ->]; f_equal.
  - destruct (Z.leb_spec (2 * d) (2 * (0 * d + r))); simpl; lia.
  - destruct (Z.leb_spec d (2 * r)); destruct (Z.eqb_spec r 0);
      destruct (Z.eqb_spec (2 * r) d);
      destruct (Z.eqb_spec (0 * d + r) 0);
      destruct (Z.eqb_spec (2 * (0 * d + r)) (2 * d));
      simpl; try reflexivity; lia.
  - destruct (Z.leb_spec (2 * d) (2 * (1 * d + r))); simpl; lia.
  - destruct (Z.leb_spec d (2 * r)); destruct (Z.eqb_spec r 0);
      destruct (Z.eqb_spec (2 * r) d);
      destruct (Z.eqb_spec (1 * d + r) 0);
      destruct (Z.eqb_spec (2 * (1 * d + r)) (2 * d));
      simpl; try reflexivity; lia.
Qed.

Lemma rec_of_scale c n d :
  0 < c -> 0 <= n -> 0 < d -> rec_of (c * n) (c * d) = rec_of n d.
Proof.
  intros Hc Hn Hd. unfold rec_of.
  rewrite Z.div_mul_cancel_l by lia.
  rewrite Z.mul_mod_distr_l by lia.
  pose proof (Z.mod_pos_bound n d Hd) as B.
  set (r := n mod d) in *. f_equal.
  - destruct (Z.leb_spec (c * d) (2 * (c * r)));
      destruct (Z.leb_spec d (2 * r)); try reflexivity; nia.
  - destruct (Z.eqb_spec (c * r) 0); destruct (Z.eqb_spec r 0);
      destruct (Z.eqb_spec (2 * (c * r)) (c * d));
      destruct (Z.eqb_spec (2 * r) d); simpl; try reflexivity; nia.
Qed.

Lemma rec_of_exact m : rec_of m 1 = Build_shr_record m false false.
Proof.
  unfold rec_of. rewrite Z.div_1_r, Z.mod_1_r. reflexivity.
Qed.

Lemma iter_pos_rec p : forall n d,
  0 <= n -> 0 < d ->
  iter_pos shr_1 p (rec_of n d) = rec_of n (2 ^ Z.pos p * d).
Proof.
  induction p as [p IH|p IH|]; intros n d Hn Hd; cbn [iter_pos].
  - rewrite rec_of_double by assumption.
    rewrite IH by lia.
    assert (0 < 2 ^ Z.pos p) by (apply pow2_pos; lia).
    rewrite IH by nia. f_equal.
    rewrite (Pos2Z.inj_xI p).
    replace (2 * Z.pos p + 1) with (Z.pos p + Z.pos p + 1) by lia.
    rewrite !Z.pow_add_r by lia. change (2 ^ 1) with 2. ring.
  - rewrite IH by lia.
    assert (0 < 2 ^ Z.pos p) by (apply pow2_pos; lia).
    rewrite IH by nia. f_equal.
    rewrite (Pos2Z.inj_xO p).
    replace (2 * Z.pos p) with (Z.pos p + Z.pos p) by lia.
    rewrite !Z.pow_add_r by lia. ring.
  - rewrite rec_of_double by assumption. reflexivity.
Qed.

Lemma shr_rec n d e k :
  0 <= n -> 0 < d -> 0 <= k ->
  shr (rec_of n d) e k = (rec_of n (2 ^ k * d), e + k).
Proof.
  intros Hn Hd Hk. destruct k as [|p|p]; [| |lia].
  - cbn [shr]. rewrite Z.add_0_r. change (2 ^ 0) with 1.
    now rewrite Z.mul_1_l.
  - unfold shr. now rewrite iter_pos_rec.
Qed.

(** *** Rounding a shifted mantissa to nearest, ties to even *)

Lemma rne_rec n d :
  0 <= n -> 0 < d ->
  rne (rec_of n d)
  = if 2 * (n mod d) <? d then n / d
    else if 2 * (n mod d) =? d
         then (if Z.even (n / d) then n / d else n / d + 1)
         else n / d + 1.
Proof.
  intros Hn Hd. unfold rne, rec_of. cbn [shr_m].
  pose proof (Z.mod_pos_bound n d Hd) as B.
  set (r := n mod d) in *. set (q := n / d).
  unfold loc_of_shr_record.
  destruct (Z.leb_spec d (2 * r)); destruct (Z.eqb_spec r 0);
    destruct (Z.eqb_spec (2 * r) d); destruct (Z.ltb_spec (2 * r) d);
    cbn; try reflexivity; lia.
Qed.

Lemma rne_bounds n d :
  0 <= n -> 0 < d -> n / d <= rne (rec_of n d) <= n / d + 1.
Proof.
  intros Hn Hd. rewrite rne_rec by assumption.
  destruct (2 * (n mod d) <? d); [lia|].
  destruct (2 * (n mod d) =? d); [|lia].
  destruct (Z.even (n / d)); lia.
Qed.

Lemma rne_mono n1 n2 d :
  0 <= n1 <= n2 -> 0 < d -> rne (rec_of n1 d) <= rne (rec_of n2 d).
Proof.
  intros [H1 H12] Hd.
  pose proof (Z.div_le_mono n1 n2 d Hd H12) as Hq.
  pose proof (rne_bounds n1 d H1 Hd) as B1.
  pose proof (rne_bounds n2 d ltac:(lia) Hd) as B2.
  destruct (Z.eq_dec (n1 / d) (n2 / d)) as [E|N]; [|lia].
  pose proof (Z.div_mod n1 d ltac:(lia)) as E1.
  pose proof (Z.div_mod n2 d ltac:(lia)) as E2.
  rewrite !rne_rec by lia. rewrite <- E in *.
  set (q := n1 / d) in *.
  assert (Hr : n1 mod d <= n2 mod d) by nia.
  destruct (Z.ltb_spec (2 * (n1 mod d)) d);
    destruct (Z.ltb_spec (2 * (n2 mod d)) d);
    destruct (Z.eqb_spec (2 * (n1 mod d)) d);
    destruct (Z.eqb_spec (2 * (n2 mod d)) d);
    destruct (Z.even q); lia.
Qed.

Lemma rne_exact_div n d :
  0 <= n -> 0 < d -> n mod d = 0 -> rne (rec_of n d) = n / d.
Proof.
  intros Hn Hd H. rewrite rne_rec by assumption. rewrite H.
  destruct (Z.ltb_spec (2 * 0) d); [reflexivity | lia].
Qed.

(** *** The second half of [binary_round_aux] *)

Lemma shr_nonpos R e k : k <= 0 -> shr R e k = (R, e).
Proof. intros H. destruct k; [reflexivity | lia | reflexivity]. Qed.

Lemma finish_pack s m e :
  -149 <= e -> 0 <= m <= 2 ^ 24 -> finish s m e = pack s m e.
Proof.
  intros He Hm. unfold finish, pack, shr_fexp. rewrite fexp_eq.
  cbn [shr_record_of_loc].
  destruct (Z.eqb_spec m 0) as [->|N0].
  - rewrite shr_nonpos by (cbn [Zdigits2]; unfold fexp32; lia). reflexivity.
  - destruct (Z.ltb_spec m (2 ^ 24)) as [L|L].
    + pose proof (Zdigits2_le m 24 ltac:(lia) ltac:(lia) L).
      rewrite shr_nonpos by (unfold fexp32; lia).
      cbn [shr_m]. destruct m as [|p|p]; try lia.
      change (emax - prec) with 104. reflexivity.
    + assert (m = 2 ^ 24) by lia. subst m.
      change (Zdigits2 (2 ^ 24)) with 25.
      replace (fexp32 (25 + e) - e) with 1 by (unfold fexp32; lia).
      cbn [shr iter_pos]. change (2 ^ 24) with 16777216.
      cbn [shr_1 shr_m]. change (emax - prec) with 104.
      reflexivity.
Qed.

(** *** The first half of [binary_round_aux] *)

Lemma stage1 n d e :
  0 <= n -> 0 < d -> pre n d e ->
  -149 <= target n d e /\
  0 <= target n d e - e /\
  0 <= n / (2 ^ (target n d e - e) * d) < 2 ^ 24 /\
  (-149 < target n d e -> 2 ^ 23 <= n / (2 ^ (target n d e - e) * d)).
Proof.
  intros Hn Hd P. unfold pre in P.
  set (t := target n d e) in *.
  assert (Ht : t = Z.max (Zdigits2 (n / d) + e - 24) (-149)) by reflexivity.
  set (g := Zdigits2 (n / d)) in *.
  set (k := t - e).
  assert (Hk : 0 <= k) by lia.
  assert (Hq : 0 <= n / d) by (apply Z.div_pos; lia).
  assert (Hg : 0 <= g) by apply Zdigits2_nonneg.
  pose proof (pow2_pos k Hk) as Hp.
  assert (Ediv : n / (2 ^ k * d) = n / d / 2 ^ k).
  { rewrite Z.div_div by lia. f_equal. lia. }
  rewrite Ediv.
  split; [lia|]. split; [lia|]. split; [split|].
  - apply Z.div_pos; lia.
  - apply Z.div_lt_upper_bound; [lia|].
    rewrite <- Z.pow_add_r by lia.
    destruct (Z.eq_dec (n / d) 0) as [E0|N0].
    + rewrite E0. apply pow2_pos. lia.
    + destruct (Zdigits2_bounds (n / d) ltac:(lia)) as [_ [_ U]].
      fold g in U.
      pose proof (pow2_le g (k + 24) ltac:(lia)). lia.
  - intros Hn149.
    assert (Eg : k = g - 24) by lia.
    assert (N0 : n / d <> 0).
    { intros E0. unfold g in Eg. rewrite E0 in Eg. cbn in Eg. lia. }
    destruct (Zdigits2_bounds (n / d) ltac:(lia)) as [_ [L _]].
    fold g in L.
    apply Z.div_le_lower_bound; [lia|].
    rewrite <- Z.pow_add_r by lia.
    replace (k + 23) with (g - 1) by lia. exact L.
Qed.

Lemma rnd_pack s n d e :
  0 <= n -> 0 < d -> pre n d e ->
  rnd s n d e
  = pack s (rne (rec_of n (2 ^ (target n d e - e) * d))) (target n d e).
Proof.
  intros Hn Hd P.
  destruct (stage1 n d e Hn Hd P) as [Ht [Hk [Hm _]]].
  unfold rnd. apply finish_pack; [exact Ht|].
  pose proof (pow2_pos _ Hk).
  pose proof (rne_bounds n (2 ^ (target n d e - e) * d) Hn ltac:(nia)).
  lia.
Qed.

Lemma shr_m_of_loc m l : shr_m (shr_record_of_loc m l) = m.
Proof. destruct l as [|[| |]]; reflexivity. Qed.

Lemma bra_rnd s m l n d e :
  0 <= n -> 0 < d -> shr_record_of_loc m l = rec_of n d -> pre n d e ->
  binary_round_aux prec emax s m e l = rnd s n d e.
Proof.
  intros Hn Hd ER P.
  assert (Em : m = n / d).
  { rewrite <- (shr_m_of_loc m l), ER. reflexivity. }
  unfold binary_round_aux, shr_fexp at 1. rewrite ER, fexp_eq, Em.
  fold (target n d e).
  rewrite shr_rec by (try assumption; unfold pre in P; lia).
  replace (e + (target n d e - e)) with (target n d e) by lia.
  unfold rnd, finish, rne. cbv beta iota. reflexivity.
Qed.

(** *** A finer representation of the same number *)

Lemma target_refine n d e j :
  0 <= n -> 0 < d -> 0 <= j -> pre n d e ->
  target (2 ^ j * n) d (e - j) = target n d e.
Proof.
  intros Hn Hd Hj P. unfold pre in P. unfold target in *.
  pose proof (pow2_pos j Hj) as Hp.
  pose proof (Z.div_mod n d ltac:(lia)) as E.
  pose proof (Z.mod_pos_bound n d Hd) as B.
  assert (Hq : 0 <= n / d) by (apply Z.div_pos; lia).
  set (q := n / d) in *.
  assert (L : 2 ^ j * q <= 2 ^ j * n / d)
    by (apply Z.div_le_lower_bound; nia).
  assert (U : 2 ^ j * n / d < 2 ^ j * (q + 1))
    by (apply Z.div_lt_upper_bound; nia).
  destruct (Z.eq_dec q 0) as [E0|N0].
  - rewrite E0 in *. cbn [Zdigits2] in P. unfold fexp32 in P.
    assert (Zdigits2 (2 ^ j * n / d) <= j).
    { apply Zdigits2_le; [apply Z.div_pos; nia | lia | lia]. }
    pose proof (Zdigits2_nonneg (2 ^ j * n / d)).
    cbn [Zdigits2]. unfold fexp32. lia.
  - destruct (Zdigits2_bounds q ltac:(lia)) as [G1 [G2 G3]].
    assert (Zdigits2 (2 ^ j * n / d) = Zdigits2 q + j).
    { apply Zdigits2_unique; [lia|].
      replace (Zdigits2 q + j - 1) with (j + (Zdigits2 q - 1)) by lia.
      replace (Zdigits2 q + j) with (j + Zdigits2 q) by lia.
      rewrite !Z.pow_add_r by lia. nia. }
    f_equal. lia.
Qed.

Lemma rnd_refine s n d e j :
  0 <= n -> 0 < d -> 0 <= j -> pre n d e ->
  pre (2 ^ j * n) d (e - j) /\
  rnd s (2 ^ j * n) d (e - j) = rnd s n d e.
Proof.
  intros Hn Hd Hj P.
  pose proof (target_refine n d e j Hn Hd Hj P) as T.
  split.
  - unfold pre in *. lia.
  - unfold rnd. rewrite T. f_equal. f_equal.
    unfold pre in P.
    replace (target n d e - (e - j)) with (j + (target n d e - e)) by lia.
    rewrite Z.pow_add_r by lia.
    rewrite <- Z.mul_assoc.
    apply rec_of_scale; try assumption.
    + apply pow2_pos; lia.
    + pose proof (pow2_pos (target n d e - e) ltac:(lia)). nia.
Qed.

(** *** Comparing rounded results *)

Lemma fle_fin_pos m1 e1 m2 e2 :
  0 < m1 -> 0 < m2 -> e1 < e2 \/ (e1 = e2 /\ m1 <= m2) ->
  fle (S754_finite false (Z.to_pos m1) e1) (S754_finite false (Z.to_pos m2) e2)
  = true.
Proof.
  intros H1 H2 H. unfold fle, SFleb, SFcompare.
  destruct (Z.compare_spec e1 e2) as [E|L|G]; try reflexivity; [|lia].
  rewrite Pos.compare_cont_spec. cbn [Pos.switch_Eq].
  destruct (Pos.compare_spec (Z.to_pos m1) (Z.to_pos m2)) as [E'|L'|G'];
    try reflexivity.
  apply Pos2Z.pos_lt_pos in G'. rewrite !Z2Pos.id in G' by lia. lia.
Qed.

Lemma fle_fin_neg m1 e1 m2 e2 :
  0 < m1 -> 0 < m2 -> e1 < e2 \/ (e1 = e2 /\ m1 <= m2) ->
  fle (S754_finite true (Z.to_pos m2) e2) (S754_finite true (Z.to_pos m1) e1)
  = true.
Proof.
  intros H1 H2 H. unfold fle, SFleb, SFcompare.
  destruct (Z.compare_spec e2 e1) as [E|L|G]; try reflexivity; [|lia].
  rewrite Pos.compare_cont_spec. cbn [Pos.switch_Eq].
  destruct (Pos.compare_spec (Z.to_pos m2) (Z.to_pos m1)) as [E'|L'|G'];
    try reflexivity.
  apply Pos2Z.pos_lt_pos in L'. rewrite !Z2Pos.id in L' by lia. lia.
Qed.

Ltac pack_cases :=
  unfold pack;
  repeat match goal with
         | |- context [if ?b then _ else _] => destruct b eqn:?
         end;
  rewrite ?Z.eqb_eq, ?Z.eqb_neq, ?Z.ltb_lt, ?Z.ltb_ge, ?Z.leb_le, ?Z.leb_gt
    in *;
  try lia; try reflexivity;
  try (apply fle_fin_pos; lia); try (apply fle_fin_neg; lia).

Lemma pack_mono_same R1 R2 t :
  0 <= R1 <= R2 -> R2 <= 2 ^ 24 ->
  fle (pack false R1 t) (pack false R2 t) = true /\
  fle (pack true R2 t) (pack true R1 t) = true.
Proof.
  intros H1 H2. assert (P23 : 2 ^ 23 = 8388608) by reflexivity.
  assert (P24 : 2 ^ 24 = 16777216) by reflexivity.
  split; pack_cases.
Qed.

Lemma pack_mono_diff R1 R2 t1 t2 :
  t1 < t2 -> 0 <= R1 <= 2 ^ 24 -> 2 ^ 23 <= R2 <= 2 ^ 24 ->
  fle (pack false R1 t1) (pack false R2 t2) = true /\
  fle (pack true R2 t2) (pack true R1 t1) = true.
Proof.
  intros Ht H1 H2. assert (P23 : 2 ^ 23 = 8388608) by reflexivity.
  assert (P24 : 2 ^ 24 = 16777216) by reflexivity.
  split; pack_cases.
Qed.

Lemma pack_signs R1 R2 t1 t2 b :
  0 <= R1 -> 0 <= R2 ->
  fle (pack true R1 t1) (pack false R2 t2) = true /\
  fle (pack true R1 t1) (S754_zero b) = true /\
  fle (S754_zero b) (pack false R2 t2) = true.
Proof.
  intros H1 H2. repeat split; pack_cases.
Qed.

Lemma pack_valid s R t :
  -149 <= t -> 0 <= R <= 2 ^ 24 -> (-149 < t -> 2 ^ 23 <= R) ->
  valid_binary prec emax (pack s R t) = true.
Proof.
  intros Ht HR Hn. assert (P23 : 2 ^ 23 = 8388608) by reflexivity.
  assert (P24 : 2 ^ 24 = 16777216) by reflexivity.
  unfold pack.
  destruct (Z.eqb_spec R 0); [reflexivity|].
  destruct (Z.ltb_spec R (2 ^ 24)).
  - destruct (Z.leb_spec t 104); [|reflexivity].
    unfold valid_binary, bounded, canonical_mantissa.
    rewrite fexp_eq.
    change (Z.pos (digits2_pos (Z.to_pos R))) with (Zdigits2 (Z.pos (Z.to_pos R))).
    rewrite Z2Pos.id by lia.
    apply andb_true_iff. split; [apply Z.eqb_eq | apply Z.leb_le; assumption].
    pose proof (Zdigits2_le R 24 ltac:(lia) ltac:(lia) ltac:(lia)).
    pose proof (Zdigits2_nonneg R).
    destruct (Z.eq_dec t (-149)) as [->|N]; [unfold fexp32; lia|].
    pose proof (Zdigits2_ge R 24 ltac:(lia) ltac:(change (2 ^ (24 - 1)) with (2 ^ 23); lia)).
    unfold fexp32. lia.
  - destruct (Z.leb_spec (t + 1) 104); [|reflexivity].
    unfold valid_binary, bounded, canonical_mantissa.
    rewrite fexp_eq.
    change (Z.pos (digits2_pos (Z.to_pos (2 ^ 23)))) with 24.
    apply andb_true_iff. split; [apply Z.eqb_eq | apply Z.leb_le; assumption].
    unfold fexp32. lia.
Qed.

(** *** Rounding is monotone *)

Lemma rnd_facts s n d e :
  0 <= n -> 0 < d -> pre n d e ->
  exists R t,
    rnd s n d e = pack s R t /\ t = target n d e /\
    R = rne (rec_of n (2 ^ (t - e) * d)) /\
    -149 <= t /\ 0 <= R <= 2 ^ 24 /\ (-149 < t -> 2 ^ 23 <= R).
Proof.
  intros Hn Hd P.
  destruct (stage1 n d e Hn Hd P) as [Ht [Hk [Hm Hnorm]]].
  pose proof (pow2_pos _ Hk).
  pose proof (rne_bounds n (2 ^ (target n d e - e) * d) Hn ltac:(nia)).
  eexists _, _. split; [apply rnd_pack; assumption|].
  split; [reflexivity|]. split; [reflexivity|].
  split; [exact Ht|]. split; [lia|].
  intros Hs. specialize (Hnorm Hs). lia.
Qed.

Lemma rnd_valid s n d e :
  0 <= n -> 0 < d -> pre n d e ->
  valid_binary prec emax (rnd s n d e) = true.
Proof.
  intros Hn Hd P.
  destruct (rnd_facts s n d e Hn Hd P) as [R [t [E [_ [_ [Ht [HR Hnorm]]]]]]].
  rewrite E. now apply pack_valid.
Qed.

Lemma rnd_mono n1 n2 d e :
  0 <= n1 <= n2 -> 0 < d -> pre n1 d e -> pre n2 d e ->
  fle (rnd false n1 d e) (rnd false n2 d e) = true /\
  fle (rnd true n2 d e) (rnd true n1 d e) = true.
Proof.
  intros Hn Hd P1 P2.
  assert (Hn2 : 0 <= n2) by lia. destruct Hn as [Hn1 Hle].
  destruct (rnd_facts false n1 d e Hn1 Hd P1)
    as [R1 [t1 [E1 [T1 [ER1 [Ht1 [HR1 Hnorm1]]]]]]].
  destruct (rnd_facts false n2 d e Hn2 Hd P2)
    as [R2 [t2 [E2 [T2 [ER2 [Ht2 [HR2 Hnorm2]]]]]]].
  destruct (rnd_facts true n1 d e Hn1 Hd P1)
    as [R1' [t1' [E1' [T1' [ER1' _]]]]].
  destruct (rnd_facts true n2 d e Hn2 Hd P2)
    as [R2' [t2' [E2' [T2' [ER2' _]]]]].
  subst t1' t2'. rewrite <- T1 in *. rewrite <- T2 in *.
  subst R1' R2'. rewrite <- ER1 in *. rewrite <- ER2 in *.
  rewrite E1, E2, E1', E2'.
  assert (Hq : n1 / d <= n2 / d) by (apply Z.div_le_mono; lia).
  assert (Hq0 : 0 <= n1 / d) by (apply Z.div_pos; lia).
  pose proof (Zdigits2_mono (n1 / d) (n2 / d) ltac:(lia)) as Hg.
  assert (Ht : t1 <= t2) by (subst t1 t2; unfold target, fexp32; lia).
  destruct (Z.eq_dec t1 t2) as [Et|Nt].
  - rewrite <- Et in *. apply pack_mono_same; [|lia].
    split; [lia|]. subst R1 R2. apply rne_mono; [lia|].
    unfold pre in P1. rewrite <- T1 in P1.
    pose proof (pow2_pos (t1 - e) ltac:(lia)). nia.
  - apply pack_mono_diff; [lia | lia |].
    split; [apply Hnorm2; lia | lia].
Qed.

Lemma rnd_mono_gen n1 n2 d e1 e2 e0 :
  0 <= n1 -> 0 <= n2 -> 0 < d -> e0 <= e1 -> e0 <= e2 ->
  pre n1 d e1 -> pre n2 d e2 ->
  2 ^ (e1 - e0) * n1 <= 2 ^ (e2 - e0) * n2 ->
  fle (rnd false n1 d e1) (rnd false n2 d e2) = true /\
  fle (rnd true n2 d e2) (rnd true n1 d e1) = true.
Proof.
  intros Hn1 Hn2 Hd H1 H2 P1 P2 Hle.
  destruct (rnd_refine false n1 d e1 (e1 - e0) Hn1 Hd ltac:(lia) P1)
    as [Q1 F1].
  destruct (rnd_refine false n2 d e2 (e2 - e0) Hn2 Hd ltac:(lia) P2)
    as [Q2 F2].
  destruct (rnd_refine true n1 d e1 (e1 - e0) Hn1 Hd ltac:(lia) P1)
    as [_ G1].
  destruct (rnd_refine true n2 d e2 (e2 - e0) Hn2 Hd ltac:(lia) P2)
    as [_ G2].
  replace (e1 - (e1 - e0)) with e0 in * by lia.
  replace (e2 - (e2 - e0)) with e0 in * by lia.
  rewrite <- F1, <- F2, <- G1, <- G2.
  apply rnd_mono; try assumption.
  pose proof (pow2_pos (e1 - e0) ltac:(lia)). split; [nia | lia].
Qed.

Lemma rnd_signs n1 n2 d1 d2 e1 e2 b :
  0 <= n1 -> 0 <= n2 -> 0 < d1 -> 0 < d2 -> pre n1 d1 e1 -> pre n2 d2 e2 ->
  fle (rnd true n1 d1 e1) (rnd false n2 d2 e2) = true /\
  fle (rnd true n1 d1 e1) (S754_zero b) = true /\
  fle (S754_zero b) (rnd false n2 d2 e2) = true.
Proof.
  intros Hn1 Hn2 Hd1 Hd2 P1 P2.
  destruct (rnd_facts true n1 d1 e1 Hn1 Hd1 P1) as [R1 [t1 [E1 [_ [_ [_ [HR1 _]]]]]]].
  destruct (rnd_facts false n2 d2 e2 Hn2 Hd2 P2) as [R2 [t2 [E2 [_ [_ [_ [HR2 _]]]]]]].
  rewrite E1, E2. apply pack_signs; lia.
Qed.

(** *** binary32 values *)

Lemma valid_finite s m e :
  binary32 (S754_finite s m e) ->
  -149 <= e <= 104 /\ fexp32 (Zdigits2 (Zpos m) + e) = e /\
  Zpos m < 2 ^ 24 /\ (-149 < e -> 2 ^ 23 <= Zpos m).
Proof.
  unfold binary32, valid_binary, bounded, canonical_mantissa.
  rewrite andb_true_iff, Z.eqb_eq, Z.leb_le, fexp_eq.
  change (Z.pos (digits2_pos m)) with (Zdigits2 (Z.pos m)).
  change (emax - prec) with 104.
  intros [C B].
  destruct (Zdigits2_bounds (Z.pos m) ltac:(lia)) as [G1 [G2 G3]].
  set (g := Zdigits2 (Z.pos m)) in *.
  assert (g <= 24) by (unfold fexp32 in C; lia).
  split; [unfold fexp32 in C; lia|]. split; [exact C|]. split.
  - pose proof (pow2_le g 24 ltac:(lia)). lia.
  - intros He. assert (g = 24) by (unfold fexp32 in C; lia).
    replace (g - 1) with 23 in G2 by lia. exact G2.
Qed.

Lemma pre_int V : 0 <= V -> pre V 1 (-149).
Proof.
  intros _. unfold pre, target, fexp32.
  pose proof (Zdigits2_nonneg (V / 1)). lia.
Qed.

Lemma rnd_canonical s m e :
  binary32 (S754_finite s m e) ->
  pre (Zpos m) 1 e /\ rnd s (Zpos m) 1 e = S754_finite s m e.
Proof.
  intros V. destruct (valid_finite s m e V) as [He [C [U _]]].
  assert (T : target (Z.pos m) 1 e = e).
  { unfold target. now rewrite Z.div_1_r. }
  assert (P : pre (Z.pos m) 1 e) by (unfold pre; lia).
  split; [exact P|].
  rewrite rnd_pack by (try assumption; lia). rewrite T.
  replace (e - e) with 0 by lia. change (2 ^ 0 * 1) with 1.
  rewrite rne_exact_div by (try lia; apply Z.mod_1_r).
  rewrite Z.div_1_r. unfold pack.
  destruct (Z.eqb_spec (Z.pos m) 0); [lia|].
  destruct (Z.ltb_spec (Z.pos m) (2 ^ 24)); [|lia].
  destruct (Z.leb_spec e 104); [|lia]. reflexivity.
Qed.

Lemma rint_pos V : 0 < V -> rint V = rnd false V 1 (-149).
Proof. destruct V; try lia. reflexivity. Qed.

Lemma rint_neg V : V < 0 -> rint V = rnd true (- V) 1 (-149).
Proof. destruct V; try lia. reflexivity. Qed.

Lemma rint_of_float s m e :
  binary32 (S754_finite s m e) ->
  rint (signed_mantissa s m * 2 ^ (e + 149)) = S754_finite s m e.
Proof.
  intros V. destruct (valid_finite s m e V) as [He _].
  destruct (rnd_canonical s m e V) as [P E].
  destruct (rnd_refine s (Z.pos m) 1 e (e + 149) ltac:(lia) ltac:(lia)
              ltac:(lia) P) as [_ R].
  replace (e - (e + 149)) with (-149) in R by lia.
  pose proof (pow2_pos (e + 149) ltac:(lia)) as Hp.
  rewrite <- E, <- R. unfold signed_mantissa. destruct s.
  - rewrite rint_neg by nia. f_equal. lia.
  - rewrite rint_pos by nia. f_equal. lia.
Qed.

Lemma rint_valid V : binary32 (rint V).
Proof.
  unfold binary32. destruct V; [reflexivity| |];
    apply rnd_valid; try lia; apply pre_int; lia.
Qed.

Lemma rint_mono V1 V2 : V1 <= V2 -> fle (rint V1) (rint V2) = true.
Proof.
  intros H.
  destruct (Z.lt_trichotomy V1 0) as [N1|[Z1|P1]];
    destruct (Z.lt_trichotomy V2 0) as [N2|[Z2|P2]]; try lia.
  - rewrite !rint_neg by lia.
    apply (rnd_mono (- V2) (- V1) 1 (-149)); try lia; apply pre_int; lia.
  - subst V2. rewrite rint_neg by lia.
    apply (rnd_signs (- V1) 0 1 1 (-149) (-149) false); try lia;
      apply pre_int; lia.
  - rewrite rint_neg, rint_pos by lia.
    apply (rnd_signs (- V1) V2 1 1 (-149) (-149) false); try lia;
      apply pre_int; lia.
  - subst. reflexivity.
  - subst V1. rewrite (rint_pos V2) by lia.
    apply (rnd_signs 0 V2 1 1 (-149) (-149) false); try lia;
      apply pre_int; lia.
  - rewrite !rint_pos by lia.
    apply (rnd_mono V1 V2 1 (-149)); try lia; apply pre_int; lia.
Qed.

Lemma ival_sign s m e :
  -149 <= e ->
  (s = false -> 0 < ival (S754_finite s m e)) /\
  (s = true -> ival (S754_finite s m e) < 0).
Proof.
  intros He. pose proof (pow2_pos (e + 149) ltac:(lia)).
  unfold ival, signed_mantissa. split; intros ->; nia.
Qed.

(** A finite float is the rounding of its own value. *)
Lemma float_value x :
  binary32 x -> is_finite x = true -> fequiv x (rint (ival x)).
Proof.
  intros V F. destruct x as [s|s| |s m e]; try discriminate.
  - cbn [ival rint]. split; reflexivity.
  - cbn [ival]. rewrite rint_of_float by assumption.
    assert (R : fle (S754_finite s m e) (S754_finite s m e) = true).
    { unfold fle, SFleb, SFcompare. rewrite Z.compare_refl.
      rewrite Pos.compare_cont_spec, Pos.compare_refl.
      destruct s; reflexivity. }
    split; exact R.
Qed.

Lemma fle_ival_le x y :
  binary32 x -> binary32 y -> is_finite x = true -> is_finite y = true ->
  ival x <= ival y -> fle x y = true.
Proof.
  intros Vx Vy Fx Fy H.
  destruct (float_value x Vx Fx) as [X1 _].
  destruct (float_value y Vy Fy) as [_ Y2].
  eapply fle_trans; [exact X1|].
  eapply fle_trans; [|exact Y2].
  now apply rint_mono.
Qed.

Lemma fkey_ival x y :
  is_finite x = true -> is_finite y = true -> fkey x = fkey y ->
  ival x = ival y.
Proof.
  intros Fx Fy.
  destruct x as [?|?| |sx mx ex]; try discriminate;
    destruct y as [?|?| |sy my ey]; try discriminate; cbn [fkey ival].
  - reflexivity.
  - destruct sy; discriminate.
  - destruct sx; discriminate.
  - destruct sx, sy; intros E; try discriminate;
      injection E as E1 E2; assert (ex = ey) by lia;
      assert (mx = my) by congruence; subst; reflexivity.
Qed.

Lemma key_lt_asym a b : key_lt a b -> key_lt b a -> False.
Proof.
  destruct a as [[a1 a2] a3], b as [[b1 b2] b3]. unfold key_lt. lia.
Qed.

Lemma key_lt_irrefl a : key_lt a a -> False.
Proof. intros H. exact (key_lt_asym a a H H). Qed.

Lemma fle_ival x y :
  binary32 x -> binary32 y -> is_finite x = true -> is_finite y = true ->
  (fle x y = true <-> ival x <= ival y).
Proof.
  intros Vx Vy Fx Fy. split; [|now apply fle_ival_le].
  intros H. destruct (Z_le_gt_dec (ival x) (ival y)) as [L|G]; [exact L|].
  exfalso.
  pose proof (fle_ival_le y x Vy Vx Fy Fx ltac:(lia)) as H'.
  apply fle_key in H. apply fle_key in H'.
  destruct H as [_ [_ [H|H]]], H' as [_ [_ [H'|H']]].
  - exact (key_lt_asym _ _ H H').
  - rewrite H' in H. exact (key_lt_irrefl _ H).
  - rewrite H in H'. exact (key_lt_irrefl _ H').
  - pose proof (fkey_ival x y Fx Fy H). lia.
Qed.

(** *** Alignment of the operands of a sum *)

Lemma pos_iter_xO m d : Z.pos (Pos.iter xO m d) = Z.pos m * 2 ^ Z.pos d.
Proof.
  induction d as [|d IH] using Pos.peano_ind.
  - cbn [Pos.iter]. rewrite (Pos2Z.inj_xO m). change (2 ^ 1) with 2. lia.
  - rewrite Pos.iter_succ, (Pos2Z.inj_xO (Pos.iter xO m d)), IH,
      Pos2Z.inj_succ.
    unfold Z.succ. rewrite pow2_succ by lia. ring.
Qed.

Lemma shl_align_spec mx ex t :
  snd (shl_align mx ex t) = Z.min ex t /\
  Z.pos (fst (shl_align mx ex t))
  = Z.pos mx * 2 ^ (ex - snd (shl_align mx ex t)).
Proof.
  unfold shl_align. destruct (t - ex) as [|p|p] eqn:E; cbn [fst snd].
  - split; [lia|]. replace (ex - ex) with 0 by lia. change (2 ^ 0) with 1. lia.
  - split; [lia|]. replace (ex - ex) with 0 by lia. change (2 ^ 0) with 1. lia.
  - split; [lia|]. rewrite pos_iter_xO. f_equal. f_equal. lia.
Qed.

Lemma Zdigits2_mul_pow2 m j :
  0 < m -> 0 <= j -> Zdigits2 (m * 2 ^ j) = Zdigits2 m + j.
Proof.
  intros Hm Hj. destruct (Zdigits2_bounds m Hm) as [G1 [G2 G3]].
  pose proof (pow2_pos j Hj).
  apply Zdigits2_unique; [lia|].
  replace (Zdigits2 m + j - 1) with ((Zdigits2 m - 1) + j) by lia.
  rewrite !Z.pow_add_r by lia. nia.
Qed.

Lemma binary_round_rnd s m e :
  -149 <= e ->
  binary_round prec emax s m e = rnd s (2 ^ (e + 149) * Z.pos m) 1 (-149).
Proof.
  intros He. unfold binary_round. rewrite fexp_eq.
  change (Z.pos (digits2_pos m)) with (Zdigits2 (Z.pos m)).
  set (t := fexp32 (Zdigits2 (Z.pos m) + e)).
  destruct (shl_align_spec m e t) as [E2 E1].
  destruct (shl_align m e t) as [mz ez]. cbn [fst snd] in E1, E2.
  assert (Ht : -149 <= t) by (unfold t, fexp32; lia).
  assert (Hez : -149 <= ez <= e) by lia.
  pose proof (pow2_pos (e - ez) ltac:(lia)) as Hp.
  assert (P : pre (Z.pos mz) 1 ez).
  { unfold pre, target. rewrite Z.div_1_r, E1.
    rewrite Zdigits2_mul_pow2 by lia.
    replace (Zdigits2 (Z.pos m) + (e - ez) + ez)
      with (Zdigits2 (Z.pos m) + e) by lia.
    fold t. lia. }
  rewrite (bra_rnd s (Z.pos mz) loc_Exact (Z.pos mz) 1 ez);
    [|lia|lia|now rewrite rec_of_exact|exact P].
  destruct (rnd_refine s (Z.pos mz) 1 ez (ez + 149) ltac:(lia) ltac:(lia)
              ltac:(lia) P) as [_ R].
  replace (ez - (ez + 149)) with (-149) in R by lia.
  rewrite <- R. f_equal. rewrite E1.
  replace (e + 149) with ((ez + 149) + (e - ez)) by lia.
  rewrite (Z.pow_add_r 2 (ez + 149) (e - ez)) by lia. ring.
Qed.

Lemma binary_normalize_rint S e sz :
  -149 <= e ->
  fequiv (binary_normalize prec emax S e sz) (rint (S * 2 ^ (e + 149))) /\
  (S <> 0 -> binary_normalize prec emax S e sz = rint (S * 2 ^ (e + 149))).
Proof.
  intros He. pose proof (pow2_pos (e + 149) ltac:(lia)) as Hp.
  destruct S as [|p|p]; cbn [binary_normalize].
  - split; [|congruence]. cbn [Z.mul rint]. split; destruct sz; reflexivity.
  - rewrite binary_round_rnd by assumption.
    rewrite rint_pos by nia.
    replace (Z.pos p * 2 ^ (e + 149)) with (2 ^ (e + 149) * Z.pos p) by ring.
    pose proof (rint_mono (2 ^ (e + 149) * Z.pos p) (2 ^ (e + 149) * Z.pos p)
                  ltac:(lia)) as R.
    rewrite rint_pos in R by nia.
    split; [split; exact R | reflexivity].
  - rewrite binary_round_rnd by assumption.
    rewrite rint_neg by nia.
    replace (- (Z.neg p * 2 ^ (e + 149))) with (2 ^ (e + 149) * Z.pos p)
      by lia.
    pose proof (rint_mono (- (2 ^ (e + 149) * Z.pos p))
                  (- (2 ^ (e + 149) * Z.pos p)) ltac:(lia)) as R.
    rewrite rint_neg in R by nia.
    replace (- - (2 ^ (e + 149) * Z.pos p)) with (2 ^ (e + 149) * Z.pos p)
      in R by lia.
    split; [split; exact R | reflexivity].
Qed.

Lemma aligned_value s m e ez :
  ez <= e -> -149 <= ez ->
  cond_Zopp s (Z.pos (fst (shl_align m e ez))) * 2 ^ (ez + 149)
  = signed_mantissa s m * 2 ^ (e + 149).
Proof.
  intros H1 H2. destruct (shl_align_spec m e ez) as [E2 E1].
  rewrite E1, E2. replace (Z.min e ez) with ez by lia.
  replace (e + 149) with ((e - ez) + (ez + 149)) by lia.
  rewrite (Z.pow_add_r 2 (e - ez) (ez + 149)) by lia.
  unfold cond_Zopp, signed_mantissa. destruct s; lia.
Qed.

(** *** Subtraction and addition *)

Lemma fsub_value x y :
  binary32 x -> binary32 y -> is_finite x = true -> is_finite y = true ->
  fequiv (fsub x y) (rint (ival x - ival y)) /\ binary32 (fsub x y).
Proof.
  intros Vx Vy Fx Fy.
  destruct x as [sx|?| |sx mx ex]; try discriminate;
    destruct y as [sy|?| |sy my ey]; try discriminate.
  - split; [|destruct sx, sy; reflexivity].
    cbn [ival]. destruct sx, sy; split; reflexivity.
  - assert (Vy' : binary32 (S754_finite (negb sy) my ey)) by exact Vy.
    split; [|exact Vy'].
    cbn [fsub SFsub ival]. replace (0 - signed_mantissa sy my * 2 ^ (ey + 149))
      with (ival (S754_finite (negb sy) my ey))
      by (cbn [ival]; unfold signed_mantissa; destruct sy; cbn [negb]; lia).
    apply float_value; [exact Vy' | reflexivity].
  - split; [|exact Vx]. cbn [ival]. rewrite Z.sub_0_r.
    change (fsub (S754_finite sx mx ex) (S754_zero sy))
      with (S754_finite sx mx ex).
    apply (float_value (S754_finite sx mx ex)); [exact Vx | reflexivity].
  - destruct (valid_finite _ _ _ Vx) as [Hx _].
    destruct (valid_finite _ _ _ Vy) as [Hy _].
    unfold fsub, SFsub. cbv zeta.
    destruct (binary_normalize_rint
                (cond_Zopp sx (Z.pos (fst (shl_align mx ex (Z.min ex ey))))
                 - cond_Zopp sy (Z.pos (fst (shl_align my ey (Z.min ex ey)))))
                (Z.min ex ey) false ltac:(lia)) as [E E'].
    rewrite Z.mul_sub_distr_r, !aligned_value in E by lia.
    split; [exact E|].
    destruct (Z.eq_dec
                (cond_Zopp sx (Z.pos (fst (shl_align mx ex (Z.min ex ey))))
                 - cond_Zopp sy (Z.pos (fst (shl_align my ey (Z.min ex ey)))))
                0) as [E0|N0].
    + rewrite E0. reflexivity.
    + rewrite (E' N0). apply rint_valid.
Qed.

Lemma fadd_value x y :
  binary32 x -> binary32 y -> is_finite x = true -> is_finite y = true ->
  fequiv (fadd x y) (rint (ival x + ival y)) /\ binary32 (fadd x y).
Proof.
  intros Vx Vy Fx Fy.
  destruct x as [sx|?| |sx mx ex]; try discriminate;
    destruct y as [sy|?| |sy my ey]; try discriminate.
  - split; [|destruct sx, sy; reflexivity].
    cbn [ival]. destruct sx, sy; split; reflexivity.
  - split; [|exact Vy]. cbn [ival]. rewrite Z.add_0_l.
    change (fadd (S754_zero sx) (S754_finite sy my ey))
      with (S754_finite sy my ey).
    apply (float_value (S754_finite sy my ey)); [exact Vy | reflexivity].
  - split; [|exact Vx]. cbn [ival]. rewrite Z.add_0_r.
    change (fadd (S754_finite sx mx ex) (S754_zero sy))
      with (S754_finite sx mx ex).
    apply (float_value (S754_finite sx mx ex)); [exact Vx | reflexivity].
  - destruct (valid_finite _ _ _ Vx) as [Hx _].
    destruct (valid_finite _ _ _ Vy) as [Hy _].
    unfold fadd, SFadd. cbv zeta.
    destruct (binary_normalize_rint
                (cond_Zopp sx (Z.pos (fst (shl_align mx ex (Z.min ex ey))))
                 + cond_Zopp sy (Z.pos (fst (shl_align my ey (Z.min ex ey)))))
                (Z.min ex ey) false ltac:(lia)) as [E E'].
    rewrite Z.mul_add_distr_r, !aligned_value in E by lia.
    split; [exact E|].
    destruct (Z.eq_dec
                (cond_Zopp sx (Z.pos (fst (shl_align mx ex (Z.min ex ey))))
                 + cond_Zopp sy (Z.pos (fst (shl_align my ey (Z.min ex ey)))))
                0) as [E0|N0].
    + rewrite E0. reflexivity.
    + rewrite (E' N0). apply rint_valid.
Qed.

Lemma fsub_mono x1 x2 m :
  binary32 x1 -> binary32 x2 -> binary32 m ->
  is_finite x1 = true -> is_finite x2 = true -> is_finite m = true ->
  ival x1 <= ival x2 -> fle (fsub x1 m) (fsub x2 m) = true.
Proof.
  intros V1 V2 Vm F1 F2 Fm H.
  destruct (fsub_value x1 m V1 Vm F1 Fm) as [[A _] _].
  destruct (fsub_value x2 m V2 Vm F2 Fm) as [[_ B] _].
  eapply fle_trans; [exact A|]. eapply fle_trans; [|exact B].
  apply rint_mono. lia.
Qed.

Lemma fsub_below a r :
  binary32 a -> binary32 r -> is_finite a = true -> is_finite r = true ->
  0 <= ival r -> fle (fsub a r) a = true.
Proof.
  intros Va Vr Fa Fr H.
  destruct (fsub_value a r Va Vr Fa Fr) as [[A _] _].
  destruct (float_value a Va Fa) as [_ B].
  eapply fle_trans; [exact A|]. eapply fle_trans; [|exact B].
  apply rint_mono. lia.
Qed.

Lemma fadd_above a r :
  binary32 a -> binary32 r -> is_finite a = true -> is_finite r = true ->
  0 <= ival r -> fle a (fadd a r) = true.
Proof.
  intros Va Vr Fa Fr H.
  destruct (fadd_value a r Va Vr Fa Fr) as [[_ A] _].
  destruct (float_value a Va Fa) as [B _].
  eapply fle_trans; [exact B|]. eapply fle_trans; [|exact A].
  apply rint_mono. lia.
Qed.

(** *** Division *)

Lemma new_location_rec d q r :
  0 < d -> 0 <= r < d ->
  shr_record_of_loc q (new_location d r)
  = Build_shr_record q (d <=? 2 * r)
      (negb (r =? 0) && negb (2 * r =? d)).
Proof.
  intros Hd Hr. unfold new_location, new_location_even, new_location_odd.
  pose proof (Zmod_even d) as Ev.
  pose proof (Z.div_mod d 2 ltac:(lia)) as Ed.
  destruct (Z.even d); destruct (Z.eqb_spec r 0) as [->|N];
    cbn [shr_record_of_loc].
  - destruct (Z.leb_spec d (2 * 0)); destruct (Z.eqb_spec (2 * 0) d);
      try lia; reflexivity.
  - destruct (Z.compare_spec (2 * r) d); cbn [shr_record_of_loc];
      destruct (Z.leb_spec d (2 * r)); destruct (Z.eqb_spec (2 * r) d);
      try lia; reflexivity.
  - destruct (Z.leb_spec d (2 * 0)); destruct (Z.eqb_spec (2 * 0) d);
      try lia; reflexivity.
  - destruct (Z.compare_spec (2 * r + 1) d); cbn [shr_record_of_loc];
      destruct (Z.leb_spec d (2 * r)); destruct (Z.eqb_spec (2 * r) d);
      try lia; reflexivity.
Qed.

Lemma div_eucl_eq a b : Z.div_eucl a b = (a / b, a mod b).
Proof. unfold Z.div, Z.modulo. now destruct (Z.div_eucl a b). Qed.

Lemma fexp32_mono a b : a <= b -> fexp32 a <= fexp32 b.
Proof. unfold fexp32. lia. Qed.

Lemma fdiv_finite sy my ey sc mc ec :
  let e' := Z.min (fexp32 (Zdigits2 (Z.pos my) + ey
                           - (Zdigits2 (Z.pos mc) + ec)))
                  (ey - ec) in
  fdiv (S754_finite sy my ey) (S754_finite sc mc ec)
  = rnd (xorb sy sc) (Z.pos my * 2 ^ (ey - ec - e')) (Z.pos mc) e' /\
  pre (Z.pos my * 2 ^ (ey - ec - e')) (Z.pos mc) e'.
Proof.
  intros e'.
  assert (Hs : 0 <= ey - ec - e') by (unfold e'; lia).
  pose proof (pow2_pos _ Hs) as Hp.
  set (n := Z.pos my * 2 ^ (ey - ec - e')).
  assert (Hn : 0 < n) by (unfold n; nia).
  assert (P : pre n (Z.pos mc) e').
  { unfold pre, target.
    destruct (Zdigits2_bounds (Z.pos my) ltac:(lia)) as [Y1 [Y2 Y3]].
    destruct (Zdigits2_bounds (Z.pos mc) ltac:(lia)) as [C1 [C2 C3]].
    set (dy := Zdigits2 (Z.pos my)) in *.
    set (dc := Zdigits2 (Z.pos mc)) in *.
    assert (Hq : dy + (ey - ec - e') - dc <= Zdigits2 (n / Z.pos mc)).
    { destruct (Z_le_gt_dec (dy + (ey - ec - e') - dc) 0) as [L|G].
      - pose proof (Zdigits2_nonneg (n / Z.pos mc)). lia.
      - apply Zdigits2_ge; [lia|].
        apply Z.div_le_lower_bound; [lia|].
        assert (Epow : 2 ^ dc * 2 ^ (dy + (ey - ec - e') - dc - 1)
                       = 2 ^ (dy - 1) * 2 ^ (ey - ec - e')).
        { rewrite <- !Z.pow_add_r by lia. f_equal. lia. }
        pose proof (pow2_pos (dy + (ey - ec - e') - dc - 1) ltac:(lia)).
        unfold n. nia. }
    apply Z.le_trans
      with (fexp32 (dy + ey - (dc + ec))); [unfold e'; fold dy dc; lia|].
    apply fexp32_mono. lia. }
  split; [|exact P].
  unfold fdiv, SFdiv, SFdiv_core_binary. cbv zeta.
  rewrite !fexp_eq. fold e'.
  assert (Em : match ey - ec - e' with
               | 0 => Z.pos my
               | Z.pos _ => Z.shiftl (Z.pos my) (ey - ec - e')
               | Z.neg _ => 0
               end = n).
  { unfold n. destruct (ey - ec - e') as [|p|p] eqn:E.
    - change (2 ^ 0) with 1. lia.
    - apply Z.shiftl_mul_pow2. lia.
    - lia. }
  rewrite Em, div_eucl_eq.
  apply bra_rnd; try lia; [|exact P].
  rewrite new_location_rec by (try lia; apply Z.mod_pos_bound; lia).
  reflexivity.
Qed.

Lemma fdiv_valid y c : binary32 (fdiv y c).
Proof.
  destruct y as [sy|sy| |sy my ey], c as [sc|sc| |sc mc ec];
    try reflexivity.
  destruct (fdiv_finite sy my ey sc mc ec) as [E P]. rewrite E.
  apply rnd_valid; [|lia|exact P].
  pose proof (pow2_pos (ey - ec -
     Z.min (fexp32 (Zdigits2 (Z.pos my) + ey - (Zdigits2 (Z.pos mc) + ec)))
           (ey - ec)) ltac:(lia)). nia.
Qed.

Lemma pow_le_shift m1 m2 a1 a2 b1 b2 :
  0 <= a1 -> 0 <= a2 -> 0 <= b1 -> 0 <= b2 -> a1 - b1 = a2 - b2 ->
  m1 * 2 ^ a1 <= m2 * 2 ^ a2 -> m1 * 2 ^ b1 <= m2 * 2 ^ b2.
Proof.
  intros Ha1 Ha2 Hb1 Hb2 E H.
  destruct (Z_le_gt_dec 0 (a1 - b1)) as [K|K].
  - replace a1 with (b1 + (a1 - b1)) in H by lia.
    replace a2 with (b2 + (a1 - b1)) in H by lia.
    rewrite !Z.pow_add_r in H by lia.
    pose proof (pow2_pos (a1 - b1) K). nia.
  - replace b1 with (a1 + (b1 - a1)) by lia.
    replace b2 with (a2 + (b1 - a1)) by lia.
    rewrite !Z.pow_add_r by lia.
    pose proof (pow2_pos (b1 - a1) ltac:(lia)). nia.
Qed.

Lemma fdiv_mono_pos m1 e1 m2 e2 mc ec :
  -149 <= e1 -> -149 <= e2 ->
  Z.pos m1 * 2 ^ (e1 + 149) <= Z.pos m2 * 2 ^ (e2 + 149) ->
  fle (fdiv (S754_finite false m1 e1) (S754_finite false mc ec))
      (fdiv (S754_finite false m2 e2) (S754_finite false mc ec)) = true /\
  fle (fdiv (S754_finite true m2 e2) (S754_finite false mc ec))
      (fdiv (S754_finite true m1 e1) (S754_finite false mc ec)) = true.
Proof.
  intros H1 H2 H.
  destruct (fdiv_finite false m1 e1 false mc ec) as [E1 P1].
  destruct (fdiv_finite false m2 e2 false mc ec) as [E2 P2].
  destruct (fdiv_finite true m1 e1 false mc ec) as [E1' _].
  destruct (fdiv_finite true m2 e2 false mc ec) as [E2' _].
  cbv zeta in *. cbn [xorb] in *.
  set (t1 := Z.min (fexp32 (Zdigits2 (Z.pos m1) + e1
                            - (Zdigits2 (Z.pos mc) + ec))) (e1 - ec)) in *.
  set (t2 := Z.min (fexp32 (Zdigits2 (Z.pos m2) + e2
                            - (Zdigits2 (Z.pos mc) + ec))) (e2 - ec)) in *.
  rewrite E1, E2, E1', E2'.
  assert (S1 : 0 <= e1 - ec - t1) by (unfold t1; lia).
  assert (S2 : 0 <= e2 - ec - t2) by (unfold t2; lia).
  pose proof (pow2_pos _ S1). pose proof (pow2_pos _ S2).
  apply (rnd_mono_gen _ _ (Z.pos mc) t1 t2 (Z.min t1 t2));
    try assumption; try lia; try nia.
  rewrite (Z.mul_comm (Z.pos m1)), (Z.mul_comm (Z.pos m2)), !Z.mul_assoc.
  rewrite <- !Z.pow_add_r by lia.
  rewrite (Z.mul_comm _ (Z.pos m1)), (Z.mul_comm _ (Z.pos m2)).
  apply (pow_le_shift _ _ (e1 + 149) (e2 + 149)); lia.
Qed.

Lemma fdiv_mono y1 y2 mc ec :
  binary32 y1 -> binary32 y2 -> is_finite y1 = true -> is_finite y2 = true ->
  ival y1 <= ival y2 ->
  fle (fdiv y1 (S754_finite false mc ec)) (fdiv y2 (S754_finite false mc ec))
  = true.
Proof.
  intros V1 V2 F1 F2 H.
  destruct y1 as [s1|?| |s1 m1 e1]; try discriminate;
    destruct y2 as [s2|?| |s2 m2 e2]; try discriminate.
  - destruct s1, s2; reflexivity.
  - destruct (valid_finite _ _ _ V2) as [B2 _].
    destruct (ival_sign s2 m2 e2 ltac:(lia)) as [_ Sn].
    change (ival (S754_zero s1)) with 0 in H.
    destruct s2; [specialize (Sn eq_refl); lia|].
    destruct (fdiv_finite false m2 e2 false mc ec) as [E P].
    cbv zeta in E, P. rewrite E.
    change (fdiv (S754_zero s1) (S754_finite false mc ec))
      with (S754_zero (xorb s1 false)).
    pose proof (pow2_pos (e2 - ec -
      Z.min (fexp32 (Zdigits2 (Z.pos m2) + e2 - (Zdigits2 (Z.pos mc) + ec)))
            (e2 - ec)) ltac:(lia)).
    apply (rnd_signs 0 _ 1 (Z.pos mc) (-149) _ (xorb s1 false));
      try lia; try nia; [apply pre_int; lia | exact P].
  - destruct (valid_finite _ _ _ V1) as [B1 _].
    destruct (ival_sign s1 m1 e1 ltac:(lia)) as [Sp _].
    change (ival (S754_zero s2)) with 0 in H.
    destruct s1; [|specialize (Sp eq_refl); lia].
    destruct (fdiv_finite true m1 e1 false mc ec) as [E P].
    cbv zeta in E, P. rewrite E.
    change (fdiv (S754_zero s2) (S754_finite false mc ec))
      with (S754_zero (xorb s2 false)).
    pose proof (pow2_pos (e1 - ec -
      Z.min (fexp32 (Zdigits2 (Z.pos m1) + e1 - (Zdigits2 (Z.pos mc) + ec)))
            (e1 - ec)) ltac:(lia)).
    apply (rnd_signs _ 0 (Z.pos mc) 1 _ (-149) (xorb s2 false));
      try lia; try nia; [exact P | apply pre_int; lia].
  - destruct (valid_finite _ _ _ V1) as [B1 _].
    destruct (valid_finite _ _ _ V2) as [B2 _].
    destruct (ival_sign s1 m1 e1 ltac:(lia)) as [Sp1 Sn1].
    destruct (ival_sign s2 m2 e2 ltac:(lia)) as [Sp2 Sn2].
    pose proof (pow2_pos (e1 + 149) ltac:(lia)).
    pose proof (pow2_pos (e2 + 149) ltac:(lia)).
    destruct s1, s2.
    + apply (fdiv_mono_pos m2 e2 m1 e1 mc ec); try lia.
      cbn [ival] in H. unfold signed_mantissa in H. lia.
    + destruct (fdiv_finite true m1 e1 false mc ec) as [E1 P1].
      destruct (fdiv_finite false m2 e2 false mc ec) as [E2 P2].
      cbv zeta in *. rewrite E1, E2.
      pose proof (pow2_pos (e1 - ec -
        Z.min (fexp32 (Zdigits2 (Z.pos m1) + e1 - (Zdigits2 (Z.pos mc) + ec)))
              (e1 - ec)) ltac:(lia)).
      pose proof (pow2_pos (e2 - ec -
        Z.min (fexp32 (Zdigits2 (Z.pos m2) + e2 - (Zdigits2 (Z.pos mc) + ec)))
              (e2 - ec)) ltac:(lia)).
      apply (rnd_signs _ _ (Z.pos mc) (Z.pos mc) _ _ false);
        try lia; try nia; assumption.
    + specialize (Sp1 eq_refl). specialize (Sn2 eq_refl). lia.
    + apply (fdiv_mono_pos m1 e1 m2 e2 mc ec); try lia.
      cbn [ival] in H. unfold signed_mantissa in H. lia.
Qed.

(** *** Conversion to [int] *)

Lemma convert_finite s m e :
  int_defined (S754_finite s m e) = in_int (ftrunc s m e) /\
  float_to_int (S754_finite s m e)
  = if in_int (ftrunc s m e) then ftrunc s m e else INT_MIN.
Proof. split; reflexivity. Qed.

Lemma ifloor_shift sm e :
  -149 <= e -> e < 0 -> sm * 2 ^ (e + 149) / 2 ^ 149 = sm / 2 ^ (- e).
Proof.
  intros H1 H2.
  replace (2 ^ 149) with (2 ^ (- e) * 2 ^ (e + 149)).
  - apply Z.div_mul_cancel_r.
    + pose proof (pow2_pos (- e) ltac:(lia)). lia.
    + pose proof (pow2_pos (e + 149) ltac:(lia)). lia.
  - rewrite <- Z.pow_add_r by lia. f_equal. lia.
Qed.

Lemma small_int_float n :
  n <> 0 -> Z.abs n < 2 ^ 24 ->
  exists s m e,
    binary_normalize prec emax n 0 false = S754_finite s m e /\
    ftrunc s m e = n.
Proof.
  intros N0 B.
  set (a := Z.abs n). assert (Ha : 0 < a) by (unfold a; lia).
  destruct (Zdigits2_bounds a Ha) as [G1 [G2 G3]].
  pose proof (Zdigits2_le a 24 ltac:(lia) ltac:(lia) B) as G4.
  set (g := Zdigits2 a) in *. set (j := 24 - g).
  pose proof (pow2_pos j ltac:(unfold j; lia)) as Hp.
  set (s := n <? 0).
  assert (Es : signed_mantissa s (Z.to_pos (a * 2 ^ j)) = n * 2 ^ j).
  { unfold signed_mantissa, s.
    destruct (Z.ltb_spec n 0); [rewrite <- Pos2Z.opp_pos|];
      rewrite Z2Pos.id by nia; unfold a; nia. }
  assert (V : binary32 (S754_finite s (Z.to_pos (a * 2 ^ j)) (- j))).
  { unfold binary32, valid_binary, bounded, canonical_mantissa.
    rewrite fexp_eq.
    change (Z.pos (digits2_pos (Z.to_pos (a * 2 ^ j))))
      with (Zdigits2 (Z.pos (Z.to_pos (a * 2 ^ j)))).
    rewrite Z2Pos.id by nia.
    rewrite Zdigits2_mul_pow2 by (unfold j; lia). fold g.
    change (emax - prec) with 104.
    apply andb_true_iff. split; [apply Z.eqb_eq | apply Z.leb_le].
    - unfold fexp32, j. lia.
    - unfold j. lia. }
  exists s, (Z.to_pos (a * 2 ^ j)), (- j). split.
  - destruct (binary_normalize_rint n 0 false ltac:(lia)) as [_ E].
    rewrite (E N0). rewrite <- (rint_of_float _ _ _ V). f_equal.
    rewrite Es. rewrite <- Z.mul_assoc, <- Z.pow_add_r by (unfold j; lia).
    f_equal. f_equal. lia.
  - unfold ftrunc. rewrite Es.
    destruct (Z.leb_spec 0 (- j)).
    + assert (j = 0) by (unfold j in *; lia).
      replace (- j) with 0 by lia. rewrite Z.shiftl_0_r.
      replace j with 0 by lia. change (2 ^ 0) with 1. lia.
    + rewrite Z.opp_involutive. apply Z.quot_mul. lia.
Qed.

Lemma floor_convert z :
  binary32 z -> is_finite z = true ->
  int_defined (floorf z) = in_int (ifloor z) /\
  float_to_int (floorf z)
  = if in_int (ifloor z) then ifloor z else INT_MIN.
Proof.
  intros V F. destruct z as [s|?| |s m e]; try discriminate.
  - split; reflexivity.
  - destruct (valid_finite s m e V) as [He [_ [U _]]].
    unfold ifloor. cbn [ival floorf].
    destruct (Z.leb_spec 0 e) as [L|L].
    + assert (E : signed_mantissa s m * 2 ^ (e + 149) / 2 ^ 149
                  = ftrunc s m e).
      { unfold ftrunc. destruct (Z.leb_spec 0 e); [|lia].
        rewrite Z.shiftl_mul_pow2 by lia.
        rewrite Z.pow_add_r, Z.mul_assoc by lia.
        apply Z.div_mul. pose proof (pow2_pos 149 ltac:(lia)). lia. }
      rewrite E. apply convert_finite.
    + rewrite ifloor_shift by lia.
      rewrite Z.shiftr_div_pow2 by lia.
      set (n := signed_mantissa s m / 2 ^ (- e)).
      assert (Hn : Z.abs n < 2 ^ 24).
      { pose proof (pow2_pos (- e) ltac:(lia)) as Hp.
        assert (- Z.pos m <= n <= Z.pos m).
        { unfold n, signed_mantissa. destruct s.
          - split.
            + apply Z.div_le_lower_bound; [lia|].
              rewrite <- Pos2Z.opp_pos. nia.
            + apply Z.lt_le_incl. apply Z.lt_le_trans with 0; [|lia].
              apply Z.div_lt_upper_bound; lia.
          - split.
            + apply Z.le_trans with 0; [lia|]. apply Z.div_pos; lia.
            + apply Z.div_le_upper_bound; [lia|]. nia. }
        lia. }
      destruct (Z.eq_dec n 0) as [E0|N0].
      * rewrite E0. split; reflexivity.
      * destruct (small_int_float n N0 Hn) as [s' [m' [e' [E T]]]].
        rewrite E, <- T. apply convert_finite.
Qed.

(** *** Which operands give a finite result *)

Lemma int_defined_finite x : int_defined x = true -> is_finite x = true.
Proof. destruct x; try discriminate; reflexivity. Qed.

Lemma floorf_finite_inv z : is_finite (floorf z) = true -> is_finite z = true.
Proof. destruct z; try discriminate; reflexivity. Qed.

Lemma fdiv_finite_inv y c :
  is_finite (fdiv y c) = true ->
  is_finite y = true /\
  ((exists s m e, c = S754_finite s m e) \/ (exists s, c = S754_infinity s)).
Proof.
  destruct y as [sy|sy| |sy my ey], c as [sc|sc| |sc mc ec];
    try discriminate; intros _; (split; [reflexivity|]); eauto.
Qed.

Lemma fsub_finite_inv x y :
  is_finite (fsub x y) = true -> is_finite x = true /\ is_finite y = true.
Proof.
  destruct x as [sx|sx| |sx mx ex], y as [sy|sy| |sy my ey];
    try discriminate; try (intros _; split; reflexivity);
    destruct sx, sy; discriminate.
Qed.

Lemma fadd_finite_inv x y :
  is_finite (fadd x y) = true -> is_finite x = true /\ is_finite y = true.
Proof.
  destruct x as [sx|sx| |sx mx ex], y as [sy|sy| |sy my ey];
    try discriminate; try (intros _; split; reflexivity);
    destruct sx, sy; discriminate.
Qed.

Lemma fle_between_finite u v w :
  fle u v = true -> fle v w = true ->
  is_finite u = true -> is_finite w = true -> is_finite v = true.
Proof.
  intros H1 H2 Fu Fw.
  destruct v as [sv|sv| |sv mv ev]; try reflexivity.
  - destruct sv.
    + destruct u as [su|su| |su mu eu]; try discriminate;
        unfold fle, SFleb, SFcompare in H1; discriminate.
    + destruct w as [sw|sw| |sw mw ew]; try discriminate;
        unfold fle, SFleb, SFcompare in H2; discriminate.
  - destruct u; discriminate.
Qed.

Lemma positive_finite r :
  binary32 r -> is_finite r = true -> fle r f0 = false -> 0 < ival r.
Proof.
  intros V F H. unfold fle, SFleb, SFcompare, f0 in H.
  destruct r as [s|s| |s m e]; try discriminate.
  - destruct (valid_finite s m e V) as [He _].
    destruct (ival_sign s m e ltac:(lia)) as [Sp _].
    destruct s; [discriminate|]. now apply Sp.
Qed.

Lemma clamp_index_mono i j dim :
  i <= j -> clamp_index i dim <= clamp_index j dim.
Proof. unfold clamp_index. lia. Qed.

(** *** One axis of [GetCellIndices] *)

Lemma axis_cell_mono lo size dim x1 x2 x3 :
  binary32 x1 -> binary32 x2 -> binary32 x3 ->
  binary32 lo -> fle size f0 = false ->
  is_finite x2 = true ->
  fle x1 x2 = true -> fle x2 x3 = true ->
  int_defined (floorf (fdiv (fsub x1 lo) size)) = true ->
  int_defined (floorf (fdiv (fsub x3 lo) size)) = true ->
  axis_cell lo size dim x1 <= axis_cell lo size dim x2
  <= axis_cell lo size dim x3.
Proof.
  intros V1 V2 V3 Vlo Hsize F2 L12 L23 D1 D3.
  pose proof (floorf_finite_inv _ (int_defined_finite _ D1)) as Fz1.
  pose proof (floorf_finite_inv _ (int_defined_finite _ D3)) as Fz3.
  destruct (fdiv_finite_inv _ _ Fz1) as [Fy1 Hc].
  destruct (fdiv_finite_inv _ _ Fz3) as [Fy3 _].
  destruct (fsub_finite_inv _ _ Fy1) as [F1 Flo].
  destruct (fsub_finite_inv _ _ Fy3) as [F3 _].
  assert (I12 : ival x1 <= ival x2) by (apply fle_ival; assumption).
  assert (I23 : ival x2 <= ival x3) by (apply fle_ival; assumption).
  destruct (fsub_value x1 lo V1 Vlo F1 Flo) as [_ Vy1].
  destruct (fsub_value x2 lo V2 Vlo F2 Flo) as [_ Vy2].
  destruct (fsub_value x3 lo V3 Vlo F3 Flo) as [_ Vy3].
  pose proof (fsub_mono x1 x2 lo V1 V2 Vlo F1 F2 Flo I12) as Ly12.
  pose proof (fsub_mono x2 x3 lo V2 V3 Vlo F2 F3 Flo I23) as Ly23.
  pose proof (fle_between_finite _ _ _ Ly12 Ly23 Fy1 Fy3) as Fy2.
  assert (J12 : ival (fsub x1 lo) <= ival (fsub x2 lo))
    by (apply fle_ival; assumption).
  assert (J23 : ival (fsub x2 lo) <= ival (fsub x3 lo))
    by (apply fle_ival; assumption).
  set (y1 := fsub x1 lo) in *. set (y2 := fsub x2 lo) in *.
  set (y3 := fsub x3 lo) in *.
  unfold axis_cell. fold y1 y2 y3.
  destruct Hc as [[s [m [e ->]]] | [s ->]].
  - destruct s; [discriminate|].
    pose proof (fdiv_mono y1 y2 m e Vy1 Vy2 Fy1 Fy2 J12) as Lz12.
    pose proof (fdiv_mono y2 y3 m e Vy2 Vy3 Fy2 Fy3 J23) as Lz23.
    pose proof (fle_between_finite _ _ _ Lz12 Lz23 Fz1 Fz3) as Fz2.
    set (c := S754_finite false m e) in *.
    pose proof (fdiv_valid y1 c) as Vz1.
    pose proof (fdiv_valid y2 c) as Vz2.
    pose proof (fdiv_valid y3 c) as Vz3.
    assert (K12 : ival (fdiv y1 c) <= ival (fdiv y2 c))
      by (apply fle_ival; assumption).
    assert (K23 : ival (fdiv y2 c) <= ival (fdiv y3 c))
      by (apply fle_ival; assumption).
    destruct (floor_convert _ Vz1 Fz1) as [A1 B1].
    destruct (floor_convert _ Vz2 Fz2) as [A2 B2].
    destruct (floor_convert _ Vz3 Fz3) as [A3 B3].
    rewrite A1 in D1. rewrite A3 in D3.
    assert (N12 : ifloor (fdiv y1 c) <= ifloor (fdiv y2 c)).
    { apply Z.div_le_mono; [apply pow2_pos; lia | exact K12]. }
    assert (N23 : ifloor (fdiv y2 c) <= ifloor (fdiv y3 c)).
    { apply Z.div_le_mono; [apply pow2_pos; lia | exact K23]. }
    assert (D2 : in_int (ifloor (fdiv y2 c)) = true).
    { unfold in_int in *.
      rewrite andb_true_iff, Z.leb_le, Z.leb_le in *. lia. }
    rewrite B1, B2, B3, D1, D2, D3.
    split; apply clamp_index_mono; assumption.
  - destruct s; [discriminate|].
    assert (Z1 : fdiv y1 (S754_infinity false) = S754_zero (xorb (match y1 with S754_finite b _ _ | S754_zero b => b | _ => false end) false)).
    { destruct y1; try discriminate; reflexivity. }
    assert (Z2 : fdiv y2 (S754_infinity false) = S754_zero (xorb (match y2 with S754_finite b _ _ | S754_zero b => b | _ => false end) false)).
    { destruct y2; try discriminate; reflexivity. }
    assert (Z3 : fdiv y3 (S754_infinity false) = S754_zero (xorb (match y3 with S754_finite b _ _ | S754_zero b => b | _ => false end) false)).
    { destruct y3; try discriminate; reflexivity. }
    rewrite Z1, Z2, Z3. cbn [floorf float_to_int]. lia.
Qed.

Lemma axis_cell_between a r lo size dim :
  binary32 a -> binary32 r -> binary32 lo ->
  fle r f0 = false -> fle size f0 = false ->
  int_defined (floorf (fdiv (fsub (fsub a r) lo) size)) = true ->
  int_defined (floorf (fdiv (fsub (fadd a r) lo) size)) = true ->
  axis_cell lo size dim (fsub a r) <= axis_cell lo size dim a
  <= axis_cell lo size dim (fadd a r).
Proof.
  intros Va Vr Vlo Hr Hsize D1 D3.
  pose proof (floorf_finite_inv _ (int_defined_finite _ D1)) as Fz1.
  destruct (fdiv_finite_inv _ _ Fz1) as [Fy1 _].
  destruct (fsub_finite_inv _ _ Fy1) as [F1 _].
  destruct (fsub_finite_inv _ _ F1) as [Fa Fr].
  pose proof (positive_finite r Vr Fr Hr) as Pr.
  destruct (fsub_value a r Va Vr Fa Fr) as [_ V1].
  destruct (fadd_value a r Va Vr Fa Fr) as [_ V3].
  apply axis_cell_mono; try assumption.
  - apply fsub_below; try assumption; lia.
  - apply fadd_above; try assumption; lia.
Qed.

(** *** The cell of a position lies between the corner cells *)

Lemma GetCellIndices_axes g p :
  GetCellIndices g p
  = Vector3Int.mk
      (axis_cell (Vector3.x (gridMinBounds g)) (Vector3.x (gridCellSize g))
                 (gridDimX g) (Vector3.x p))
      (axis_cell (Vector3.y (gridMinBounds g)) (Vector3.y (gridCellSize g))
                 (gridDimY g) (Vector3.y p))
      (axis_cell (Vector3.z (gridMinBounds g)) (Vector3.z (gridCellSize g))
                 (gridDimZ g) (Vector3.z p)).
Proof. reflexivity. Qed.

Lemma positive_cell_size_positive c : fle (positive_cell_size c) f0 = false.
Proof.
  unfold positive_cell_size. destruct (fle c f0) eqn:E; [reflexivity|exact E].
Qed.

Lemma cell_size_positive g :
  grid_state g ->
  fle (Vector3.x (gridCellSize g)) f0 = false /\
  fle (Vector3.y (gridCellSize g)) f0 = false /\
  fle (Vector3.z (gridCellSize g)) f0 = false.
Proof.
  induction 1 as [worldMin worldMax cellSize g E | g objs _ IH].
  - unfold UniformGrid_new in E. cbv zeta in E.
    destruct (_ <? 0) in E; [discriminate|]. injection E as <-.
    cbn [gridCellSize positive_cell_sizes Vector3.x Vector3.y Vector3.z].
    repeat split; apply positive_cell_size_positive.
  - destruct (BuildInstanced_cells g objs) as [cells ->]. exact IH.
Qed.

Lemma build_radius_positive a :
  binary32 (Asteroid.collisionRadius a) ->
  binary32 (build_radius a) /\ fle (build_radius a) f0 = false.
Proof.
  intros V. unfold build_radius.
  destruct (fle (Asteroid.collisionRadius a) f0) eqn:E.
  - split; reflexivity.
  - split; assumption.
Qed.

Lemma position_cell_between g a :
  grid_state g ->
  binary32_vec (gridMinBounds g) ->
  binary32_vec (Asteroid.position a) ->
  binary32 (Asteroid.collisionRadius a) ->
  cell_defined g (BoundingBox.min (worldBounds a)) ->
  cell_defined g (BoundingBox.max (worldBounds a)) ->
  cell_between (GetCellIndices g (BoundingBox.min (worldBounds a)))
               (GetCellIndices g (Asteroid.position a))
               (GetCellIndices g (BoundingBox.max (worldBounds a))).
Proof.
  intros G [Bx [By Bz]] [Px [Py Pz]] Vr [Lx [Ly Lz]] [Hx [Hy Hz]].
  destruct (cell_size_positive g G) as [Sx [Sy Sz]].
  destruct (build_radius_positive a Vr) as [Vr' Hr].
  rewrite !GetCellIndices_axes. unfold cell_between.
  cbn [Vector3Int.x Vector3Int.y Vector3Int.z worldBounds
       BoundingBox.min BoundingBox.max Vector3.x Vector3.y Vector3.z].
  repeat split; apply axis_cell_between; assumption.
Qed.

Lemma GetCellIndices_with_cells g cells p :
  GetCellIndices (with_cells g cells) p = GetCellIndices g p.
Proof. reflexivity. Qed.

Lemma Get1DIndex_with_cells g cells ix iy iz :
  Get1DIndex (with_cells g cells) ix iy iz = Get1DIndex g ix iy iz.
Proof. reflexivity. Qed.

(* ================================================================== *)
(** * The claims *)

(** C1, as stated, fails on a grid whose cell count overflows [int]: on the
    65536 x 65536 x 1 grid the active asteroid [pebble], whose box lies in
    cell (0,0,0), is stored nowhere, and a query in that cell returns
    nothing. *)
Lemma query_misses_object_on_wide_grid :
  UniformGrid_new (vec 0 0 0) (vec 262144 262144 4) (vec 4 4 4) = Some wide_grid /\
  Asteroid.isActive pebble = true /\
  GetCellIndices wide_grid (BoundingBox.min (worldBounds pebble))
    = Vector3Int.mk 0 0 0 /\
  GetCellIndices wide_grid (BoundingBox.max (worldBounds pebble))
    = Vector3Int.mk 0 0 0 /\
  GetCellIndices wide_grid (vec 1 1 1) = Vector3Int.mk 0 0 0 /\
  Query (BuildInstanced wide_grid [pebble]) (vec 1 1 1) = [].
Proof. repeat split; vm_compute; reflexivity. Qed.

(** C1 (amended).  On a grid whose cell count [nx * ny * nz] fits in [int]:
    if an active object is handed to [BuildInstanced] and both corners of the
    box the build computes for it (position -/+ r, where r is the collision
    radius, or 0.5 when that radius is not positive) fall in one cell [c],
    then [Query p] contains the object's stored index [(int)i] for every
    position [p] whose clamped cell is [c]. *)
Theorem query_finds_object_in_its_cell g objs i a c p :
  grid_state g -> cells_fit g ->
  nth_error objs i = Some a -> Asteroid.isActive a = true ->
  GetCellIndices g (BoundingBox.min (worldBounds a)) = c ->
  GetCellIndices g (BoundingBox.max (worldBounds a)) = c ->
  GetCellIndices g p = c ->
  In (wrap32 (Z.of_nat i)) (Query (BuildInstanced g objs) p).
Proof.
  intros G F Hi Ha Hlo Hhi Hp.
  apply Query_center; auto using BuildInstanced_wf, BuildInstanced_fit.
  pose proof (BuildInstanced_reaches g objs i a c G F Hi Ha) as H.
  destruct (BuildInstanced_cells g objs) as [cells E].
  rewrite E in *.
  change (GetCellIndices (with_cells g cells) p) with (GetCellIndices g p).
  rewrite Hp. apply H.
  rewrite Hlo, Hhi. unfold cell_between. lia.
Qed.

Lemma query_finds_object_in_its_cell_witness :
  In 0 (Query (BuildInstanced small_grid small_objects) (vec 12 3 7)).
Proof.
  apply (query_finds_object_in_its_cell small_grid small_objects 0%nat rock
           (Vector3Int.mk 1 0 0) (vec 12 3 7)).
  - apply (grid_constructed (vec 0 0 0) (vec 40 40 40) (vec 10 10 10)).
    vm_compute. reflexivity.
  - vm_compute. discriminate.
  - reflexivity.
  - reflexivity.
  - vm_compute. reflexivity.
  - vm_compute. reflexivity.
  - vm_compute. reflexivity.
Defined.

(** C2.  The scenario of the specification: the grid with bounds
    (-50,-50,-50)..(50,50,50) and cells of 10 has dimensions (10,10,10) and
    1000 cells; after a build with object 0 at (5,5,5), radius 1, active,
    [Query (4,4,4)] contains 0, the ray from (-60,5,5) along (1,0,0) finds 0
    within distance 200 and does not within distance 50. *)
Theorem scenario_grid_queries :
  exists g,
    UniformGrid_new (vec (-50) (-50) (-50)) (vec 50 50 50) (vec 10 10 10)
      = Some g /\
    (gridDimX g, gridDimY g, gridDimZ g) = (10, 10, 10) /\
    totalCells g = 1000 /\
    length (gridCells g) = 1000%nat /\
    In 0 (Query (BuildInstanced g scenario_objects) (vec 4 4 4)) /\
    (exists r, QueryRay (BuildInstanced g scenario_objects) scenario_ray (fz 200)
                 = Some r /\ In 0 r) /\
    (exists r, QueryRay (BuildInstanced g scenario_objects) scenario_ray (fz 50)
                 = Some r /\ ~ In 0 r).
Proof.
  exists scenario_grid. split; [exact scenario_grid_constructed|].
  split; [reflexivity|]. split; [reflexivity|]. split; [reflexivity|].
  split; [vm_compute; auto|].
  split.
  - exists [0]. split; [vm_compute; reflexivity | simpl; auto].
  - exists []. split; [vm_compute; reflexivity | simpl; auto].
Qed.

Lemma stored_index_wraps_around n :
  Z.of_nat n = 4294967295 ->
  Z.of_nat (length (wreck :: repeat wreck n ++ [rock])) = 2 ^ 32 + 1 /\
  In 0 (Query (BuildInstanced small_grid (wreck :: repeat wreck n ++ [rock]))
              (vec 15 5 5)).
Proof.
  intros Hn.
  assert (G : grid_state small_grid)
    by exact (grid_constructed _ _ _ _ small_grid_constructed).
  assert (F : cells_fit small_grid) by (vm_compute; discriminate).
  split.
  - cbn [length]. rewrite length_app, repeat_length. cbn [length].
    rewrite Nat2Z.inj_succ, Nat2Z.inj_add, Hn. reflexivity.
  - assert (Hnth : nth_error (wreck :: repeat wreck n ++ [rock]) (S n)
                   = Some rock).
    { cbn [nth_error].
      rewrite nth_error_app2 by (rewrite repeat_length; lia).
      rewrite repeat_length, Nat.sub_diag. reflexivity. }
    assert (Elo : GetCellIndices small_grid (BoundingBox.min (worldBounds rock))
                  = Vector3Int.mk 1 0 0) by (vm_compute; reflexivity).
    assert (Ehi : GetCellIndices small_grid (BoundingBox.max (worldBounds rock))
                  = Vector3Int.mk 1 0 0) by (vm_compute; reflexivity).
    assert (Ec : GetCellIndices small_grid (vec 15 5 5) = Vector3Int.mk 1 0 0)
      by (vm_compute; reflexivity).
    assert (Hb : cell_between
                   (GetCellIndices small_grid
                      (BoundingBox.min (worldBounds rock)))
                   (Vector3Int.mk 1 0 0)
                   (GetCellIndices small_grid
                      (BoundingBox.max (worldBounds rock)))).
    { rewrite Elo, Ehi. unfold cell_between. cbn. lia. }
    pose proof (BuildInstanced_reaches small_grid _ _ rock
                  (Vector3Int.mk 1 0 0) G F Hnth eq_refl Hb) as H.
    rewrite Nat2Z.inj_succ, Hn in H.
    change (wrap32 (Z.succ 4294967295)) with 0 in H.
    apply Query_center;
      [apply BuildInstanced_wf, G | apply BuildInstanced_fit, F |].
    destruct (BuildInstanced_cells small_grid
                (wreck :: repeat wreck n ++ [rock])) as [cells E].
    rewrite E in *.
    change (GetCellIndices (with_cells small_grid cells) (vec 15 5 5))
      with (GetCellIndices small_grid (vec 15 5 5)).
    rewrite Ec. exact H.
Qed.

(** C3, as stated, fails on a snapshot of more than 2^32 objects: the
    stored index is [(int)i], so the active [rock] at position 2^32 of
    [crowded_snapshot] is stored as 0, and [Query] returns 0, the index of
    the inactive object at position 0. *)
Lemma inactive_index_returned_from_crowded_snapshot :
  Z.of_nat (length crowded_snapshot) = 2 ^ 32 + 1 /\
  nth_error crowded_snapshot 0 = Some wreck /\
  Asteroid.isActive wreck = false /\
  In 0 (Query (BuildInstanced small_grid crowded_snapshot) (vec 15 5 5)).
Proof.
  pose proof (stored_index_wraps_around (Z.to_nat 4294967295)
                (Z2Nat.id 4294967295 ltac:(lia))) as [Hl Hq].
  split; [exact Hl|]. split; [reflexivity|]. split; [reflexivity|].
  exact Hq.
Qed.

(** C3 (amended).  In a snapshot of at most 2^32 objects, an object that is
    inactive when [BuildInstanced] runs has its index - as the position [i]
    and as the stored value [(int)i], which agree below 2^31 - in no cell of
    the rebuilt grid and in no result of [Query] or [QueryRay] on it; the
    grid changes only at the next [BuildInstanced]. *)
Theorem inactive_objects_never_returned g objs i a w :
  grid_state g ->
  Z.of_nat (length objs) <= 2 ^ 32 ->
  nth_error objs i = Some a -> Asteroid.isActive a = false ->
  w = Z.of_nat i \/ w = wrap32 (Z.of_nat i) ->
  (forall j, ~ In w (nth j (gridCells (BuildInstanced g objs)) [])) /\
  (forall p, ~ In w (Query (BuildInstanced g objs) p)) /\
  (forall ray d r, QueryRay (BuildInstanced g objs) ray d = Some r ->
                   ~ In w r).
Proof.
  intros G Hlen Hi Ha Hw.
  assert (Hi' : (i < length objs)%nat) by (apply nth_error_Some; congruence).
  assert (Hno : ~ in_some_cell (BuildInstanced g objs) w).
  { intros [j Hj].
    apply BuildInstanced_only in Hj; [|apply grid_state_wf, G].
    destruct Hj as [n [b [Hn [Hb Hs]]]].
    assert (n < length objs)%nat by (apply nth_error_Some; congruence).
    assert (Hinj : wrap32 (Z.of_nat n) = wrap32 (Z.of_nat i) -> n = i).
    { unfold wrap32. int_consts. intros E.
      assert (E' : (Z.of_nat n + 2147483648) mod 4294967296
                   = (Z.of_nat i + 2147483648) mod 4294967296) by lia.
      destruct (Z_lt_le_dec (Z.of_nat n) 2147483648) as [Ln|Ln];
        destruct (Z_lt_le_dec (Z.of_nat i) 2147483648) as [Li|Li].
      - rewrite !Z.mod_small in E' by lia. lia.
      - replace (Z.of_nat i + 2147483648)
          with (Z.of_nat i - 2147483648 + 1 * 4294967296) in E' by lia.
        rewrite Z.mod_add, !Z.mod_small in E' by lia. lia.
      - replace (Z.of_nat n + 2147483648)
          with (Z.of_nat n - 2147483648 + 1 * 4294967296) in E' by lia.
        rewrite Z.mod_add, !Z.mod_small in E' by lia. lia.
      - replace (Z.of_nat i + 2147483648)
          with (Z.of_nat i - 2147483648 + 1 * 4294967296) in E' by lia.
        replace (Z.of_nat n + 2147483648)
          with (Z.of_nat n - 2147483648 + 1 * 4294967296) in E' by lia.
        rewrite !Z.mod_add, !Z.mod_small in E' by lia. lia. }
    destruct Hw as [Hw|Hw].
    - destruct (Z_lt_le_dec (Z.of_nat i) (2 ^ 31)) as [Li|Li].
      + assert (n = i); [|congruence].
        apply Hinj. rewrite <- Hs, Hw.
        symmetry. apply wrap32_small. int_consts. lia.
      + pose proof (wrap32_range (Z.of_nat n)) as R. int_consts. lia.
    - assert (n = i); [|congruence].
      apply Hinj. congruence. }
  split; [|split].
  - intros j Hj. apply Hno. exists j. exact Hj.
  - intros p Hp. apply Hno. eapply Query_only. exact Hp.
  - intros ray d r Hr Hin. apply Hno.
    eapply QueryRay_with_only; [|exact Hr|exact Hin].
    intros su st. apply advance_along_indices.
Qed.

Lemma inactive_objects_never_returned_witness :
  ~ In 1 (Query (BuildInstanced small_grid small_objects) (vec 25 25 25)).
Proof.
  apply (inactive_objects_never_returned small_grid small_objects 1%nat wreck
           1).
  - apply (grid_constructed (vec 0 0 0) (vec 40 40 40) (vec 10 10 10)).
    vm_compute. reflexivity.
  - vm_compute. discriminate.
  - reflexivity.
  - reflexivity.
  - left. reflexivity.
Defined.

(** C4, as stated, fails where the cell count overflows: on the
    65536 x 65536 x 1 grid [totalCells] is 0, and the linear id of the
    (valid) clamped cell of (1,1,1) is not below it. *)
Lemma linear_index_not_below_totalCells_on_wide_grid :
  UniformGrid_new (vec 0 0 0) (vec 262144 262144 4) (vec 4 4 4) = Some wide_grid /\
  GetCellIndices wide_grid (vec 1 1 1) = Vector3Int.mk 0 0 0 /\
  Get1DIndex wide_grid 0 0 0 = 0 /\
  totalCells wide_grid = 0 /\
  ~ (0 <= Get1DIndex wide_grid
            (Vector3Int.x (GetCellIndices wide_grid (vec 1 1 1)))
            (Vector3Int.y (GetCellIndices wide_grid (vec 1 1 1)))
            (Vector3Int.z (GetCellIndices wide_grid (vec 1 1 1)))
        < totalCells wide_grid).
Proof.
  repeat split; try (vm_compute; reflexivity).
  vm_compute. intros [_ H]. discriminate H.
Qed.

(** C4 (amended).  For every position, inside the bounds or not (and for
    every float, NaN and infinities included), [GetCellIndices] returns
    coordinates with 0 <= ix < nx, 0 <= iy < ny, 0 <= iz < nz; and when
    [nx * ny * nz] fits in [int], their linear id lies in [0, totalCells). *)
Theorem cell_indices_in_range g p :
  grid_state g ->
  (0 <= Vector3Int.x (GetCellIndices g p) < gridDimX g /\
   0 <= Vector3Int.y (GetCellIndices g p) < gridDimY g /\
   0 <= Vector3Int.z (GetCellIndices g p) < gridDimZ g) /\
  (cells_fit g ->
   0 <= Get1DIndex g (Vector3Int.x (GetCellIndices g p))
                     (Vector3Int.y (GetCellIndices g p))
                     (Vector3Int.z (GetCellIndices g p))
     < totalCells g).
Proof.
  intros G. pose proof (grid_state_wf g G) as W.
  pose proof (GetCellIndices_valid g p W) as V.
  split; [exact V|]. intros F.
  rewrite (totalCells_exact g W F).
  apply Get1DIndex_exact; auto. apply IsValidIndex_spec. exact V.
Qed.

Lemma cell_indices_in_range_witness :
  0 <= Vector3Int.x (GetCellIndices small_grid (vec 1000 (-7) 15))
    < gridDimX small_grid /\
  0 <= Get1DIndex small_grid
         (Vector3Int.x (GetCellIndices small_grid (vec 1000 (-7) 15)))
         (Vector3Int.y (GetCellIndices small_grid (vec 1000 (-7) 15)))
         (Vector3Int.z (GetCellIndices small_grid (vec 1000 (-7) 15)))
    < totalCells small_grid.
Proof.
  assert (G : grid_state small_grid).
  { apply (grid_constructed (vec 0 0 0) (vec 40 40 40) (vec 10 10 10)).
    vm_compute. reflexivity. }
  destruct (cell_indices_in_range small_grid (vec 1000 (-7) 15) G)
    as [[Hx _] Hlin].
  split; [exact Hx|]. apply Hlin. vm_compute. discriminate.
Defined.

(** C5.  A ray whose direction has squared length below 0.0001 is answered
    by [Query] at its origin, whatever the maximum distance. *)
Theorem degenerate_ray_is_point_query g ray maxDistance :
  flt (Vector3LengthSqr (Ray.direction ray)) f0_0001 = true ->
  QueryRay g ray maxDistance = Some (Query g (Ray.position ray)).
Proof.
  intros H. unfold QueryRay, QueryRay_with. rewrite H. reflexivity.
Qed.

Lemma degenerate_ray_is_point_query_witness :
  QueryRay (BuildInstanced small_grid small_objects)
           (Ray.mk (vec 12 3 7) (vec 0 0 0)) (fz 100)
  = Some (Query (BuildInstanced small_grid small_objects) (vec 12 3 7)).
Proof.
  apply (degenerate_ray_is_point_query
           (BuildInstanced small_grid small_objects)
           (Ray.mk (vec 12 3 7) (vec 0 0 0)) (fz 100)).
  vm_compute. reflexivity.
Defined.

(** C6, as stated, fails: the ray from (5,5,5) along (1,1,0) reaches the
    planes x = 10 and y = 10 together.  The implemented walk steps y first
    and never enters cell (1,0,0), where object 0 is stored; the walk that
    steps x first on ties enters it.  The two results differ. *)
Lemma tie_break_changes_candidates :
  UniformGrid_new (vec 0 0 0) (vec 40 40 40) (vec 10 10 10) = Some small_grid /\
  QueryRay (BuildInstanced small_grid small_objects) diagonal_ray (fz 100)
    = Some [] /\
  QueryRay_xyz (BuildInstanced small_grid small_objects) diagonal_ray (fz 100)
    = Some [0].
Proof. repeat split; vm_compute; reflexivity. Qed.

(** C6 (amended).  When no iteration of the implemented walk meets a tie for
    the smallest [tMax] (one of the three is strictly below the other two
    each time), the walk that on ties advances x before y before z returns
    the same index set.  On ties the implemented comparisons advance z
    before y before x, and the set can differ. *)
Theorem tie_break_agreement_without_ties g ray maxDistance :
  QueryRay_untied g ray maxDistance = true ->
  QueryRay_xyz g ray maxDistance = QueryRay g ray maxDistance.
Proof.
  unfold QueryRay_untied, QueryRay_xyz, QueryRay, QueryRay_with.
  destruct (flt (Vector3LengthSqr (Ray.direction ray)) f0_0001);
    [reflexivity|].
  destruct (ray_setup g ray) as [su st].
  apply ray_walk_untied.
Qed.

Lemma tie_break_agreement_without_ties_witness :
  QueryRay_xyz (BuildInstanced small_grid small_objects)
               (Ray.mk (vec 5 5 5) (vec 2 1 0)) (fz 100)
  = QueryRay (BuildInstanced small_grid small_objects)
             (Ray.mk (vec 5 5 5) (vec 2 1 0)) (fz 100).
Proof.
  apply (tie_break_agreement_without_ties
           (BuildInstanced small_grid small_objects)
           (Ray.mk (vec 5 5 5) (vec 2 1 0)) (fz 100)).
  vm_compute. reflexivity.
Defined.

(** The constructor reads the cell size only through [positive_cell_sizes]. *)
Lemma UniformGrid_new_cell_size worldMin worldMax cs cs' :
  positive_cell_sizes cs = positive_cell_sizes cs' ->
  UniformGrid_new worldMin worldMax cs = UniformGrid_new worldMin worldMax cs'.
Proof. intros H. unfold UniformGrid_new. rewrite H. reflexivity. Qed.

Lemma positive_cell_size_nonpositive c :
  fle c f0 = true -> positive_cell_size c = positive_cell_size f1.
Proof. intros H. unfold positive_cell_size at 1. rewrite H. reflexivity. Qed.

(** C7, as stated, fails where the cell count overflows.  With cell size
    (0,1,1), read as (1,1,1): on the extent (65536,32768,1) the product 2^31
    is reduced to a negative [int] and the allocation throws; on the extent
    (65536,65536,1) the product 2^32 is reduced to 0 and no cell is
    allocated, although nx * ny * nz = 2^32. *)
Lemma constructor_overflows_on_wide_extent :
  fle (Vector3.x (vec 0 1 1)) f0 = true /\
  UniformGrid_new (vec 0 0 0) (vec 65536 32768 1) (vec 0 1 1) = None /\
  exists g, UniformGrid_new (vec 0 0 0) (vec 65536 65536 1) (vec 0 1 1) = Some g /\
            gridDimX g * gridDimY g * gridDimZ g = 2 ^ 32 /\
            totalCells g = 0 /\ gridCells g = [].
Proof.
  split; [reflexivity|]. split; [vm_compute; reflexivity|].
  eexists. split; [vm_compute; reflexivity|].
  repeat split.
Qed.

(** C7 (amended).  A cell-size component <= 0 is read as 1.0: construction
    gives the result it gives with 1.0 in that component.  Each dimension is
    (int)ceilf(extent / cell size), raised to 1 when not positive, in every
    grid that construction returns.  When nx * ny * nz fits in [int],
    construction succeeds, [totalCells] is that product and exactly that
    many empty cells are allocated. *)
Theorem constructor_sanitises_cell_size worldMin worldMax cellSize :
  let cs := positive_cell_sizes cellSize in
  let extent := Vector3Subtract worldMax worldMin in
  let nx := grid_dim (Vector3.x extent) (Vector3.x cs) in
  let ny := grid_dim (Vector3.y extent) (Vector3.y cs) in
  let nz := grid_dim (Vector3.z extent) (Vector3.z cs) in
  (fle (Vector3.x cellSize) f0 = true ->
   UniformGrid_new worldMin worldMax cellSize
   = UniformGrid_new worldMin worldMax
       (Vector3.mk f1 (Vector3.y cellSize) (Vector3.z cellSize))) /\
  (fle (Vector3.y cellSize) f0 = true ->
   UniformGrid_new worldMin worldMax cellSize
   = UniformGrid_new worldMin worldMax
       (Vector3.mk (Vector3.x cellSize) f1 (Vector3.z cellSize))) /\
  (fle (Vector3.z cellSize) f0 = true ->
   UniformGrid_new worldMin worldMax cellSize
   = UniformGrid_new worldMin worldMax
       (Vector3.mk (Vector3.x cellSize) (Vector3.y cellSize) f1)) /\
  1 <= nx /\ 1 <= ny /\ 1 <= nz /\
  (forall g, UniformGrid_new worldMin worldMax cellSize = Some g ->
     gridCellSize g = cs /\
     gridDimX g = nx /\ gridDimY g = ny /\ gridDimZ g = nz) /\
  (nx * ny * nz <= INT_MAX ->
   UniformGrid_new worldMin worldMax cellSize
   = Some (mkGrid worldMin worldMax cs nx ny nz (nx * ny * nz)
                  (empty_cells (Z.to_nat (nx * ny * nz))))).
Proof.
  intros cs extent nx ny nz.
  pose proof (grid_dim_range (Vector3.x extent) (Vector3.x cs)) as Hx.
  pose proof (grid_dim_range (Vector3.y extent) (Vector3.y cs)) as Hy.
  pose proof (grid_dim_range (Vector3.z extent) (Vector3.z cs)) as Hz.
  fold nx in Hx. fold ny in Hy. fold nz in Hz.
  split; [|split; [|split; [|split; [|split; [|split; [|split]]]]]];
    try lia.
  - intros H. apply UniformGrid_new_cell_size. unfold positive_cell_sizes.
    simpl. now rewrite (positive_cell_size_nonpositive _ H).
  - intros H. apply UniformGrid_new_cell_size. unfold positive_cell_sizes.
    simpl. now rewrite (positive_cell_size_nonpositive _ H).
  - intros H. apply UniformGrid_new_cell_size. unfold positive_cell_sizes.
    simpl. now rewrite (positive_cell_size_nonpositive _ H).
  - intros g. unfold UniformGrid_new. fold cs. fold extent. cbv zeta.
    fold nx. fold ny. fold nz.
    destruct (imul (imul nx ny) nz <? 0); [discriminate|].
    intros E. injection E as <-. repeat split.
  - intros Hfit. unfold UniformGrid_new. fold cs. fold extent. cbv zeta.
    fold nx. fold ny. fold nz.
    assert (Hxy : 0 < nx * ny <= nx * ny * nz) by nia.
    unfold imul. rewrite (wrap32_small (nx * ny)) by (int_consts; lia).
    rewrite (wrap32_small (nx * ny * nz)) by (int_consts; lia).
    destruct (Z.ltb_spec (nx * ny * nz) 0); [lia|]. reflexivity.
Qed.

Lemma constructor_sanitises_cell_size_witness :
  UniformGrid_new (vec 0 0 0) (vec 40 40 40) (vec 0 (-3) 10)
  = Some (mkGrid (vec 0 0 0) (vec 40 40 40) (vec 1 1 10) 40 40 4 6400
                 (empty_cells (Z.to_nat 6400))).
Proof.
  apply (constructor_sanitises_cell_size (vec 0 0 0) (vec 40 40 40)
           (vec 0 (-3) 10)).
  vm_compute. discriminate.
Defined.

(** C8, as stated, fails where the cell count overflows: on the
    65536 x 65536 x 1 grid the cell vector is empty, the coordinates (0,0,0)
    are valid, and their linear id 0 is not below the vector's size; [Add]
    takes its warning branch and stores nothing. *)
Lemma valid_index_out_of_range_on_wide_grid :
  UniformGrid_new (vec 0 0 0) (vec 262144 262144 4) (vec 4 4 4) = Some wide_grid /\
  IsValidIndex wide_grid 0 0 0 = true /\
  Get1DIndex wide_grid 0 0 0 = 0 /\
  length (gridCells wide_grid) = 0%nat /\
  cell_in_range (gridCells wide_grid) (Get1DIndex wide_grid 0 0 0) = false /\
  add_to_cell wide_grid 7 0 0 0 (gridCells wide_grid) = gridCells wide_grid.
Proof. repeat split; vm_compute; reflexivity. Qed.

(** C8 (amended).  On a reachable grid whose cell count nx * ny * nz fits
    in [int], valid coordinates have a linear id in [0, gridCells.size()):
    the safety check succeeds, and [Add], [Query] and [QueryRay] take the
    branch that touches the cell - at that id, inside the vector - never
    the warning branch. *)
Theorem valid_index_in_bounds g ix iy iz :
  grid_state g -> cells_fit g ->
  IsValidIndex g ix iy iz = true ->
  0 <= Get1DIndex g ix iy iz < Z.of_nat (length (gridCells g)) /\
  (forall cells, length cells = length (gridCells g) ->
     cell_in_range cells (Get1DIndex g ix iy iz) = true) /\
  (forall idx cells, length cells = length (gridCells g) ->
     add_to_cell g idx iz iy ix cells
     = push_back_at (Z.to_nat (Get1DIndex g ix iy iz)) idx cells) /\
  (forall c dz dy dx acc,
     iadd (Vector3Int.x c) dx = ix -> iadd (Vector3Int.y c) dy = iy ->
     iadd (Vector3Int.z c) dz = iz ->
     query_cell g c dz dy dx acc
     = set_insert_all (cell_at (gridCells g) (Get1DIndex g ix iy iz)) acc) /\
  (forall st, ray_ix st = ix -> ray_iy st = iy -> ray_iz st = iz ->
     uniqueIndices (collect g st)
     = set_insert_all (cell_at (gridCells g) (Get1DIndex g ix iy iz))
                      (uniqueIndices st)).
Proof.
  intros G F V. pose proof (grid_state_wf g G) as W.
  destruct (Get1DIndex_exact g ix iy iz W F V) as [_ Hr].
  rewrite <- (totalCells_exact g W F) in Hr.
  assert (Hguard : forall cells, length cells = length (gridCells g) ->
                     cell_in_range cells (Get1DIndex g ix iy iz) = true).
  { intros cells Hl. unfold cell_in_range. rewrite Hl, (size_as_int g W).
    apply andb_true_iff. split; [apply Z.leb_le | apply Z.ltb_lt]; lia. }
  split; [|split; [exact Hguard|split; [|split]]].
  - rewrite (wf_size g W), Z2Nat.id by lia. exact Hr.
  - intros idx cells Hl. unfold add_to_cell. now rewrite V, (Hguard cells Hl).
  - intros c dz dy dx acc Hx Hy Hz. unfold query_cell.
    rewrite Hx, Hy, Hz, V. now rewrite (Hguard (gridCells g) eq_refl).
  - intros st Hx Hy Hz. unfold collect.
    rewrite Hx, Hy, Hz. now rewrite (Hguard (gridCells g) eq_refl).
Qed.

Lemma valid_index_in_bounds_witness :
  0 <= Get1DIndex small_grid 3 2 1 < Z.of_nat (length (gridCells small_grid)).
Proof.
  assert (G : grid_state small_grid).
  { apply (grid_constructed (vec 0 0 0) (vec 40 40 40) (vec 10 10 10)).
    vm_compute. reflexivity. }
  apply (valid_index_in_bounds small_grid 3 2 1 G).
  - vm_compute. discriminate.
  - reflexivity.
Defined.

(** C9.  [QueryRay] terminates on every reachable grid, for every ray and
    every maximum distance (finite or not): the loop runs at most
    nx + ny + nz iterations, because each iteration moves one cell
    coordinate one step in its fixed direction and the walk stops when it
    leaves the valid range or [currentT] reaches [maxDistance].  The bound
    reads the dimensions only: it is the same whatever the cells store. *)
Theorem QueryRay_terminates g ray maxDistance :
  grid_state g ->
  (exists r, QueryRay g ray maxDistance = Some r /\
     forall fuel, (Z.to_nat (gridDimX g + gridDimY g + gridDimZ g) <= fuel)%nat ->
       QueryRay_with advance fuel g ray maxDistance = Some r) /\
  (forall cells,
     exists r, QueryRay_with advance
                 (Z.to_nat (gridDimX g + gridDimY g + gridDimZ g))
                 (with_cells g cells) ray maxDistance = Some r).
Proof.
  intros G. pose proof (grid_wf_dims g (grid_state_wf g G)) as D.
  assert (Hadv : forall su st, exists a, advance su st = advance_along su a st).
  { intros su st. eexists. reflexivity. }
  split.
  - destruct (QueryRay_with_terminates advance g ray maxDistance (ray_fuel g)
                D Hadv (Nat.le_refl _)) as [r Hr].
    exists r. split; [exact Hr|].
    intros fuel Hfuel. revert Hr. unfold QueryRay_with.
    destruct (flt (Vector3LengthSqr (Ray.direction ray)) f0_0001); [auto|].
    destruct (ray_setup g ray) as [su st].
    apply ray_walk_more_fuel. exact Hfuel.
  - intros cells.
    apply (QueryRay_with_terminates advance (with_cells g cells)); auto.
Qed.

Lemma QueryRay_terminates_witness :
  exists r, QueryRay (BuildInstanced small_grid small_objects)
                     diagonal_ray infinity = Some r.
Proof.
  destruct (QueryRay_terminates (BuildInstanced small_grid small_objects)
              diagonal_ray infinity) as [[r [Hr _]] _].
  - apply grid_rebuilt.
    apply (grid_constructed (vec 0 0 0) (vec 40 40 40) (vec 10 10 10)).
    vm_compute. reflexivity.
  - exists r. exact Hr.
Defined.

(** C10, as stated, fails in three ways.  (1) Conversion to [int] is not
    monotone beyond the [int] range: the active asteroid [far_rock], at the
    finite position (2147483520, 2, 2) with radius 200, has the clamped cell
    (3,2,2), but its box corners clamp to x = 3 (near corner) and x = 0 (far
    corner, whose scaled coordinate 2^31 does not fit [int]); the loops of
    [Add] are empty, the object is stored nowhere and [Query] at its
    position misses it.  (2) On the 65536 x 65536 x 1 grid the cell count
    overflows and [pebble] is stored nowhere either.  (3) With a radius that
    is not a number both corners of [hazy_rock] convert to cell (0,0,0),
    while its position (25,25,25) is in cell (2,2,2): the object is stored
    in cell (0,0,0) only and [Query] at its position misses it. *)
Lemma active_object_missing_from_its_cell :
  (UniformGrid_new (vec 0 0 0) (vec 4 4 4) (vec 1 1 1) = Some unit_grid /\
   Asteroid.isActive far_rock = true /\
   is_finite (Vector3.x (Asteroid.position far_rock)) = true /\
   is_finite (Vector3.y (Asteroid.position far_rock)) = true /\
   is_finite (Vector3.z (Asteroid.position far_rock)) = true /\
   GetCellIndices unit_grid (Asteroid.position far_rock) = Vector3Int.mk 3 2 2 /\
   GetCellIndices unit_grid (BoundingBox.min (worldBounds far_rock))
     = Vector3Int.mk 3 0 0 /\
   GetCellIndices unit_grid (BoundingBox.max (worldBounds far_rock))
     = Vector3Int.mk 0 3 3 /\
   gridCells (BuildInstanced unit_grid [far_rock]) = gridCells unit_grid /\
   Query (BuildInstanced unit_grid [far_rock]) (Asteroid.position far_rock) = [])
  /\
  (UniformGrid_new (vec 0 0 0) (vec 262144 262144 4) (vec 4 4 4) = Some wide_grid /\
   Asteroid.isActive pebble = true /\
   gridCells (BuildInstanced wide_grid [pebble]) = [] /\
   Query (BuildInstanced wide_grid [pebble]) (Asteroid.position pebble) = [])
  /\
  (UniformGrid_new (vec 0 0 0) (vec 40 40 40) (vec 10 10 10) = Some small_grid /\
   Asteroid.isActive hazy_rock = true /\
   is_finite (Vector3.x (Asteroid.position hazy_rock)) = true /\
   is_finite (Vector3.y (Asteroid.position hazy_rock)) = true /\
   is_finite (Vector3.z (Asteroid.position hazy_rock)) = true /\
   GetCellIndices small_grid (Asteroid.position hazy_rock)
     = Vector3Int.mk 2 2 2 /\
   GetCellIndices small_grid (BoundingBox.min (worldBounds hazy_rock))
     = Vector3Int.mk 0 0 0 /\
   GetCellIndices small_grid (BoundingBox.max (worldBounds hazy_rock))
     = Vector3Int.mk 0 0 0 /\
   Query (BuildInstanced small_grid [hazy_rock]) (Asteroid.position hazy_rock)
     = []).
Proof. repeat split; vm_compute; reflexivity. Qed.

(** C10 (amended).  All floats being binary32 values: after
    [BuildInstanced], for every active object, if nx * ny * nz fits in
    [int] and the conversions to [int] that [GetCellIndices] makes for the
    two corners of the object's box are defined (the scaled, floored corner
    coordinates are numbers within [int], which a NaN or infinite radius, a
    NaN cell size or a corner too far away would not give), then the
    clamped cell of the position lies between the clamped corner cells, the
    stored index [(int)i] is in the cell [GetCellIndices position] - also
    when the position is outside the grid bounds - and [Query position]
    contains it. *)
Theorem active_object_stored_in_position_cell g objs i a :
  grid_state g -> cells_fit g ->
  binary32_vec (gridMinBounds g) ->
  nth_error objs i = Some a -> Asteroid.isActive a = true ->
  binary32_vec (Asteroid.position a) ->
  binary32 (Asteroid.collisionRadius a) ->
  cell_defined g (BoundingBox.min (worldBounds a)) ->
  cell_defined g (BoundingBox.max (worldBounds a)) ->
  In (wrap32 (Z.of_nat i))
     (cell_at (gridCells (BuildInstanced g objs))
        (Get1DIndex (BuildInstanced g objs)
           (Vector3Int.x (GetCellIndices (BuildInstanced g objs)
                                         (Asteroid.position a)))
           (Vector3Int.y (GetCellIndices (BuildInstanced g objs)
                                         (Asteroid.position a)))
           (Vector3Int.z (GetCellIndices (BuildInstanced g objs)
                                         (Asteroid.position a))))) /\
  In (wrap32 (Z.of_nat i))
     (Query (BuildInstanced g objs) (Asteroid.position a)).
Proof.
  intros G F Vg Hi Ha Vp Vr Dlo Dhi.
  pose proof (position_cell_between g a G Vg Vp Vr Dlo Dhi) as Hb.
  pose proof (BuildInstanced_reaches g objs i a _ G F Hi Ha Hb) as H.
  pose proof (BuildInstanced_wf g objs G) as W'.
  pose proof (BuildInstanced_fit g objs F) as F'.
  assert (Hcell : In (wrap32 (Z.of_nat i))
     (cell_at (gridCells (BuildInstanced g objs))
        (Get1DIndex (BuildInstanced g objs)
           (Vector3Int.x (GetCellIndices (BuildInstanced g objs)
                                         (Asteroid.position a)))
           (Vector3Int.y (GetCellIndices (BuildInstanced g objs)
                                         (Asteroid.position a)))
           (Vector3Int.z (GetCellIndices (BuildInstanced g objs)
                                         (Asteroid.position a)))))).
  { destruct (BuildInstanced_cells g objs) as [cells E].
    rewrite E in H |- *.
    rewrite GetCellIndices_with_cells, Get1DIndex_with_cells. exact H. }
  split; [exact Hcell|]. now apply Query_center.
Qed.

Lemma active_object_stored_in_position_cell_witness :
  GetCellIndices small_grid (Asteroid.position stray_rock)
  = Vector3Int.mk 0 0 3 /\
  In 1 (Query (BuildInstanced small_grid [wreck; stray_rock])
              (Asteroid.position stray_rock)).
Proof.
  split; [vm_compute; reflexivity|].
  apply (active_object_stored_in_position_cell small_grid
           [wreck; stray_rock] 1%nat stray_rock).
  - apply (grid_constructed (vec 0 0 0) (vec 40 40 40) (vec 10 10 10)).
    vm_compute. reflexivity.
  - vm_compute. discriminate.
  - repeat split.
  - reflexivity.
  - reflexivity.
  - repeat split.
  - reflexivity.
  - vm_compute. repeat split.
  - vm_compute. repeat split.
Defined.

(* ================================================================== *)
(** * Further properties of the grid *)

(** ** Linearisation *)

Lemma mixed_radix_unique (n a b p q : Z) :
  0 <= a < n -> 0 <= b < n -> a + p * n = b + q * n -> a = b /\ p = q.
Proof. intros Ha Hb H. assert (p = q) by nia. subst. lia. Qed.

Lemma Get1DIndex_inj g c c' :
  grid_wf g -> cells_fit g -> valid_cell g c -> valid_cell g c' ->
  cell_id g c = cell_id g c' -> c = c'.
Proof.
  intros W F V V' H. unfold cell_id in H.
  destruct (Get1DIndex_exact g _ _ _ W F (proj2 (IsValidIndex_spec g _ _ _) V))
    as [E _].
  destruct (Get1DIndex_exact g _ _ _ W F (proj2 (IsValidIndex_spec g _ _ _) V'))
    as [E' _].
  rewrite E, E' in H. clear E E'.
  destruct c as [x y z], c' as [x' y' z']; simpl in *.
  destruct V as [Vx [Vy Vz]], V' as [Vx' [Vy' Vz']].
  destruct (mixed_radix_unique (gridDimX g) x x'
              (y + z * gridDimY g) (y' + z' * gridDimY g) Vx Vx'
              ltac:(lia)) as [-> Hyz].
  destruct (mixed_radix_unique (gridDimY g) y y' z z' Vy Vy' Hyz) as [-> ->].
  reflexivity.
Qed.

Lemma cell_of_id_valid g k :
  grid_wf g -> cells_fit g -> 0 <= k < totalCells g ->
  valid_cell g (cell_of_id g k) /\ cell_id g (cell_of_id g k) = k.
Proof.
  intros W F Hk. rewrite (totalCells_exact g W F) in Hk.
  pose proof (wf_dimX g W) as Dx. pose proof (wf_dimY g W) as Dy.
  pose proof (wf_dimZ g W) as Dz.
  assert (Vx : 0 <= k mod gridDimX g < gridDimX g)
    by (apply Z.mod_pos_bound; lia).
  assert (Vy : 0 <= (k / gridDimX g) mod gridDimY g < gridDimY g)
    by (apply Z.mod_pos_bound; lia).
  assert (Hxy : 0 < gridDimX g * gridDimY g) by nia.
  assert (Vz : 0 <= k / (gridDimX g * gridDimY g) < gridDimZ g).
  { split; [apply Z.div_pos; lia|]. apply Z.div_lt_upper_bound; lia. }
  assert (V : valid_cell g (cell_of_id g k)) by (repeat split; simpl; lia).
  split; [exact V|].
  unfold cell_id.
  destruct (Get1DIndex_exact g _ _ _ W F (proj2 (IsValidIndex_spec g _ _ _) V))
    as [E _].
  rewrite E. simpl.
  rewrite <- (Z.div_div k (gridDimX g) (gridDimY g)) by lia.
  pose proof (Z.div_mod k (gridDimX g) ltac:(lia)) as H1.
  pose proof (Z.div_mod (k / gridDimX g) (gridDimY g) ltac:(lia)) as H2.
  nia.
Qed.

(** X1.  On a reachable grid whose cell count fits in [int], [Get1DIndex] is
    a bijection between the valid coordinate triples and the linear ids
    below [totalCells]: distinct valid cells have distinct ids, every id
    below [totalCells] is the id of the valid cell
    (k mod nx, (k / nx) mod ny, k / (nx * ny)), and decoding the id of a
    valid cell gives the cell back. *)
Theorem linear_id_bijection g :
  grid_state g -> cells_fit g ->
  (forall c c', valid_cell g c -> valid_cell g c' ->
                cell_id g c = cell_id g c' -> c = c') /\
  (forall k, 0 <= k < totalCells g ->
             valid_cell g (cell_of_id g k) /\ cell_id g (cell_of_id g k) = k) /\
  (forall c, valid_cell g c -> cell_of_id g (cell_id g c) = c).
Proof.
  intros G F. pose proof (grid_state_wf g G) as W.
  split; [|split].
  - intros c c'. now apply Get1DIndex_inj.
  - intros k. now apply cell_of_id_valid.
  - intros c V.
    assert (Hr : 0 <= cell_id g c < totalCells g).
    { rewrite (totalCells_exact g W F). unfold cell_id.
      apply Get1DIndex_exact; auto. now apply IsValidIndex_spec. }
    destruct (cell_of_id_valid g _ W F Hr) as [V' E].
    now apply (Get1DIndex_inj g _ _ W F V' V).
Qed.

Lemma linear_id_bijection_witness :
  cell_of_id small_grid (cell_id small_grid (Vector3Int.mk 3 2 1))
  = Vector3Int.mk 3 2 1.
Proof.
  assert (G : grid_state small_grid).
  { apply (grid_constructed (vec 0 0 0) (vec 40 40 40) (vec 10 10 10)).
    vm_compute. reflexivity. }
  destruct (linear_id_bijection small_grid G ltac:(vm_compute; discriminate))
    as [_ [_ H]].
  apply H. vm_compute. repeat split; discriminate.
Defined.

(** ** Rebuilding *)

Lemma clear_cells_all (n : nat) (cells : list (list Z)) :
  length cells = n -> clear_cells n cells = repeat [] n.
Proof.
  revert cells; induction n as [|n IH]; intros [|c rest] H; simpl in *;
    try discriminate; try reflexivity.
  f_equal. apply IH. congruence.
Qed.

Lemma Clear_with_cells g cells :
  grid_wf g -> length cells = length (gridCells g) ->
  Clear (with_cells g cells) = Clear g.
Proof.
  intros W Hl. unfold Clear, with_cells. simpl.
  rewrite !clear_cells_all; auto.
  - apply (wf_size g W).
  - rewrite Hl. apply (wf_size g W).
Qed.

(** X2.  A rebuild forgets everything stored before: building from [later]
    after any earlier build gives the grid that building from [later]
    directly gives.  In particular [BuildInstanced] run twice on the same
    instances produces identical cell contents. *)
Theorem rebuild_forgets_previous_build g earlier later :
  grid_state g ->
  BuildInstanced (BuildInstanced g earlier) later = BuildInstanced g later.
Proof.
  intros G. pose proof (grid_state_wf g G) as W.
  pose proof (BuildInstanced_wf g earlier G) as W'.
  destruct (BuildInstanced_cells g earlier) as [cells E].
  unfold BuildInstanced at 1. rewrite E.
  rewrite Clear_with_cells; [reflexivity | exact W |].
  rewrite E in W'. pose proof (wf_size _ W') as Hs. simpl in Hs.
  rewrite Hs. symmetry. apply (wf_size g W).
Qed.

Lemma rebuild_forgets_previous_build_witness :
  BuildInstanced (BuildInstanced small_grid [wreck; rock; rock]) small_objects
  = BuildInstanced small_grid small_objects.
Proof.
  apply (rebuild_forgets_previous_build small_grid [wreck; rock; rock]
           small_objects).
  apply (grid_constructed (vec 0 0 0) (vec 40 40 40) (vec 10 10 10)).
  vm_compute. reflexivity.
Defined.

(** ** Results are ordered sets *)

Lemma set_insert_sorted v s :
  StronglySorted Z.lt s -> StronglySorted Z.lt (set_insert v s).
Proof.
  induction 1 as [|w rest Hs IH Hall]; simpl.
  - repeat constructor.
  - destruct (Z.ltb_spec v w).
    + constructor; [constructor; assumption|].
      constructor; [assumption|].
      eapply Forall_impl; [|exact Hall]. intros; simpl in *; lia.
    + destruct (Z.eqb_spec v w).
      * constructor; assumption.
      * constructor; [exact IH|].
        apply Forall_forall. intros u Hu.
        apply set_insert_In in Hu. destruct Hu as [->|Hu]; [lia|].
        rewrite Forall_forall in Hall. now apply Hall.
Qed.

Lemma set_insert_all_sorted cell : forall s,
  StronglySorted Z.lt s -> StronglySorted Z.lt (set_insert_all cell s).
Proof.
  unfold set_insert_all. induction cell as [|v cell IH]; simpl; intros s Hs.
  - exact Hs.
  - apply IH, set_insert_sorted, Hs.
Qed.

Lemma query_cell_sorted g c dz dy dx acc :
  StronglySorted Z.lt acc -> StronglySorted Z.lt (query_cell g c dz dy dx acc).
Proof.
  intros H. unfold query_cell.
  destruct (IsValidIndex g _ _ _); [|exact H].
  destruct (cell_in_range _ _); [|exact H].
  now apply set_insert_all_sorted.
Qed.

Lemma Query_sorted g p : StronglySorted Z.lt (Query g p).
Proof.
  unfold Query.
  apply (fold_left_keeps _ (StronglySorted Z.lt)); [|constructor].
  intros a dz. apply (fold_left_keeps _ (StronglySorted Z.lt)).
  intros a' dy. apply (fold_left_keeps _ (StronglySorted Z.lt)).
  intros a'' dx. apply query_cell_sorted.
Qed.

Lemma collect_sorted g st :
  StronglySorted Z.lt (uniqueIndices st) ->
  StronglySorted Z.lt (uniqueIndices (collect g st)).
Proof.
  intros H. unfold collect. destruct (cell_in_range _ _); simpl; [|exact H].
  now apply set_insert_all_sorted.
Qed.

Lemma ray_walk_sorted adv g d :
  (forall st, uniqueIndices (adv st) = uniqueIndices st) ->
  forall fuel st r,
  StronglySorted Z.lt (uniqueIndices st) ->
  ray_walk adv g d fuel st = Some r -> StronglySorted Z.lt r.
Proof.
  intros Hadv. induction fuel as [|fuel IH]; intros st r Hs; simpl.
  - destruct (flt (currentT st) d); [discriminate|].
    intros H; injection H as <-. exact Hs.
  - destruct (flt (currentT st) d).
    + destruct (fge (currentT (adv st)) d).
      { intros H; injection H as <-. now rewrite Hadv. }
      destruct (negb (IsValidIndex g _ _ _)).
      { intros H; injection H as <-. now rewrite Hadv. }
      apply IH. apply collect_sorted. now rewrite Hadv.
    + intros H; injection H as <-. exact Hs.
Qed.

Lemma ray_setup_sorted g ray :
  StronglySorted Z.lt (uniqueIndices (snd (ray_setup g ray))).
Proof.
  unfold ray_setup. simpl.
  destruct (IsValidIndex g _ _ _); [|constructor].
  destruct (cell_in_range _ _); [|constructor].
  apply set_insert_all_sorted. constructor.
Qed.

(** X3.  The results of [Query] and [QueryRay] are strictly increasing
    lists: every index appears once, in ascending order, whatever the cells
    hold. *)
Theorem query_results_strictly_increasing g :
  (forall p, StronglySorted Z.lt (Query g p) /\ NoDup (Query g p)) /\
  (forall ray d r, QueryRay g ray d = Some r ->
                   StronglySorted Z.lt r /\ NoDup r).
Proof.
  assert (Hnd : forall l, StronglySorted Z.lt l -> NoDup l).
  { induction 1 as [|v l Hs IH Hall]; constructor; [|exact IH].
    intros Hin. rewrite Forall_forall in Hall. specialize (Hall v Hin). lia. }
  split.
  - intros p. split; [apply Query_sorted | apply Hnd, Query_sorted].
  - intros ray d r Hr.
    assert (Hs : StronglySorted Z.lt r).
    { revert Hr. unfold QueryRay, QueryRay_with.
      destruct (flt (Vector3LengthSqr (Ray.direction ray)) f0_0001).
      - intros H; injection H as <-. apply Query_sorted.
      - pose proof (ray_setup_sorted g ray) as H0.
        destruct (ray_setup g ray) as [su st]. simpl in H0.
        intros Hr. eapply ray_walk_sorted; [|exact H0|exact Hr].
        intros st'. apply advance_along_indices. }
    split; [exact Hs | apply Hnd, Hs].
Qed.

Lemma query_results_strictly_increasing_witness :
  QueryRay (BuildInstanced small_grid rock_row) row_ray (fz 100)
  = Some [0; 1; 2] /\
  StronglySorted Z.lt [0; 1; 2] /\ NoDup [0; 1; 2].
Proof.
  assert (E : QueryRay (BuildInstanced small_grid rock_row) row_ray (fz 100)
              = Some [0; 1; 2]) by (vm_compute; reflexivity).
  split; [exact E|].
  destruct (query_results_strictly_increasing
              (BuildInstanced small_grid rock_row)) as [_ H].
  exact (H row_ray (fz 100) [0; 1; 2] E).
Defined.

(** ** What [Query] returns *)

Lemma fold_left_keeps_in {A B : Type} (f : A -> B -> A) (P : A -> Prop)
    (l : list B) :
  (forall a b, In b l -> P a -> P (f a b)) ->
  forall a, P a -> P (fold_left f l a).
Proof.
  induction l as [|b l IH]; simpl; intros Hf a Ha; [exact Ha|].
  apply IH; auto.
Qed.

Lemma query_cell_In g c dz dy dx acc w :
  In w (query_cell g c dz dy dx acc) <-> In w acc \/ query_hit g c dz dy dx w.
Proof.
  unfold query_cell, query_hit.
  destruct (IsValidIndex g _ _ _).
  - destruct (cell_in_range _ _).
    + rewrite set_insert_all_In. tauto.
    + intuition discriminate.
  - intuition discriminate.
Qed.

Lemma Query_In g p w :
  In w (Query g p) <->
  exists dz dy dx, -1 <= dz <= 1 /\ -1 <= dy <= 1 /\ -1 <= dx <= 1 /\
                   query_hit g (GetCellIndices g p) dz dy dx w.
Proof.
  unfold Query. set (c := GetCellIndices g p). split.
  - set (P := fun acc : list Z => In w acc ->
        exists dz dy dx, -1 <= dz <= 1 /\ -1 <= dy <= 1 /\ -1 <= dx <= 1 /\
                         query_hit g c dz dy dx w).
    apply (fold_left_keeps_in _ P); [|intros []].
    intros a dz Hz. apply in_int_range in Hz.
    apply (fold_left_keeps_in _ P).
    intros a' dy Hy. apply in_int_range in Hy.
    apply (fold_left_keeps_in _ P).
    intros a'' dx Hx. apply in_int_range in Hx.
    unfold P. intros Ha H. apply query_cell_In in H.
    destruct H as [H|H]; [auto|]. exists dz, dy, dx. auto.
  - intros [dz [dy [dx [Hz [Hy [Hx H]]]]]].
    set (Q := fun acc : list Z => In w acc).
    assert (Hk : forall dz dy dx a, Q a -> Q (query_cell g c dz dy dx a)).
    { intros. now apply query_cell_keeps. }
    apply (fold_left_reaches _ (fun _ => True) Q dz); auto.
    + intros a z. apply fold_left_keeps. intros a' y.
      apply fold_left_keeps. intros a'' x. apply Hk.
    + intros a _.
      apply (fold_left_reaches _ (fun _ => True) Q dy); auto.
      * intros a' y. apply fold_left_keeps. intros a'' x. apply Hk.
      * intros a' _.
        apply (fold_left_reaches _ (fun _ => True) Q dx); auto.
        -- intros a'' _. apply query_cell_In. now right.
        -- now apply in_int_range.
      * now apply in_int_range.
    + now apply in_int_range.
Qed.

Lemma valid_cell_guard g c :
  grid_wf g -> cells_fit g -> valid_cell g c ->
  cell_in_range (gridCells g) (cell_id g c) = true.
Proof.
  intros W F V. unfold cell_id, cell_in_range.
  destruct (Get1DIndex_exact g _ _ _ W F (proj2 (IsValidIndex_spec g _ _ _) V))
    as [_ Hr].
  rewrite <- (totalCells_exact g W F) in Hr. rewrite (size_as_int g W).
  apply andb_true_iff. split; [apply Z.leb_le | apply Z.ltb_lt]; lia.
Qed.

(** On a grid whose cell count fits, [Query] is the union of the valid cells
    of the 3 x 3 x 3 block around the clamped cell of the position. *)
Lemma Query_block g p w :
  grid_wf g -> cells_fit g ->
  (In w (Query g p) <->
   exists c, valid_cell g c /\ cell_near (GetCellIndices g p) c /\
             In w (cell_at (gridCells g) (cell_id g c))).
Proof.
  intros W F. rewrite Query_In.
  pose proof (GetCellIndices_valid g p W) as [Vx [Vy Vz]].
  pose proof (wf_dimX g W) as Dx. pose proof (wf_dimY g W) as Dy.
  pose proof (wf_dimZ g W) as Dz.
  set (c0 := GetCellIndices g p) in *.
  assert (Hadd : forall d, -1 <= d <= 1 ->
            iadd (Vector3Int.x c0) d = Vector3Int.x c0 + d /\
            iadd (Vector3Int.y c0) d = Vector3Int.y c0 + d /\
            iadd (Vector3Int.z c0) d = Vector3Int.z c0 + d).
  { intros d Hd. unfold iadd.
    rewrite !wrap32_small by (int_consts; lia). auto. }
  split.
  - intros [dz [dy [dx [Hz [Hy [Hx [V [_ Hin]]]]]]]].
    destruct (Hadd dx Hx) as [Ex _]. destruct (Hadd dy Hy) as [_ [Ey _]].
    destruct (Hadd dz Hz) as [_ [_ Ez]].
    rewrite Ex, Ey, Ez in V, Hin.
    exists (Vector3Int.mk (Vector3Int.x c0 + dx) (Vector3Int.y c0 + dy)
                          (Vector3Int.z c0 + dz)).
    split; [now apply IsValidIndex_spec in V|].
    split; [unfold cell_near; simpl; lia | exact Hin].
  - intros [c [V [[Nx [Ny Nz]] Hin]]].
    exists (Vector3Int.z c - Vector3Int.z c0), (Vector3Int.y c - Vector3Int.y c0),
           (Vector3Int.x c - Vector3Int.x c0).
    split; [lia|]. split; [lia|]. split; [lia|].
    destruct (Hadd _ Nx) as [Ex _]. destruct (Hadd _ Ny) as [_ [Ey _]].
    destruct (Hadd _ Nz) as [_ [_ Ez]].
    unfold query_hit. rewrite Ex, Ey, Ez.
    replace (Vector3Int.x c0 + (Vector3Int.x c - Vector3Int.x c0))
      with (Vector3Int.x c) by lia.
    replace (Vector3Int.y c0 + (Vector3Int.y c - Vector3Int.y c0))
      with (Vector3Int.y c) by lia.
    replace (Vector3Int.z c0 + (Vector3Int.z c - Vector3Int.z c0))
      with (Vector3Int.z c) by lia.
    split; [now apply IsValidIndex_spec|].
    split; [now apply valid_cell_guard | exact Hin].
Qed.

(** X4.  On a reachable grid whose cell count fits in [int], [Query p]
    returns exactly the indices stored in the valid cells of the 3 x 3 x 3
    block centred on the clamped cell of [p]: nothing from farther cells,
    and nothing of the block is left out. *)
Theorem query_is_union_of_block g p w :
  grid_state g -> cells_fit g ->
  (In w (Query g p) <->
   exists c, valid_cell g c /\ cell_near (GetCellIndices g p) c /\
             In w (cell_at (gridCells g) (cell_id g c))).
Proof. intros G F. apply Query_block; auto using grid_state_wf. Qed.

Lemma query_is_union_of_block_witness :
  In 0 (Query (BuildInstanced small_grid small_objects) (vec 25 15 5)).
Proof.
  apply (query_is_union_of_block (BuildInstanced small_grid small_objects)
           (vec 25 15 5) 0).
  - apply grid_rebuilt.
    apply (grid_constructed (vec 0 0 0) (vec 40 40 40) (vec 10 10 10)).
    vm_compute. reflexivity.
  - vm_compute. discriminate.
  - exists (Vector3Int.mk 1 0 0). vm_compute.
    repeat split; try discriminate. left. reflexivity.
Defined.

(** ** What a build stores, cell by cell *)

Lemma add_to_cell_nth_where g idx iz iy ix cells j w :
  In w (nth j (add_to_cell g idx iz iy ix cells) []) ->
  In w (nth j cells []) \/
  (w = idx /\ IsValidIndex g ix iy iz = true /\
   0 <= Get1DIndex g ix iy iz /\ j = Z.to_nat (Get1DIndex g ix iy iz)).
Proof.
  unfold add_to_cell.
  destruct (IsValidIndex g ix iy iz); [|tauto].
  destruct (cell_in_range cells _) eqn:E; [|tauto].
  rewrite push_back_at_nth. intros [H|[H1 [_ H2]]]; [tauto|].
  right. unfold cell_in_range in E. apply andb_true_iff in E.
  destruct E as [E _]. apply Z.leb_le in E. auto.
Qed.

Lemma add_cells_nth_where g idx lo hi cells j w :
  In w (nth j (add_cells g idx lo hi cells) []) ->
  In w (nth j cells []) \/ (w = idx /\ reached_by g lo hi j).
Proof.
  unfold add_cells.
  set (P := fun cs : list (list Z) =>
              In w (nth j cs []) ->
              In w (nth j cells []) \/ (w = idx /\ reached_by g lo hi j)).
  apply (fold_left_keeps_in _ P); [|unfold P; tauto].
  intros a iz Hz. apply in_int_range in Hz.
  apply (fold_left_keeps_in _ P).
  intros a' iy Hy. apply in_int_range in Hy.
  apply (fold_left_keeps_in _ P).
  intros a'' ix Hx. apply in_int_range in Hx.
  unfold P. intros Ha H. apply add_to_cell_nth_where in H.
  destruct H as [H|[-> [V [Hn ->]]]]; [auto|].
  right. split; [reflexivity|].
  exists (Vector3Int.mk ix iy iz). unfold cell_between, cell_id; simpl.
  apply IsValidIndex_spec in V. repeat split; try lia; apply V.
Qed.

Lemma build_from_where (objs : list Asteroid.t) (g0 : UniformGrid)
    (R : nat -> Z -> Prop) :
  (forall n a j, nth_error objs n = Some a -> Asteroid.isActive a = true ->
                 reached_by g0 (box_lo g0 a) (box_hi g0 a) j ->
                 R j (wrap32 (Z.of_nat n))) ->
  forall rest cells i,
  (forall n a, nth_error rest n = Some a -> nth_error objs (i + n) = Some a) ->
  (forall j w, In w (nth j cells []) -> R j w) ->
  forall j w,
  In w (nth j (gridCells (build_from (with_cells g0 cells) i rest)) []) ->
  R j w.
Proof.
  intros HR. induction rest as [|a rest IH]; intros cells i Hsub Hc;
    [exact Hc|].
  cbn [build_from].
  assert (Hsub' : forall n b, nth_error rest n = Some b ->
                              nth_error objs (S i + n) = Some b).
  { intros n b Hn. replace (S i + n)%nat with (i + S n)%nat by lia.
    apply Hsub. exact Hn. }
  destruct (Asteroid.isActive a) eqn:Ea.
  - change (Add (with_cells g0 cells) (wrap32 (Z.of_nat i)) (worldBounds a))
      with (with_cells g0 (add_cells g0 (wrap32 (Z.of_nat i))
                             (box_lo g0 a) (box_hi g0 a) cells)).
    apply IH; [exact Hsub'|].
    intros j w Hw. apply add_cells_nth_where in Hw.
    destruct Hw as [Hw|[-> Hr]]; [auto|].
    apply (HR i a j); auto.
    replace i with (i + 0)%nat by lia. apply Hsub. reflexivity.
  - apply IH; [exact Hsub' | exact Hc].
Qed.

(** The exact contents of a cell after a build. *)
Lemma BuildInstanced_cell_contents g objs c w :
  grid_wf g -> cells_fit g -> valid_cell g c ->
  (In w (cell_at (gridCells (BuildInstanced g objs)) (cell_id g c)) <->
   stored_for g objs (fun c' => c' = c) w).
Proof.
  intros W F V. split.
  - unfold BuildInstanced, Clear, cell_at. intros Hin.
    refine (build_from_where objs g
             (fun j w => j = Z.to_nat (cell_id g c) ->
                         stored_for g objs (fun c' => c' = c) w)
             _ objs _ 0%nat _ _ _ w Hin eq_refl); [| auto |].
    + intros n a j Hn Ha [c' [Hb [V' [Hp ->]]]] Hj.
      exists n, a, c'. repeat split; try assumption; try apply Hb.
      apply (Get1DIndex_inj g c' c W F V' V).
      assert (0 <= cell_id g c).
      { unfold cell_id.
        apply (Get1DIndex_exact g _ _ _ W F
                 (proj2 (IsValidIndex_spec g _ _ _) V)). }
      apply Z2Nat.inj; assumption.
    + intros j w' H.
      rewrite clear_cells_empty in H by (rewrite (wf_size g W); lia).
      contradiction.
  - intros [n [a [c' [Hn [Ha [-> [Hb Hc]]]]]]]. subst c'.
    apply (build_from_reaches objs (Clear g) 0 n a c); auto.
    now apply Clear_wf.
Qed.

(** X5.  On a reachable grid whose cell count fits in [int], after
    [BuildInstanced] a valid cell holds exactly the stored indices [(int)n]
    of the active instances whose clamped cell range (from the cell of the
    near box corner to the cell of the far box corner, on every axis)
    contains that cell: no active instance covering the cell is missing and
    nothing else is stored. *)
Theorem cell_contents_after_build g objs c w :
  grid_state g -> cells_fit g -> valid_cell g c ->
  (In w (cell_at (gridCells (BuildInstanced g objs)) (cell_id g c)) <->
   exists n a, nth_error objs n = Some a /\ Asteroid.isActive a = true /\
               w = wrap32 (Z.of_nat n) /\
               cell_between (box_lo g a) c (box_hi g a)).
Proof.
  intros G F V.
  rewrite (BuildInstanced_cell_contents g objs c w (grid_state_wf g G) F V).
  unfold stored_for. split.
  - intros [n [a [c' [Hn [Ha [Hw [Hb ->]]]]]]]. eauto 6.
  - intros [n [a [Hn [Ha [Hw Hb]]]]]. exists n, a, c. auto.
Qed.

Lemma cell_contents_after_build_witness :
  ~ In 0 (cell_at (gridCells (BuildInstanced small_grid small_objects))
                  (cell_id small_grid (Vector3Int.mk 2 0 0))).
Proof.
  assert (G : grid_state small_grid).
  { apply (grid_constructed (vec 0 0 0) (vec 40 40 40) (vec 10 10 10)).
    vm_compute. reflexivity. }
  assert (F : cells_fit small_grid) by (vm_compute; discriminate).
  assert (V : valid_cell small_grid (Vector3Int.mk 2 0 0))
    by (vm_compute; repeat split; discriminate).
  intros H.
  destruct (proj1 (cell_contents_after_build small_grid small_objects
                     (Vector3Int.mk 2 0 0) 0 G F V) H)
    as [n [a [Hn [Ha [Hw Hb]]]]].
  destruct n as [|[|n]]; simpl in Hn.
  - injection Hn as <-. vm_compute in Hb. destruct Hb as [[_ Hb] _].
    apply Hb. reflexivity.
  - injection Hn as <-. discriminate Ha.
  - destruct n; discriminate Hn.
Defined.

(** X6.  On a reachable grid whose cell count fits in [int], after
    [BuildInstanced] the result of [Query p] is exactly the set of stored
    indices [(int)n] of the active instances whose clamped cell range meets
    the 3 x 3 x 3 block centred on the clamped cell of [p]. *)
Theorem query_after_build g objs p w :
  grid_state g -> cells_fit g ->
  (In w (Query (BuildInstanced g objs) p) <->
   exists n a c, nth_error objs n = Some a /\ Asteroid.isActive a = true /\
                 w = wrap32 (Z.of_nat n) /\
                 cell_between (box_lo g a) c (box_hi g a) /\
                 cell_near (GetCellIndices g p) c).
Proof.
  intros G F. pose proof (grid_state_wf g G) as W.
  rewrite (Query_block (BuildInstanced g objs) p w
             (BuildInstanced_wf g objs G) (BuildInstanced_fit g objs F)).
  destruct (BuildInstanced_cells g objs) as [cells E].
  split.
  - intros [c [V [Hn Hin]]]. rewrite E in V, Hn, Hin.
    change (valid_cell g c) in V.
    change (cell_id (with_cells g cells) c) with (cell_id g c) in Hin.
    change (GetCellIndices (with_cells g cells) p)
      with (GetCellIndices g p) in Hn.
    rewrite <- E in Hin.
    apply (BuildInstanced_cell_contents g objs c w W F V) in Hin.
    destruct Hin as [n [a [c' [Hi [Ha [Hw [Hb ->]]]]]]].
    exists n, a, c. auto.
  - intros [n [a [c [Hi [Ha [Hw [Hb Hn]]]]]]].
    assert (V : valid_cell g c).
    { apply IsValidIndex_spec. eapply cell_between_valid; eassumption. }
    exists c.
    assert (Hin : In w (cell_at (gridCells (BuildInstanced g objs))
                                (cell_id g c))).
    { apply (BuildInstanced_cell_contents g objs c w W F V).
      exists n, a, c. auto. }
    rewrite E in *. auto.
Qed.

Lemma query_after_build_witness :
  ~ In 0 (Query (BuildInstanced small_grid small_objects) (vec 35 35 35)).
Proof.
  assert (G : grid_state small_grid).
  { apply (grid_constructed (vec 0 0 0) (vec 40 40 40) (vec 10 10 10)).
    vm_compute. reflexivity. }
  assert (F : cells_fit small_grid) by (vm_compute; discriminate).
  intros H.
  destruct (proj1 (query_after_build small_grid small_objects
                     (vec 35 35 35) 0 G F) H)
    as [n [a [c [Hn [Ha [Hw [Hb Hc]]]]]]].
  destruct n as [|[|n]]; simpl in Hn.
  - injection Hn as <-.
    assert (Ehi : box_hi small_grid rock = Vector3Int.mk 1 0 0)
      by (vm_compute; reflexivity).
    assert (Ep : GetCellIndices small_grid (vec 35 35 35)
                 = Vector3Int.mk 3 3 3) by (vm_compute; reflexivity).
    rewrite Ehi in Hb. rewrite Ep in Hc.
    destruct Hb as [[_ Hb] _]. destruct Hc as [[Hc _] _].
    simpl in Hb, Hc. lia.
  - injection Hn as <-. discriminate Ha.
  - destruct n; discriminate Hn.
Defined.

(** ** Empty and stale snapshots *)

Lemma no_members_nil {A : Type} (l : list A) : (forall x, ~ In x l) -> l = [].
Proof.
  destruct l as [|x l]; [reflexivity|]. intros H.
  exfalso. apply (H x). now left.
Qed.

Lemma nth_error_In_from {A : Type} (l : list A) n a :
  nth_error l n = Some a -> In a l.
Proof. apply nth_error_In. Qed.

(** X7.  When no instance is active at build time (in particular when the
    snapshot is empty), every cell is empty after [BuildInstanced], [Query]
    returns the empty list at every position, and [QueryRay] returns the
    empty list for every ray and distance. *)
Theorem nothing_active_nothing_found g objs :
  grid_state g ->
  (forall a, In a objs -> Asteroid.isActive a = false) ->
  (forall j, nth j (gridCells (BuildInstanced g objs)) [] = []) /\
  (forall p, Query (BuildInstanced g objs) p = []) /\
  (forall ray d, QueryRay (BuildInstanced g objs) ray d = Some []).
Proof.
  intros G Hall.
  assert (Hno : forall w, ~ in_some_cell (BuildInstanced g objs) w).
  { intros w [j Hj].
    apply BuildInstanced_only in Hj; [|apply grid_state_wf, G].
    destruct Hj as [n [a [Hn [Ha _]]]].
    rewrite (Hall a (nth_error_In_from _ _ _ Hn)) in Ha. discriminate. }
  split; [|split].
  - intros j. apply no_members_nil. intros w Hw. apply (Hno w). now exists j.
  - intros p. apply no_members_nil. intros w Hw.
    apply (Hno w). eapply Query_only. exact Hw.
  - intros ray d.
    assert (G' : grid_state (BuildInstanced g objs)) by now constructor.
    pose proof (grid_wf_dims _ (grid_state_wf _ G')) as D.
    destruct (QueryRay_with_terminates advance (BuildInstanced g objs) ray d
                (ray_fuel (BuildInstanced g objs)) D
                ltac:(intros su st; eexists; reflexivity) (Nat.le_refl _))
      as [r Hr].
    unfold QueryRay. rewrite Hr. f_equal.
    apply no_members_nil. intros w Hw. apply (Hno w).
    eapply QueryRay_with_only; [|exact Hr|exact Hw].
    intros su st. apply advance_along_indices.
Qed.

Lemma nothing_active_nothing_found_witness :
  QueryRay (BuildInstanced small_grid [wreck; wreck]) diagonal_ray (fz 100)
  = Some [].
Proof.
  apply (nothing_active_nothing_found small_grid [wreck; wreck]).
  - apply (grid_constructed (vec 0 0 0) (vec 40 40 40) (vec 10 10 10)).
    vm_compute. reflexivity.
  - intros a [<-|[<-|[]]]; reflexivity.
Defined.

(** X8.  After [BuildInstanced] on a snapshot of at most 2^31 instances,
    every index returned by [Query] or [QueryRay] is a position of the
    snapshot (0 <= index < size) and the instance at that position was
    active at build time: the range check the callers make on each index
    never rejects one. *)
Theorem returned_indices_are_valid g objs :
  grid_state g -> Z.of_nat (length objs) <= INT_MAX + 1 ->
  (forall p w, In w (Query (BuildInstanced g objs) p) ->
     0 <= w < Z.of_nat (length objs) /\
     exists a, nth_error objs (Z.to_nat w) = Some a /\
               Asteroid.isActive a = true) /\
  (forall ray d r w, QueryRay (BuildInstanced g objs) ray d = Some r ->
     In w r ->
     0 <= w < Z.of_nat (length objs) /\
     exists a, nth_error objs (Z.to_nat w) = Some a /\
               Asteroid.isActive a = true).
Proof.
  intros G Hlen.
  assert (Hcell : forall w, in_some_cell (BuildInstanced g objs) w ->
     0 <= w < Z.of_nat (length objs) /\
     exists a, nth_error objs (Z.to_nat w) = Some a /\
               Asteroid.isActive a = true).
  { intros w [j Hj].
    apply BuildInstanced_only in Hj; [|apply grid_state_wf, G].
    destruct Hj as [n [a [Hn [Ha ->]]]].
    assert (n < length objs)%nat by (apply nth_error_Some; congruence).
    rewrite wrap32_small by (int_consts; lia).
    split; [lia|]. exists a. now rewrite Nat2Z.id. }
  split.
  - intros p w Hw. apply Hcell. eapply Query_only. exact Hw.
  - intros ray d r w Hr Hw. apply Hcell.
    eapply QueryRay_with_only; [|exact Hr|exact Hw].
    intros su st. apply advance_along_indices.
Qed.

Lemma returned_indices_are_valid_witness :
  Forall (fun w => 0 <= w < 2)
         (Query (BuildInstanced small_grid small_objects) (vec 12 3 7)).
Proof.
  apply Forall_forall. intros w Hw.
  destruct (returned_indices_are_valid small_grid small_objects) as [H _].
  - apply (grid_constructed (vec 0 0 0) (vec 40 40 40) (vec 10 10 10)).
    vm_compute. reflexivity.
  - vm_compute. discriminate.
  - apply (H (vec 12 3 7) w Hw).
Defined.

(** ** The start cell of a ray *)

Lemma ray_walk_keeps adv g d :
  (forall st, uniqueIndices (adv st) = uniqueIndices st) ->
  forall fuel st r w,
  ray_walk adv g d fuel st = Some r -> In w (uniqueIndices st) -> In w r.
Proof.
  intros Hadv. induction fuel as [|fuel IH]; intros st r w; simpl.
  - destruct (flt (currentT st) d); [discriminate|].
    intros H; injection H as <-. auto.
  - destruct (flt (currentT st) d).
    + destruct (fge (currentT (adv st)) d).
      { intros H; injection H as <-. now rewrite Hadv. }
      destruct (negb (IsValidIndex g _ _ _)).
      { intros H; injection H as <-. now rewrite Hadv. }
      intros H Hw. apply (IH _ _ _ H).
      unfold collect. destruct (cell_in_range _ _); simpl.
      * apply set_insert_all_In. right. now rewrite Hadv.
      * now rewrite Hadv.
    + intros H; injection H as <-. auto.
Qed.

Lemma QueryRay_with_unfold adv fuel g ray d :
  QueryRay_with adv fuel g ray d
  = if flt (Vector3LengthSqr (Ray.direction ray)) f0_0001
    then Some (Query g (Ray.position ray))
    else ray_walk (adv (fst (ray_setup g ray))) g d fuel (snd (ray_setup g ray)).
Proof.
  unfold QueryRay_with. destruct (ray_setup g ray); reflexivity.
Qed.

Lemma cell_id_eq g c :
  cell_id g c = Get1DIndex g (Vector3Int.x c) (Vector3Int.y c) (Vector3Int.z c).
Proof. reflexivity. Qed.

Lemma ray_setup_start g ray :
  currentT (snd (ray_setup g ray)) = f0 /\
  uniqueIndices (snd (ray_setup g ray))
  = if IsValidIndex g (Vector3Int.x (GetCellIndices g (Ray.position ray)))
                      (Vector3Int.y (GetCellIndices g (Ray.position ray)))
                      (Vector3Int.z (GetCellIndices g (Ray.position ray)))
    then if cell_in_range (gridCells g)
              (Get1DIndex g
                 (Vector3Int.x (GetCellIndices g (Ray.position ray)))
                 (Vector3Int.y (GetCellIndices g (Ray.position ray)))
                 (Vector3Int.z (GetCellIndices g (Ray.position ray))))
         then set_insert_all
                (cell_at (gridCells g)
                   (Get1DIndex g
                      (Vector3Int.x (GetCellIndices g (Ray.position ray)))
                      (Vector3Int.y (GetCellIndices g (Ray.position ray)))
                      (Vector3Int.z (GetCellIndices g (Ray.position ray)))))
                []
         else []
    else [].
Proof. split; reflexivity. Qed.

Lemma ray_setup_first g ray w :
  grid_wf g -> cells_fit g ->
  (In w (uniqueIndices (snd (ray_setup g ray))) <->
   In w (cell_at (gridCells g) (cell_id g (GetCellIndices g (Ray.position ray))))).
Proof.
  intros W F.
  pose proof (GetCellIndices_valid g (Ray.position ray) W) as V.
  pose proof (valid_cell_guard g _ W F V) as Hg.
  rewrite cell_id_eq in Hg. rewrite cell_id_eq.
  rewrite (proj2 (ray_setup_start g ray)).
  rewrite (proj2 (IsValidIndex_spec g _ _ _) V), Hg.
  rewrite set_insert_all_In. simpl. tauto.
Qed.

(** X9.  On a reachable grid whose cell count fits in [int], [QueryRay]
    always returns everything stored in the clamped cell of the ray origin,
    for every direction and every maximum distance; and when the maximum
    distance is not positive (d <= 0) a ray with a usable direction returns
    exactly the contents of that cell. *)
Theorem ray_query_covers_start_cell g ray d r :
  grid_state g -> cells_fit g ->
  QueryRay g ray d = Some r ->
  (forall w, In w (cell_at (gridCells g)
                     (cell_id g (GetCellIndices g (Ray.position ray)))) ->
             In w r) /\
  (flt (Vector3LengthSqr (Ray.direction ray)) f0_0001 = false ->
   fle d f0 = true ->
   forall w, In w r ->
             In w (cell_at (gridCells g)
                     (cell_id g (GetCellIndices g (Ray.position ray))))).
Proof.
  intros G F. pose proof (grid_state_wf g G) as W.
  unfold QueryRay. rewrite QueryRay_with_unfold.
  destruct (flt (Vector3LengthSqr (Ray.direction ray)) f0_0001) eqn:Edeg.
  - intros H; injection H as <-. split; [|discriminate].
    intros w Hw. rewrite cell_id_eq in Hw. now apply Query_center.
  - intros Hr. split.
    + intros w Hw. eapply ray_walk_keeps; [|exact Hr|].
      * intros st'. apply advance_along_indices.
      * now apply ray_setup_first.
    + intros _ Hd w Hw. apply (ray_setup_first g ray w W F).
      assert (Hstop : flt (currentT (snd (ray_setup g ray))) d = false).
      { rewrite (proj1 (ray_setup_start g ray)).
        destruct (flt f0 d) eqn:E; [|reflexivity].
        apply flt_not_fle in E. congruence. }
      destruct (ray_fuel g); cbn [ray_walk] in Hr; rewrite Hstop in Hr;
        injection Hr as <-; exact Hw.
Qed.

Lemma ray_query_covers_start_cell_witness :
  exists r, QueryRay (BuildInstanced small_grid small_objects)
                     (Ray.mk (vec 15 5 5) (vec 0 0 1)) (fz 0) = Some r /\
            In 0 r.
Proof.
  exists [0]. split; [vm_compute; reflexivity|].
  assert (G : grid_state (BuildInstanced small_grid small_objects)).
  { apply grid_rebuilt.
    apply (grid_constructed (vec 0 0 0) (vec 40 40 40) (vec 10 10 10)).
    vm_compute. reflexivity. }
  assert (F : cells_fit (BuildInstanced small_grid small_objects))
    by (vm_compute; discriminate).
  assert (E : QueryRay (BuildInstanced small_grid small_objects)
                (Ray.mk (vec 15 5 5) (vec 0 0 1)) (fz 0) = Some [0])
    by (vm_compute; reflexivity).
  destruct (ray_query_covers_start_cell _ _ _ _ G F E) as [H _].
  apply H. vm_compute. left. reflexivity.
Defined.

(** ** Raising the maximum distance *)

Lemma collect_keeps g st w :
  In w (uniqueIndices st) -> In w (uniqueIndices (collect g st)).
Proof.
  intros H. unfold collect. destruct (cell_in_range _ _); simpl; [|exact H].
  apply set_insert_all_In. now right.
Qed.

Lemma ray_walk_mono adv g d1 d2 :
  fle d1 d2 = true ->
  (forall st, uniqueIndices (adv st) = uniqueIndices st) ->
  forall fuel st r1 r2,
  ray_walk adv g d1 fuel st = Some r1 ->
  ray_walk adv g d2 fuel st = Some r2 -> incl r1 r2.
Proof.
  intros Hd Hadv. induction fuel as [|fuel IH]; intros st r1 r2.
  - simpl. destruct (flt (currentT st) d1); [discriminate|].
    destruct (flt (currentT st) d2); [discriminate|].
    intros H1 H2. injection H1 as <-. injection H2 as <-. apply incl_refl.
  - intros H1 H2.
    destruct (flt (currentT st) d1) eqn:E1.
    + assert (E2 : flt (currentT st) d2 = true)
        by (eapply flt_fle_trans; eassumption).
      cbn [ray_walk] in H1, H2. rewrite E1 in H1. rewrite E2 in H2.
      destruct (fge (currentT (adv st)) d1) eqn:B1.
      * injection H1 as <-. intros w Hw.
        destruct (fge (currentT (adv st)) d2);
          [injection H2 as <-; exact Hw|].
        destruct (negb (IsValidIndex g _ _ _));
          [injection H2 as <-; exact Hw|].
        eapply ray_walk_keeps; [exact Hadv | exact H2 |].
        now apply collect_keeps.
      * assert (B2 : fge (currentT (adv st)) d2 = false).
        { destruct (fge (currentT (adv st)) d2) eqn:B2; [|reflexivity].
          pose proof (fle_trans d1 d2 (currentT (adv st)) Hd B2) as B.
          unfold fge, fle in *. congruence. }
        rewrite B2 in H2.
        destruct (negb (IsValidIndex g _ _ _)).
        -- injection H1 as <-. injection H2 as <-. apply incl_refl.
        -- eapply IH; eassumption.
    + assert (r1 = uniqueIndices st).
      { cbn [ray_walk] in H1. rewrite E1 in H1. now injection H1 as <-. }
      subst r1. intros w Hw. eapply ray_walk_keeps; eassumption.
Qed.

(** X10.  Raising the maximum distance never loses a candidate: for
    d1 <= d2, every index [QueryRay] returns within distance d1 is also
    returned within distance d2, for the same ray on the same grid. *)
Theorem ray_query_grows_with_distance g ray d1 d2 r1 r2 :
  fle d1 d2 = true ->
  QueryRay g ray d1 = Some r1 -> QueryRay g ray d2 = Some r2 ->
  incl r1 r2.
Proof.
  intros Hd. unfold QueryRay. rewrite !QueryRay_with_unfold.
  destruct (flt (Vector3LengthSqr (Ray.direction ray)) f0_0001).
  - intros H1 H2. injection H1 as <-. injection H2 as <-. apply incl_refl.
  - apply ray_walk_mono; [exact Hd|].
    intros st. apply advance_along_indices.
Qed.

Lemma ray_query_grows_with_distance_witness :
  QueryRay (BuildInstanced small_grid rock_row) row_ray (fz 12)
  = Some [0; 2] /\
  QueryRay (BuildInstanced small_grid rock_row) row_ray (fz 100)
  = Some [0; 1; 2] /\
  incl [0; 2] [0; 1; 2].
Proof.
  assert (E1 : QueryRay (BuildInstanced small_grid rock_row) row_ray (fz 12)
               = Some [0; 2]) by (vm_compute; reflexivity).
  assert (E2 : QueryRay (BuildInstanced small_grid rock_row) row_ray (fz 100)
               = Some [0; 1; 2]) by (vm_compute; reflexivity).
  split; [exact E1|]. split; [exact E2|].
  apply (ray_query_grows_with_distance
           (BuildInstanced small_grid rock_row) row_ray
           (fz 12) (fz 100) [0; 2] [0; 1; 2]).
  - vm_compute. reflexivity.
  - exact E1.
  - exact E2.
Defined.

(* ================================================================== *)
(** * The score *)

Lemma wrap32_add_l a b : wrap32 (wrap32 a + b) = wrap32 (a + b).
Proof.
  unfold wrap32.
  replace (((a + 2 ^ 31) mod 2 ^ 32 - 2 ^ 31) + b + 2 ^ 31)
    with ((a + 2 ^ 31) mod 2 ^ 32 + b) by lia.
  rewrite Z.add_mod_idemp_l by (int_consts; lia).
  f_equal. f_equal. lia.
Qed.

Lemma sum_positive_nonneg ps : 0 <= sum_positive ps.
Proof.
  induction ps as [|p ps IH]; simpl; [lia|].
  destruct (Z.ltb_spec 0 p); lia.
Qed.

Lemma AddScore_fold ps : forall s,
  fold_left (fun s p => AddScore p s) ps (wrap32 s)
  = wrap32 (s + sum_positive ps).
Proof.
  induction ps as [|p ps IH]; intros s; simpl.
  - f_equal; lia.
  - unfold AddScore at 2. destruct (Z.ltb_spec 0 p).
    + unfold iadd. rewrite wrap32_add_l, IH. f_equal; lia.
    + rewrite IH. f_equal; lia.
Qed.

(** X11.  After [InitializeScore], whatever the score was, a sequence of
    [AddScore] calls leaves [GetScore] equal to the sum of the positive
    amounts, reduced to [int]; amounts that are zero or negative change
    nothing.  While that sum does not exceed INT_MAX the score is exactly
    the sum, so it is never negative and never decreases. *)
Theorem score_is_sum_of_positive_points before ps :
  GetScore (fold_left (fun s p => AddScore p s) ps (InitializeScore before))
  = wrap32 (sum_positive ps) /\
  (sum_positive ps <= INT_MAX ->
   GetScore (fold_left (fun s p => AddScore p s) ps (InitializeScore before))
   = sum_positive ps) /\
  (forall p s, p <= 0 -> AddScore p s = s).
Proof.
  unfold GetScore, InitializeScore.
  assert (E : fold_left (fun s p => AddScore p s) ps 0
              = wrap32 (sum_positive ps)).
  { change 0 with (wrap32 0) at 1. now rewrite AddScore_fold. }
  split; [exact E|]. split.
  - intros H. rewrite E. apply wrap32_small.
    pose proof (sum_positive_nonneg ps). int_consts; lia.
  - intros p s Hp. unfold AddScore. destruct (Z.ltb_spec 0 p); [lia|reflexivity].
Qed.

Lemma score_is_sum_of_positive_points_witness :
  GetScore (fold_left (fun s p => AddScore p s) [10; -5; 0; 10; 10]
                      (InitializeScore 77)) = 30.
Proof.
  apply (score_is_sum_of_positive_points 77 [10; -5; 0; 10; 10]).
  vm_compute. discriminate.
Defined.

(* ================================================================== *)
(** * The particle pool *)

Lemma for_each_below_length n body pool :
  length (for_each_below n body pool) = length pool.
Proof.
  revert pool; induction n as [|n IH]; intros [|p rest]; simpl; auto.
Qed.

Lemma for_each_below_nth n body pool k d :
  (k < n)%nat -> (k < length pool)%nat ->
  nth k (for_each_below n body pool) d = body (nth k pool d).
Proof.
  revert pool k; induction n as [|n IH]; intros [|p rest] k Hn Hl;
    simpl in *; try lia.
  destruct k; [reflexivity|]. apply IH; lia.
Qed.

Lemma store_at_length k p pool : length (store_at k p pool) = length pool.
Proof.
  revert k; induction pool as [|q rest IH]; intros [|k]; simpl; auto.
Qed.

Lemma store_at_nth k p pool j d :
  (k < length pool)%nat ->
  nth j (store_at k p pool) d = if Nat.eqb j k then p else nth j pool d.
Proof.
  revert k j; induction pool as [|q rest IH]; intros k j Hk; simpl in *;
    [lia|].
  destruct k, j; simpl; try reflexivity.
  apply IH. lia.
Qed.

Lemma emit_one_spec position speed duration color s r :
  pool_invariant s ->
  let s' := fst (emit_one position speed duration color s r) in
  pool_invariant s' /\
  nextParticleIndex s'
    = (if nextParticleIndex s + 1 <? MAX_PARTICLES
       then nextParticleIndex s + 1 else 0) /\
  Particle.isActive (particle_at s' (nextParticleIndex s)) = true /\
  Particle.position (particle_at s' (nextParticleIndex s)) = position /\
  Particle.color (particle_at s' (nextParticleIndex s)) = color /\
  (forall k, 0 <= k -> k <> nextParticleIndex s ->
             particle_at s' k = particle_at s k).
Proof.
  intros [Hl Hn]. unfold MAX_PARTICLES in *.
  unfold emit_one.
  destruct (rand r) as [v1 r1].
  destruct (GetRandomFloat (float_of_int (-1)) f1 r1) as [vx r2].
  destruct (GetRandomFloat (float_of_int (-1)) f1 r2) as [vy r3].
  destruct (GetRandomFloat (float_of_int (-1)) f1 r3) as [vz r4].
  destruct (rand r4) as [v2 r5].
  cbn [fst particles nextParticleIndex].
  assert (Hk : (Z.to_nat (nextParticleIndex s) < length (particles s))%nat)
    by (rewrite Hl; lia).
  unfold iadd. rewrite wrap32_small by (int_consts; lia).
  unfold particle_at, pool_invariant, MAX_PARTICLES.
  cbn [particles nextParticleIndex].
  rewrite store_at_length.
  repeat split.
  - exact Hl.
  - destruct (Z.leb_spec 500 (nextParticleIndex s + 1)); lia.
  - destruct (Z.leb_spec 500 (nextParticleIndex s + 1)); lia.
  - destruct (Z.leb_spec 500 (nextParticleIndex s + 1));
      destruct (Z.ltb_spec (nextParticleIndex s + 1) 500); lia.
  - rewrite store_at_nth by exact Hk. now rewrite Nat.eqb_refl.
  - rewrite store_at_nth by exact Hk. now rewrite Nat.eqb_refl.
  - rewrite store_at_nth by exact Hk. now rewrite Nat.eqb_refl.
  - intros k Hk0 Hne. rewrite store_at_nth by exact Hk.
    destruct (Nat.eqb_spec (Z.to_nat k) (Z.to_nat (nextParticleIndex s)));
      [|reflexivity].
    exfalso. apply Hne. apply Z2Nat.inj; lia.
Qed.

Lemma emit_loop_invariant position speed duration color : forall n s r,
  pool_invariant s ->
  pool_invariant (fst (emit_loop n position speed duration color s r)).
Proof.
  induction n as [|n IH]; intros s r H; cbn [emit_loop]; [exact H|].
  pose proof (emit_one_spec position speed duration color s r H) as [H' _].
  destruct (emit_one position speed duration color s r) as [s' r'].
  apply IH. exact H'.
Qed.

Lemma pool_invariant_at_start : pool_invariant particles_at_start.
Proof.
  unfold pool_invariant, particles_at_start.
  cbn [particles nextParticleIndex].
  split; [apply repeat_length | unfold MAX_PARTICLES; lia].
Qed.

(** X12.  The pool keeps its 500 slots and [nextParticleIndex] stays in
    [0, 500) through [InitializeParticles], [UpdateParticles] and
    [EmitParticles], from the state the program starts in: every
    [particles[pIndex]] that [EmitParticles] writes is inside the pool,
    whatever the count and the random numbers. *)
Theorem particle_pool_invariant :
  pool_invariant particles_at_start /\
  (forall s, pool_invariant s -> pool_invariant (InitializeParticles s)) /\
  (forall s dt, pool_invariant s -> pool_invariant (UpdateParticles dt s)) /\
  (forall s r position count speed duration color,
     pool_invariant s ->
     pool_invariant
       (fst (EmitParticles position count speed duration color s r))).
Proof.
  split; [|split; [|split]].
  - unfold pool_invariant, particles_at_start.
    cbn [particles nextParticleIndex].
    split; [apply repeat_length | unfold MAX_PARTICLES; lia].
  - intros s [Hl Hn]. unfold pool_invariant, InitializeParticles.
    cbn [particles nextParticleIndex]. rewrite for_each_below_length.
    split; [exact Hl | unfold MAX_PARTICLES; lia].
  - intros s dt [Hl Hn]. unfold pool_invariant, UpdateParticles.
    cbn [particles nextParticleIndex]. rewrite for_each_below_length.
    split; assumption.
  - intros s r position count speed duration color H.
    apply emit_loop_invariant. exact H.
Qed.

Lemma particle_pool_invariant_witness :
  pool_invariant
    (fst (EmitParticles (vec 1 2 3) 1234 (fz 2) (fz 1) sample_color
            (UpdateParticles (fz 1) (InitializeParticles particles_at_start))
            sample_rng)).
Proof.
  destruct particle_pool_invariant as [H0 [Hi [Hu He]]].
  apply He. apply Hu. apply Hi. exact H0.
Defined.

Lemma ring_distance_step next next' k :
  0 <= next < MAX_PARTICLES -> 0 <= k < MAX_PARTICLES ->
  next' = (if next + 1 <? MAX_PARTICLES then next + 1 else 0) ->
  (k = next -> ring_distance next k = 0 /\
               ring_distance next' k = MAX_PARTICLES - 1) /\
  (k <> next -> ring_distance next' k = ring_distance next k - 1 /\
                1 <= ring_distance next k).
Proof.
  unfold ring_distance, MAX_PARTICLES. intros Hn Hk ->.
  destruct (Z.ltb_spec (next + 1) 500);
    destruct (Z.leb_spec next k);
    try destruct (Z.leb_spec (next + 1) k);
    try destruct (Z.leb_spec 0 k); split; intros; lia.
Qed.

Lemma emit_loop_spec position speed duration color : forall n s r,
  pool_invariant s ->
  let s' := fst (emit_loop n position speed duration color s r) in
  nextParticleIndex s'
    = (nextParticleIndex s + Z.of_nat n) mod MAX_PARTICLES /\
  forall k, 0 <= k < MAX_PARTICLES ->
    (ring_distance (nextParticleIndex s) k < Z.of_nat n ->
       Particle.isActive (particle_at s' k) = true /\
       Particle.position (particle_at s' k) = position /\
       Particle.color (particle_at s' k) = color) /\
    (Z.of_nat n <= ring_distance (nextParticleIndex s) k ->
       particle_at s' k = particle_at s k).
Proof.
  induction n as [|n IH]; intros s r Hs.
  - cbn [emit_loop fst]. destruct Hs as [_ Hn]. split.
    + rewrite Z.add_0_r, Z.mod_small; [reflexivity | exact Hn].
    + intros k Hk. split; [|reflexivity].
      unfold ring_distance, MAX_PARTICLES in *.
      destruct (Z.leb_spec (nextParticleIndex s) k); lia.
  - cbn [emit_loop].
    pose proof (emit_one_spec position speed duration color s r Hs)
      as [Hs1 [Hn1 [Ha [Hp [Hc Hrest]]]]].
    destruct (emit_one position speed duration color s r) as [s1 r1].
    cbn [fst] in Hs1, Hn1, Ha, Hp, Hc, Hrest.
    specialize (IH s1 r1 Hs1). cbn zeta in IH. destruct IH as [IHn IHk].
    pose proof (proj2 Hs) as Hn.
    split.
    + rewrite IHn, Hn1. unfold MAX_PARTICLES in *.
      destruct (Z.ltb_spec (nextParticleIndex s + 1) 500).
      * f_equal. lia.
      * assert (nextParticleIndex s = 499) by lia.
        replace (nextParticleIndex s + Z.of_nat (S n))
          with (0 + Z.of_nat n + 1 * 500) by lia.
        now rewrite Z.mod_add by lia.
    + intros k Hk. destruct (IHk k Hk) as [IH1 IH2].
      pose proof (ring_distance_step (nextParticleIndex s)
                    (nextParticleIndex s1) k Hn Hk Hn1) as [Heq Hne].
      destruct (Z.eq_dec k (nextParticleIndex s)) as [E|E].
      * destruct (Heq E) as [D0 D1]. split.
        -- intros _.
           destruct (Z_lt_le_dec (ring_distance (nextParticleIndex s1) k)
                                 (Z.of_nat n)) as [L|L].
           ++ now apply IH1.
           ++ rewrite (IH2 L). subst k. auto.
        -- intros L. lia.
      * destruct (Hne E) as [D1 D0]. split.
        -- intros L. apply IH1. lia.
        -- intros L. rewrite IH2 by lia. apply Hrest; [lia | exact E].
Qed.

(** X13.  [EmitParticles] advances the ring index by the number of
    particles emitted, modulo the pool size: after [count >= 0] emissions
    [nextParticleIndex] is (old + count) mod 500.  With [count <= 0] nothing
    is emitted: the pool, the index and the random sequence are untouched. *)
Theorem emit_advances_ring_index position count speed duration color s r :
  pool_invariant s ->
  (0 <= count ->
   nextParticleIndex
     (fst (EmitParticles position count speed duration color s r))
   = (nextParticleIndex s + count) mod MAX_PARTICLES) /\
  (count <= 0 ->
   EmitParticles position count speed duration color s r = (s, r)).
Proof.
  intros Hs. split.
  - intros Hc. unfold EmitParticles.
    destruct (emit_loop_spec position speed duration color
                (Z.to_nat count) s r Hs) as [H _].
    rewrite H. now rewrite Z2Nat.id.
  - intros Hc. unfold EmitParticles.
    replace (Z.to_nat count) with O by lia. reflexivity.
Qed.

Lemma emit_advances_ring_index_witness :
  nextParticleIndex
    (fst (EmitParticles (vec 1 2 3) 1234 (fz 2) (fz 1) sample_color
            particles_at_start sample_rng))
  = 234.
Proof.
  destruct (emit_advances_ring_index (vec 1 2 3) 1234 (fz 2) (fz 1)
              sample_color particles_at_start sample_rng) as [H _].
  - apply pool_invariant_at_start.
  - rewrite H; [reflexivity | lia].
Defined.

(** X14.  After [EmitParticles] with [count >= 0], the slots of the ring
    window that starts at the old [nextParticleIndex] and is [count] long
    (all 500 slots when [count >= 500]) hold active particles at the given
    position with the given colour, and every slot outside the window is
    exactly as it was: an emission overwrites the oldest slots and nothing
    else. *)
Theorem emit_fills_ring_window position count speed duration color s r k :
  pool_invariant s -> 0 <= count -> 0 <= k < MAX_PARTICLES ->
  (ring_distance (nextParticleIndex s) k < count ->
     Particle.isActive
       (particle_at (fst (EmitParticles position count speed duration color
                            s r)) k) = true /\
     Particle.position
       (particle_at (fst (EmitParticles position count speed duration color
                            s r)) k) = position /\
     Particle.color
       (particle_at (fst (EmitParticles position count speed duration color
                            s r)) k) = color) /\
  (count <= ring_distance (nextParticleIndex s) k ->
     particle_at (fst (EmitParticles position count speed duration color s r))
                 k
     = particle_at s k).
Proof.
  intros Hs Hc Hk. unfold EmitParticles.
  destruct (emit_loop_spec position speed duration color
              (Z.to_nat count) s r Hs) as [_ H].
  specialize (H k Hk). rewrite Z2Nat.id in H by exact Hc. exact H.
Qed.

Lemma emit_fills_ring_window_witness :
  Particle.position
    (particle_at (fst (EmitParticles (vec 1 2 3) 50 (fz 2) (fz 1) sample_color
                         (mkParticles (particles particles_at_start) 480)
                         sample_rng)) 29)
  = vec 1 2 3.
Proof.
  apply (emit_fills_ring_window (vec 1 2 3) 50 (fz 2) (fz 1) sample_color
           (mkParticles (particles particles_at_start) 480) sample_rng 29).
  - unfold pool_invariant, particles_at_start, MAX_PARTICLES.
    cbn [particles nextParticleIndex].
    split; [apply repeat_length | lia].
  - lia.
  - unfold MAX_PARTICLES. lia.
  - vm_compute. reflexivity.
Defined.

Lemma update_particle_inactive dt p :
  Particle.isActive (update_particle dt p) = true ->
  Particle.isActive p = true.
Proof.
  unfold update_particle.
  destruct (Particle.isActive p) eqn:E; intros H;
    [reflexivity | congruence].
Qed.

Lemma active_count_for_each_below body :
  (forall p, Particle.isActive (body p) = true -> Particle.isActive p = true) ->
  forall n pool,
  (length (filter Particle.isActive (firstn n (for_each_below n body pool)))
   <= length (filter Particle.isActive (firstn n pool)))%nat.
Proof.
  intros Hb. induction n as [|n IH]; intros [|p rest]; simpl; try lia.
  specialize (IH rest).
  destruct (Particle.isActive (body p)) eqn:E.
  - rewrite (Hb p E). simpl. lia.
  - destruct (Particle.isActive p); simpl; lia.
Qed.

(** X15.  [UpdateParticles] never activates a particle and leaves an
    inactive slot exactly as it is; it never changes a velocity, a colour
    or [nextParticleIndex].  An active particle whose remaining life
    [lifeTime - deltaTime] is <= 0 is switched off without moving; any
    other active particle moves by velocity * deltaTime.  So the number of
    spheres [DrawParticles] draws never grows across an update. *)
Theorem update_never_activates dt s k :
  pool_invariant s -> 0 <= k < MAX_PARTICLES ->
  (Particle.isActive (particle_at s k) = false ->
   particle_at (UpdateParticles dt s) k = particle_at s k) /\
  (Particle.isActive (particle_at s k) = true ->
   Particle.lifeTime (particle_at (UpdateParticles dt s) k)
   = fsub (Particle.lifeTime (particle_at s k)) dt /\
   (fle (fsub (Particle.lifeTime (particle_at s k)) dt) f0 = true ->
    Particle.isActive (particle_at (UpdateParticles dt s) k) = false /\
    Particle.position (particle_at (UpdateParticles dt s) k)
    = Particle.position (particle_at s k)) /\
   (fle (fsub (Particle.lifeTime (particle_at s k)) dt) f0 = false ->
    Particle.isActive (particle_at (UpdateParticles dt s) k) = true /\
    Particle.position (particle_at (UpdateParticles dt s) k)
    = Vector3Add (Particle.position (particle_at s k))
                 (Vector3Scale (Particle.velocity (particle_at s k)) dt))) /\
  Particle.velocity (particle_at (UpdateParticles dt s) k)
  = Particle.velocity (particle_at s k) /\
  Particle.color (particle_at (UpdateParticles dt s) k)
  = Particle.color (particle_at s k) /\
  nextParticleIndex (UpdateParticles dt s) = nextParticleIndex s /\
  (length (DrawParticles (UpdateParticles dt s))
   <= length (DrawParticles s))%nat.
Proof.
  intros [Hl Hn] Hk.
  assert (E : particle_at (UpdateParticles dt s) k
              = update_particle dt (particle_at s k)).
  { unfold particle_at, UpdateParticles. cbn [particles].
    apply for_each_below_nth; [unfold MAX_PARTICLES in *; lia|].
    rewrite Hl. unfold MAX_PARTICLES in *. lia. }
  rewrite E. unfold update_particle.
  repeat split.
  - intros H. now rewrite H.
  - rewrite H. destruct (fle _ f0); reflexivity.
  - rewrite H, H0. reflexivity.
  - rewrite H, H0. reflexivity.
  - rewrite H, H0. reflexivity.
  - rewrite H, H0. reflexivity.
  - destruct (Particle.isActive (particle_at s k)); [|reflexivity].
    destruct (fle _ f0); reflexivity.
  - destruct (Particle.isActive (particle_at s k)); [|reflexivity].
    destruct (fle _ f0); reflexivity.
  - unfold DrawParticles, UpdateParticles. cbn [particles].
    rewrite !length_map. apply active_count_for_each_below.
    apply update_particle_inactive.
Qed.

Lemma update_never_activates_witness :
  let s := fst (EmitParticles (vec 1 2 3) 3 (fz 2) (fz 1) sample_color
                  particles_at_start sample_rng) in
  let quarter := fdiv (fz 1) (fz 4) in
  Particle.isActive (particle_at s 0) = true /\
  (Particle.isActive (particle_at (UpdateParticles quarter s) 0) = true /\
   Particle.position (particle_at (UpdateParticles quarter s) 0)
   = Vector3Add (Particle.position (particle_at s 0))
                (Vector3Scale (Particle.velocity (particle_at s 0)) quarter)) /\
  (Particle.isActive (particle_at (UpdateParticles (fz 2) s) 0) = false /\
   Particle.position (particle_at (UpdateParticles (fz 2) s) 0)
   = Particle.position (particle_at s 0)).
Proof.
  intros s quarter.
  assert (Hs : pool_invariant s).
  { apply emit_loop_invariant, pool_invariant_at_start. }
  assert (Hk : 0 <= 0 < MAX_PARTICLES) by (unfold MAX_PARTICLES; lia).
  assert (Ha : Particle.isActive (particle_at s 0) = true)
    by (vm_compute; reflexivity).
  split; [exact Ha|]. split.
  - destruct (update_never_activates quarter s 0 Hs Hk)
      as [_ [H _]].
    destruct (H Ha) as [_ [_ Hmove]]. apply Hmove.
    vm_compute. reflexivity.
  - destruct (update_never_activates (fz 2) s 0 Hs Hk)
      as [_ [H _]].
    destruct (H Ha) as [_ [Hoff _]]. apply Hoff.
    vm_compute. reflexivity.
Defined.

Lemma draw_window (pos : Vector3.t) (col : Color.t) :
  forall (pool : list Particle.t) (c : nat),
  (forall k, (k < length pool)%nat ->
     ((k < c)%nat ->
        Particle.isActive (nth k pool zero_particle) = true /\
        Particle.position (nth k pool zero_particle) = pos /\
        Particle.color (nth k pool zero_particle) = col) /\
     ((c <= k)%nat -> Particle.isActive (nth k pool zero_particle) = false)) ->
  map (fun p => (Particle.position p, f0_05, Particle.color p))
      (filter Particle.isActive pool)
  = repeat (pos, f0_05, col) (Nat.min c (length pool)).
Proof.
  induction pool as [|p rest IH]; intros c H.
  - now rewrite Nat.min_0_r.
  - destruct c as [|c].
    + pose proof (proj2 (H 0%nat ltac:(simpl; lia)) ltac:(lia)) as H0.
      simpl in H0. simpl. rewrite H0.
      rewrite (IH 0%nat); [reflexivity|].
      intros k Hk. split; [lia|]. intros _.
      apply (proj2 (H (S k) ltac:(simpl; lia))). lia.
    + pose proof (proj1 (H 0%nat ltac:(simpl; lia)) ltac:(lia))
        as [Ha [Hp Hc]].
      simpl in Ha, Hp, Hc. simpl. rewrite Ha. simpl. rewrite Hp, Hc.
      f_equal. apply IH.
      intros k Hk. destruct (H (S k) ltac:(simpl; lia)) as [H1 H2]. split.
      * intros L. apply H1. lia.
      * intros L. apply H2. lia.
Qed.

(** X16.  From a freshly initialised pool, an emission of [count] particles
    (0 <= count <= 500) at a position makes [DrawParticles] draw exactly
    [count] spheres, each at that position, of radius 0.05 and of the given
    colour: [InitializeParticles] leaves nothing to draw, and the emission
    activates that many slots and no other. *)
Theorem emit_after_initialize_draws_count position count speed duration color
    s r :
  pool_invariant s -> 0 <= count <= MAX_PARTICLES ->
  DrawParticles (InitializeParticles s) = [] /\
  DrawParticles
    (fst (EmitParticles position count speed duration color
            (InitializeParticles s) r))
  = repeat (position, f0_05, color) (Z.to_nat count).
Proof.
  intros Hs Hc.
  assert (Hi : pool_invariant (InitializeParticles s)).
  { destruct Hs as [Hl Hn]. unfold pool_invariant, InitializeParticles.
    cbn [particles nextParticleIndex]. rewrite for_each_below_length.
    split; [exact Hl | unfold MAX_PARTICLES; lia]. }
  assert (Hoff : forall k, (k < Z.to_nat MAX_PARTICLES)%nat ->
            Particle.isActive
              (nth k (particles (InitializeParticles s)) zero_particle)
            = false).
  { intros k Hk. unfold InitializeParticles. cbn [particles].
    rewrite for_each_below_nth; [reflexivity | exact Hk |].
    now rewrite (proj1 Hs). }
  assert (Hdraw : forall s' c,
            length (particles s') = Z.to_nat MAX_PARTICLES ->
            (forall k, (k < length (particles s'))%nat ->
               ((k < c)%nat ->
                  Particle.isActive (nth k (particles s') zero_particle) = true /\
                  Particle.position (nth k (particles s') zero_particle)
                  = position /\
                  Particle.color (nth k (particles s') zero_particle) = color) /\
               ((c <= k)%nat ->
                  Particle.isActive (nth k (particles s') zero_particle)
                  = false)) ->
            (c <= Z.to_nat MAX_PARTICLES)%nat ->
            DrawParticles s' = repeat (position, f0_05, color) c).
  { intros s' c Hl H Hle. unfold DrawParticles.
    rewrite firstn_all2 by lia.
    rewrite (draw_window position color (particles s') c H).
    f_equal. lia. }
  split.
  - apply (Hdraw (InitializeParticles s) 0%nat (proj1 Hi)); [|lia].
    intros k Hk. split; [lia|]. intros _. apply Hoff.
    now rewrite <- (proj1 Hi).
  - pose proof (emit_loop_invariant position speed duration color
                  (Z.to_nat count) (InitializeParticles s) r Hi) as Hs'.
    destruct (emit_loop_spec position speed duration color
                (Z.to_nat count) (InitializeParticles s) r Hi) as [_ Hw].
    unfold EmitParticles.
    apply (Hdraw _ (Z.to_nat count) (proj1 Hs')); [|lia].
    intros k Hk. rewrite (proj1 Hs') in Hk.
    assert (Hkz : 0 <= Z.of_nat k < MAX_PARTICLES) by lia.
    specialize (Hw (Z.of_nat k) Hkz).
    unfold particle_at in Hw. rewrite Nat2Z.id in Hw.
    assert (Hd : ring_distance (nextParticleIndex (InitializeParticles s))
                               (Z.of_nat k) = Z.of_nat k).
    { unfold ring_distance, InitializeParticles. cbn [nextParticleIndex].
      destruct (Z.leb_spec 0 (Z.of_nat k)); lia. }
    rewrite Hd in Hw. destruct Hw as [H1 H2]. split.
    + intros L. apply H1. lia.
    + intros L. rewrite H2 by lia. now apply Hoff.
Qed.

Lemma emit_after_initialize_draws_count_witness :
  length (DrawParticles
            (fst (EmitParticles (vec 1 2 3) 50 (fz 2) (fz 1) sample_color
                    (InitializeParticles particles_at_start) sample_rng)))
  = 50%nat.
Proof.
  destruct (emit_after_initialize_draws_count (vec 1 2 3) 50 (fz 2) (fz 1)
              sample_color particles_at_start sample_rng) as [_ H].
  - apply pool_invariant_at_start.
  - unfold MAX_PARTICLES. lia.
  - rewrite H. apply repeat_length.
Defined.

(* ================================================================== *)
(** * The random factors *)

Lemma rand_ok r :
  rng_ok r -> 0 <= fst (rand r) <= RAND_MAX r /\ rng_ok (snd (rand r)).
Proof. intros H. split; [apply H | exact H]. Qed.

Lemma GetRandomFloat_ok lo hi r :
  rng_ok r -> rng_ok (snd (GetRandomFloat lo hi r)).
Proof.
  intros H. unfold GetRandomFloat. destruct (fle hi lo); exact H.
Qed.

Lemma half_to_one_and_half_table :
  forallb (fun n => fle f0_5 (half_to_one_and_half n)
                    && flt (half_to_one_and_half n) f1_5)
          (map Z.of_nat (seq 0 100)) = true.
Proof. vm_compute. reflexivity. Qed.

Lemma half_to_one_and_half_range v :
  0 <= v ->
  fle f0_5 (half_to_one_and_half v) = true /\
  flt (half_to_one_and_half v) f1_5 = true.
Proof.
  intros Hv.
  pose proof (Z.rem_bound_pos v 100 Hv ltac:(lia)) as Hb.
  assert (E : half_to_one_and_half v = half_to_one_and_half (Z.rem v 100)).
  { unfold half_to_one_and_half. now rewrite Z.rem_rem by lia. }
  rewrite E.
  apply andb_true_iff.
  apply (proj1 (forallb_forall _ _) half_to_one_and_half_table).
  apply in_map_iff. exists (Z.to_nat (Z.rem v 100)). split; [lia|].
  apply in_seq. lia.
Qed.

Lemma emit_one_lifetime position speed duration color s r :
  pool_invariant s -> rng_ok r ->
  rng_ok (snd (emit_one position speed duration color s r)) /\
  exists f,
    Particle.lifeTime
      (particle_at (fst (emit_one position speed duration color s r))
                   (nextParticleIndex s))
    = fmul duration f /\
    fle f0_5 f = true /\ flt f f1_5 = true.
Proof.
  intros [Hl Hn] Hr. unfold MAX_PARTICLES in *.
  unfold emit_one.
  pose proof (rand_ok r Hr) as [Hv1 Hr1].
  destruct (rand r) as [v1 r1]. cbn [fst snd] in Hv1, Hr1.
  pose proof (GetRandomFloat_ok (float_of_int (-1)) f1 r1 Hr1) as Hr2.
  destruct (GetRandomFloat (float_of_int (-1)) f1 r1) as [vx r2].
  cbn [snd] in Hr2.
  pose proof (GetRandomFloat_ok (float_of_int (-1)) f1 r2 Hr2) as Hr3.
  destruct (GetRandomFloat (float_of_int (-1)) f1 r2) as [vy r3].
  cbn [snd] in Hr3.
  pose proof (GetRandomFloat_ok (float_of_int (-1)) f1 r3 Hr3) as Hr4.
  destruct (GetRandomFloat (float_of_int (-1)) f1 r3) as [vz r4].
  cbn [snd] in Hr4.
  pose proof (rand_ok r4 Hr4) as [_ Hr5].
  destruct (rand r4) as [v2 r5]. cbn [snd] in Hr5.
  cbn [fst snd particles nextParticleIndex].
  split; [exact Hr5|].
  exists (half_to_one_and_half v1).
  split; [|apply half_to_one_and_half_range; lia].
  unfold particle_at. cbn [particles].
  rewrite store_at_nth by (rewrite Hl; lia).
  now rewrite Nat.eqb_refl.
Qed.

Lemma emit_loop_lifetime position speed duration color : forall n s r,
  pool_invariant s -> rng_ok r ->
  forall k, 0 <= k < MAX_PARTICLES ->
    ring_distance (nextParticleIndex s) k < Z.of_nat n ->
    exists f,
      Particle.lifeTime
        (particle_at (fst (emit_loop n position speed duration color s r)) k)
      = fmul duration f /\
      fle f0_5 f = true /\ flt f f1_5 = true.
Proof.
  induction n as [|n IH]; intros s r Hs Hr k Hk Hd.
  - exfalso. destruct Hs as [_ Hn].
    unfold ring_distance, MAX_PARTICLES in *.
    destruct (Z.leb_spec (nextParticleIndex s) k); lia.
  - cbn [emit_loop].
    pose proof (emit_one_spec position speed duration color s r Hs)
      as [Hs1 [Hn1 [_ [_ [_ Hrest]]]]].
    pose proof (emit_one_lifetime position speed duration color s r Hs Hr)
      as [Hr1 Hlife].
    destruct (emit_one position speed duration color s r) as [s1 r1].
    cbn [fst snd] in Hs1, Hn1, Hrest, Hr1, Hlife.
    pose proof (ring_distance_step (nextParticleIndex s)
                  (nextParticleIndex s1) k (proj2 Hs) Hk Hn1) as [Heq Hne].
    destruct (emit_loop_spec position speed duration color n s1 r1 Hs1)
      as [_ Hw].
    destruct (Hw k Hk) as [_ Hkeep].
    destruct (Z_lt_le_dec (ring_distance (nextParticleIndex s1) k)
                          (Z.of_nat n)) as [L|L].
    + apply IH; assumption.
    + rewrite (Hkeep L).
      destruct (Z.eq_dec k (nextParticleIndex s)) as [E|E].
      * subst k. exact Hlife.
      * destruct (Hne E). lia.
Qed.

(** X17.  Every particle [EmitParticles] emits lives for [duration] times a
    factor f with 0.5 <= f < 1.5: for a generator that keeps the C
    standard's promise 0 <= rand() <= RAND_MAX, each slot of the emitted
    window holds [lifeTime = duration * f] for such an f. *)
Theorem emitted_lifetime_in_range position count speed duration color s r k :
  pool_invariant s -> rng_ok r -> 0 <= k < MAX_PARTICLES ->
  ring_distance (nextParticleIndex s) k < count ->
  exists f,
    Particle.lifeTime
      (particle_at
         (fst (EmitParticles position count speed duration color s r)) k)
    = fmul duration f /\
    fle f0_5 f = true /\ flt f f1_5 = true.
Proof.
  intros Hs Hr Hk Hd. unfold EmitParticles.
  apply emit_loop_lifetime; try assumption.
  assert (0 <= ring_distance (nextParticleIndex s) k).
  { destruct Hs as [_ Hn]. unfold ring_distance, MAX_PARTICLES in *.
    destruct (Z.leb_spec (nextParticleIndex s) k); lia. }
  lia.
Qed.

Lemma sample_rng_ok : rng_ok sample_rng.
Proof.
  intros n. unfold sample_rng. cbn [rand_seq RAND_MAX].
  pose proof (Z.mod_pos_bound (Z.of_nat n * 7919 + 13) 32768 ltac:(lia)).
  lia.
Qed.

Lemma emitted_lifetime_in_range_witness :
  exists f,
    Particle.lifeTime
      (particle_at
         (fst (EmitParticles (vec 1 2 3) 50 (fz 2) (fz 1) sample_color
                 particles_at_start sample_rng)) 49)
    = fmul (fz 1) f /\
    fle f0_5 f = true /\ flt f f1_5 = true.
Proof.
  apply (emitted_lifetime_in_range (vec 1 2 3) 50 (fz 2) (fz 1) sample_color
           particles_at_start sample_rng 49).
  - apply pool_invariant_at_start.
  - apply sample_rng_ok.
  - unfold MAX_PARTICLES. lia.
  - vm_compute. reflexivity.
Defined.

(* ================================================================== *)
(** * The star field *)






(* ================================================================== *)
(** * Click-to-hit *)

Lemma flt_irrefl a : flt a a = false.
Proof.
  destruct (flt a a) eqn:E; [|reflexivity].
  apply flt_key in E. destruct E as [_ [_ E]].
  destruct (fkey a) as [[a1 a2] a3]. unfold key_lt in E. lia.
Qed.

Lemma within_reach_below_FLT_MAX d :
  fle d HIT_MAX_DISTANCE = true -> flt d FLT_MAX = true.
Proof.
  intros H. apply (fle_flt_trans d HIT_MAX_DISTANCE FLT_MAX H).
  vm_compute. reflexivity.
Qed.

Section ClickToHitProofs.

Variable collide : Ray.t -> Vector3.t -> float -> RayCollision.t.
Variable ray : Ray.t.
Variable asteroids : list Asteroid.t.

Lemma click_hits_functional c h1 h2 :
  click_hits collide ray asteroids c h1 ->
  click_hits collide ray asteroids c h2 -> h1 = h2.
Proof.
  intros [_ [a1 [N1 [_ [E1 _]]]]] [_ [a2 [N2 [_ [E2 _]]]]].
  congruence.
Qed.

Lemma hit_invariant_extend seen acc c :
  hit_invariant collide ray asteroids seen acc ->
  (forall h, click_hits collide ray asteroids c h ->
             flt (RayCollision.distance h)
                 (RayCollision.distance (fst acc)) = false) ->
  hit_invariant collide ray asteroids (seen ++ [c]) acc.
Proof.
  intros [[Hi [Hb Hnone]] | [Hin [Hbest Hmin]]] Hc.
  - left. split; [exact Hi|]. split; [exact Hb|].
    intros c' h Hin Hh. apply in_app_or in Hin.
    destruct Hin as [Hin | [<- | []]].
    + exact (Hnone c' h Hin Hh).
    + pose proof (Hc h Hh) as F. rewrite Hb in F.
      destruct Hh as [_ [a [_ [_ [_ [_ Hd]]]]]].
      apply within_reach_below_FLT_MAX in Hd.
      cbn [no_hit RayCollision.distance] in F. congruence.
  - right. split; [|split].
    + apply in_or_app. now left.
    + exact Hbest.
    + intros c' h Hin' Hh. apply in_app_or in Hin'.
      destruct Hin' as [Hin' | [<- | []]].
      * exact (Hmin c' h Hin' Hh).
      * exact (Hc h Hh).
Qed.

Lemma hit_step_invariant seen acc c :
  hit_invariant collide ray asteroids seen acc ->
  hit_invariant collide ray asteroids (seen ++ [c]) (hit_step collide ray asteroids acc c).
Proof.
  intros Hinv. unfold hit_step.
  destruct ((c <? 0) || (Z.of_nat (length asteroids) <=? c)) eqn:Erange.
  { apply hit_invariant_extend; [exact Hinv|].
    intros h [H0 [a [Hn _]]]. exfalso.
    apply orb_true_iff in Erange. destruct Erange as [E|E].
    - apply Z.ltb_lt in E. lia.
    - apply Z.leb_le in E.
      assert (Z.to_nat c < length asteroids)%nat
        by (apply nth_error_Some; congruence).
      lia. }
  apply orb_false_iff in Erange. destruct Erange as [E0 E1].
  apply Z.ltb_ge in E0.
  destruct (nth_error asteroids (Z.to_nat c)) as [ast|] eqn:En.
  2:{ apply hit_invariant_extend; [exact Hinv|].
      intros h [_ [a [Hn _]]]. congruence. }
  destruct (Asteroid.isActive ast) eqn:Ea; cbn [negb].
  2:{ apply hit_invariant_extend; [exact Hinv|].
      intros h [_ [a [Hn [Ha _]]]]. congruence. }
  set (hitInfo := collide ray (Asteroid.position ast)
                          (Asteroid.collisionRadius ast)).
  destruct (RayCollision.hit hitInfo) eqn:Eh; cbn [andb].
  2:{ apply hit_invariant_extend; [exact Hinv|].
      intros h [_ [a [Hn [_ [Hh [Hhit _]]]]]].
      assert (a = ast) by congruence. subst a. fold hitInfo in Hh.
      congruence. }
  destruct (flt (RayCollision.distance hitInfo)
                (RayCollision.distance (fst acc))) eqn:El; cbn [andb].
  2:{ apply hit_invariant_extend; [exact Hinv|].
      intros h [_ [a [Hn [_ [Hh _]]]]].
      assert (a = ast) by congruence. subst a. fold hitInfo in Hh.
      now subst h. }
  destruct (fle (RayCollision.distance hitInfo) HIT_MAX_DISTANCE) eqn:Ed.
  2:{ apply hit_invariant_extend; [exact Hinv|].
      intros h [_ [a [Hn [_ [Hh [_ Hd]]]]]].
      assert (a = ast) by congruence. subst a. fold hitInfo in Hh.
      congruence. }
  assert (Hc : click_hits collide ray asteroids c hitInfo).
  { split; [exact E0|]. exists ast. repeat split; assumption. }
  right. cbn [fst snd]. split; [|split].
  - apply in_or_app. right. now left.
  - exact Hc.
  - intros c' h Hin Hh. apply in_app_or in Hin.
    destruct Hin as [Hin | [<- | []]].
    + destruct Hinv as [[_ [_ Hnone]] | [_ [_ Hmin]]].
      * exfalso. exact (Hnone c' h Hin Hh).
      * destruct (flt (RayCollision.distance h)
                      (RayCollision.distance hitInfo)) eqn:F; [|reflexivity].
        rewrite <- (Hmin c' h Hin Hh). symmetry.
        exact (flt_trans _ _ _ F El).
    + rewrite (click_hits_functional c h hitInfo Hh Hc).
      apply flt_irrefl.
Qed.

Lemma hit_loop_invariant : forall cands seen acc,
  hit_invariant collide ray asteroids seen acc ->
  hit_invariant collide ray asteroids (seen ++ cands)
                (fold_left (hit_step collide ray asteroids) cands acc).
Proof.
  induction cands as [|c rest IH]; intros seen acc H.
  - now rewrite app_nil_r.
  - cbn [fold_left].
    replace (seen ++ c :: rest) with ((seen ++ [c]) ++ rest)
      by (now rewrite <- app_assoc).
    apply IH. now apply hit_step_invariant.
Qed.

End ClickToHitProofs.

(** X19.  The click-to-hit loop of the game picks the nearest hit among the
    candidates the grid returned: whatever raylib's ray-sphere test answers,
    either the loop ends with index -1 and no hit, and then no candidate
    names an in-range active asteroid that the ray hits within
    HIT_MAX_DISTANCE (50); or it ends with a candidate index that names such
    an asteroid, with that asteroid's collision record, and no such
    candidate is strictly nearer. *)
Theorem closest_hit_is_nearest collide ray asteroids candidates :
  (snd (closest_hit collide ray asteroids candidates) = -1 /\
   RayCollision.hit (fst (closest_hit collide ray asteroids candidates))
   = false /\
   forall c h, In c candidates -> ~ click_hits collide ray asteroids c h) \/
  (In (snd (closest_hit collide ray asteroids candidates)) candidates /\
   click_hits collide ray asteroids
     (snd (closest_hit collide ray asteroids candidates))
     (fst (closest_hit collide ray asteroids candidates)) /\
   forall c h, In c candidates -> click_hits collide ray asteroids c h ->
     flt (RayCollision.distance h)
         (RayCollision.distance
            (fst (closest_hit collide ray asteroids candidates))) = false).
Proof.
  pose proof (hit_loop_invariant collide ray asteroids candidates []
                (no_hit, -1)) as H.
  assert (H0 : hit_invariant collide ray asteroids [] (no_hit, -1));
    [|specialize (H H0)].
  { left. split; [reflexivity|]. split; [reflexivity|]. intros c h []. }
  cbn [app] in H. fold (closest_hit collide ray asteroids candidates) in H.
  destruct H as [[Hi [Hb Hnone]] | H].
  - left. split; [exact Hi|]. split; [now rewrite Hb | exact Hnone].
  - right. exact H.
Qed.
